(** * Entropy-production estimators for multipartite spin systems

    A shallow embedding of the three Python/PyTorch modules

    - [methods_EP_multipartite.py]   (first version of the per-spin estimator),
    - [methods_EP_multipartite2.py]  (revised version of the per-spin estimator),
    - [methods_EP_parallel.py]       (maximum-entropy global fit),

    followed by the properties of them that the specification states.

    Numbers.  Tensor entries are real numbers ([R] of the Standard Library):
    [torch.exp] is [exp], [torch.log] is [ln], and the rounding, overflow and
    NaN behaviour of floating point is outside the model.

    Tensors.  A 1-D tensor is the list of its entries; a 2-D tensor is the list
    of its rows.  A Python exception is a value [Raise e] of the [result]
    monad.  The reference index [i] is a natural number (the specification
    takes it in [0, N)); Python's negative indices are not modelled.

    Linear algebra back end.  [torch.linalg.lstsq] and [torch.linalg.solve]
    are not code of this repository: a call of either is a node of the free
    monad [prog], answered by a [backend] when the program is run. *)

From Stdlib Require Import Reals Lra Lia String.
From stdpp Require Import base option list.

Local Open Scope R_scope.

(* ================================================================== *)
(** * Exceptions and the two monads *)
(* ================================================================== *)

Inductive exn : Type :=
| IndexError     (* index out of range *)
| ValueError     (* tuple unpacking of a shape of the wrong rank *)
| RuntimeError.  (* torch shape mismatch, reduction of an empty tensor *)

Inductive result (A : Type) : Type :=
| Ok (a : A)
| Raise (e : exn).
Arguments Ok {A} a.
Arguments Raise {A} e.

#[global] Instance result_ret : MRet result := @Ok.
#[global] Instance result_bind : MBind result :=
  λ A B f m, match m with Ok a => f a | Raise e => Raise e end.

Abbreviation vector := (list R).
Abbreviation matrix := (list (list R)).

(** A program that may call the linear-algebra back end.  [Lstsq M b k] is
    [torch.linalg.lstsq(M, b).solution], which returns a vector whatever the
    rank of [M]; [Solve M b k] is [torch.linalg.solve(M, b)], which raises
    [_LinAlgError] on a singular [M]: the continuation receives [None]. *)
Inductive prog (A : Type) : Type :=
| Ret (a : A)
| Throw (e : exn)
| Lstsq (M : matrix) (b : vector) (k : vector → prog A)
| Solve (M : matrix) (b : vector) (k : option vector → prog A).
Arguments Ret {A} a.
Arguments Throw {A} e.
Arguments Lstsq {A} M b k.
Arguments Solve {A} M b k.

Fixpoint prog_bind {A B : Type} (f : A → prog B) (p : prog A) : prog B :=
  match p with
  | Ret a => f a
  | Throw e => Throw e
  | Lstsq M b k => Lstsq M b (λ x, prog_bind f (k x))
  | Solve M b k => Solve M b (λ x, prog_bind f (k x))
  end.

#[global] Instance prog_mret : MRet prog := @Ret.
#[global] Instance prog_mbind : MBind prog := @prog_bind.

Definition lift {A : Type} (r : result A) : prog A :=
  match r with Ok a => Ret a | Raise e => Throw e end.

Record backend : Type := Backend {
  be_lstsq : matrix → vector → vector;
  be_solve : matrix → vector → option vector
}.

Inductive call : Type :=
| CallLstsq (M : matrix) (b : vector)
| CallSolve (M : matrix) (b : vector).

(** Running a program against a back end, and the calls it makes on the way. *)
Fixpoint run {A : Type} (B : backend) (p : prog A) : result A :=
  match p with
  | Ret a => Ok a
  | Throw e => Raise e
  | Lstsq M b k => run B (k (be_lstsq B M b))
  | Solve M b k => run B (k (be_solve B M b))
  end.

Fixpoint calls {A : Type} (B : backend) (p : prog A) : list call :=
  match p with
  | Ret _ | Throw _ => []
  | Lstsq M b k => CallLstsq M b :: calls B (k (be_lstsq B M b))
  | Solve M b k => CallSolve M b :: calls B (k (be_solve B M b))
  end.

(* ================================================================== *)
(** * The torch operations the modules use *)
(* ================================================================== *)

Definition vnth (v : vector) (k : nat) : R := default 0 (v !! k).
Definition entry (M : matrix) (j k : nat) : R := vnth (default [] (M !! j)) k.

(** [M.shape[1]]; a tensor with no rows is represented with no columns. *)
Definition shape1 (M : matrix) : nat := length (default [] (head M)).

Definition is_matrix (n m : nat) (M : matrix) : Prop :=
  length M = n ∧ Forall (λ r, length r = m) M.

Definition vtab (n : nat) (f : nat → R) : vector := f <$> seq 0 n.
Definition mtab (n m : nat) (f : nat → nat → R) : matrix :=
  (λ j, vtab m (f j)) <$> seq 0 n.

Definition vsum (v : vector) : R := foldr Rplus 0 v.          (* torch.sum *)
Definition vmean (v : vector) : R := vsum v / INR (length v). (* torch.mean *)
Definition vscale (c : R) (v : vector) : vector := Rmult c <$> v.
Definition vneg (v : vector) : vector := Ropp <$> v.
Definition vdiv (v : vector) (c : R) : vector := (λ x, x / c) <$> v.
Definition vmul (a b : vector) : vector := zip_with Rmult a b.
Definition dot (a b : vector) : R := vsum (vmul a b).
Definition norm2 (x : vector) : R := vsum ((λ r, r * r) <$> x).    (* |x|^2 *)
Definition mscale (c : R) (M : matrix) : matrix := vscale c <$> M.
Definition mdiv (M : matrix) (c : R) : matrix := (λ r, vdiv r c) <$> M.
Definition mneg (M : matrix) : matrix := vneg <$> M.
Definition mzip (f : R → R → R) (A B : matrix) : matrix :=
  zip_with (zip_with f) A B.

(** [torch.min] and [Tensor.min] of a 1-D tensor: an empty one raises. *)
Definition vmin (v : vector) : result R :=
  match v with
  | [] => Raise RuntimeError
  | x :: v' => Ok (foldr Rmin x v')
  end.

(** [torch.logsumexp(x, dim=0)]. *)
Definition logsumexp (x : vector) : R := ln (vsum (exp <$> x)).

(** [M[i, :]] and [M[:, i]]. *)
Definition get_row (M : matrix) (i : nat) : result vector :=
  match M !! i with Some r => Ok r | None => Raise IndexError end.
Definition get_col (M : matrix) (i : nat) : result vector :=
  if decide (i < shape1 M)%nat then Ok ((λ r, vnth r i) <$> M)
  else Raise IndexError.

(** Broadcasting of an elementwise binary operation: two sizes are
    compatible when they are equal or one of them is 1. *)
Definition bdim (a b : nat) : option nat :=
  if decide (a = b) then Some a
  else if decide (a = 1%nat) then Some b
  else if decide (b = 1%nat) then Some a
  else None.
Definition bidx (n k : nat) : nat := if decide (n = 1%nat) then 0%nat else k.

Definition vbroadcast (f : R → R → R) (a b : vector) : result vector :=
  match bdim (length a) (length b) with
  | Some n =>
      Ok (vtab n (λ k, f (vnth a (bidx (length a) k)) (vnth b (bidx (length b) k))))
  | None => Raise RuntimeError
  end.

Definition mbroadcast (f : R → R → R) (A B : matrix) : result matrix :=
  match bdim (length A) (length B), bdim (shape1 A) (shape1 B) with
  | Some n, Some m =>
      Ok (mtab n m (λ j k,
            f (entry A (bidx (length A) j) (bidx (shape1 A) k))
              (entry B (bidx (length B) j) (bidx (shape1 B) k))))
  | _, _ => Raise RuntimeError
  end.

(** [a @ b] for two 1-D tensors: the sizes must agree. *)
Definition matmul_vv (a b : vector) : result R :=
  if decide (length a = length b) then Ok (dot a b) else Raise RuntimeError.

(** [torch.matmul(a, B)] for a 1-D [a] and a 2-D [B] with [T] columns:
    entry [r] of the product is the sum over [j] of [a[j] * B[j, r]]. *)
Definition matmul_vm (T : nat) (a : vector) (B : matrix) : result vector :=
  if decide (length a = length B)
  then Ok (vtab T (λ r, dot a ((λ row, vnth row r) <$> B)))
  else Raise RuntimeError.

(** [A @ B] for 2-D tensors, [B] with [T] columns and as many rows as [A]
    has columns. *)
Definition matmul (T : nat) (A B : matrix) : matrix :=
  (λ ra, vtab T (λ r, dot ra ((λ row, vnth row r) <$> B))) <$> A.

(** [A @ B.T]: entry [(j, k)] is the dot product of row [j] of [A] with row
    [k] of [B]. *)
Definition matmul_T (A B : matrix) : matrix := (λ ra, dot ra <$> B) <$> A.

(** [torch.einsum('r,jr->j', a, S)] and [torch.einsum('j,k->jk', a, b)]. *)
Definition einsum_r_jr (a : vector) (S : matrix) : vector := dot a <$> S.
Definition einsum_j_k (a b : vector) : matrix := (λ x, Rmult x <$> b) <$> a.

Definition transpose (M : matrix) : matrix :=
  mtab (shape1 M) (length M) (λ j k, entry M k j).
Definition zeros (n m : nat) : matrix := replicate n (replicate m 0).
Definition eye (n : nat) : matrix :=
  mtab n n (λ j k, if decide (j = k) then 1 else 0).

(** [torch.trace]: the sum of the diagonal of a 2-D tensor. *)
Definition trace (M : matrix) : R := vsum (imap (λ j r, vnth r j) M).

(** [torch.sum(M, axis=0)] for [M] with [T] columns. *)
Definition sum_axis0 (T : nat) (M : matrix) : vector :=
  vtab T (λ r, vsum ((λ row, vnth row r) <$> M)).

(** [M[js, ks] = vals] with index lists, and [M[mask] = vals] with the
    positions of the mask in row-major order: the values are written one by
    one; a single value is broadcast to all positions.  Both callers build
    the positions from the size of [M], so none is out of range. *)
Definition set_entry (M : matrix) (p : nat * nat) (v : R) : matrix :=
  alter (λ r, <[p.2 := v]> r) p.1 M.

Definition index_put (M : matrix) (idx : list (nat * nat)) (vals : vector)
  : result matrix :=
  if decide (length vals = length idx)
  then Ok (foldl (λ M' pv, set_entry M' pv.1 pv.2) M (zip idx vals))
  else if decide (length vals = 1%nat)
  then Ok (foldl (λ M' p, set_entry M' p (vnth vals 0)) M idx)
  else Raise RuntimeError.

(* ================================================================== *)
(** * methods_EP_multipartite2.py: the revised per-spin estimator *)
(* ================================================================== *)

Module Multipartite2.

(** [J[i, :] @ Da] *)
Definition exp_EP_spin_model (Da : vector) (J : matrix) (i : nat) : result R :=
  Ji ← get_row J i;
  matmul_vv Ji Da.

(** [einsum('r,jr->j', -2 * S[i, :], S) / S.shape[1]] *)
Definition correlations (S : matrix) (i : nat) : result vector :=
  Si ← get_row S i;
  Ok (vdiv (einsum_r_jr (vscale (-2) Si) S) (INR (shape1 S))).

(** [(4 * S) @ S.T / S.shape[1]] *)
Definition correlations4 (S : matrix) (i : nat) : matrix :=
  mdiv (matmul_T (mscale 4 S) S) (INR (shape1 S)).

(** [A[:i]] followed by [A[i+1:]], for a 1-D tensor or for the rows of a 2-D
    one: slicing never raises, an [i] past the end removes nothing. *)
Definition remove_i {A : Type} (l : list A) (i : nat) : list A :=
  take i l ++ drop (S i) l.

(** The local variable [thf] of the three functions below, which compute it
    by the same two lines:
    [S_without_i = torch.cat((S[:i, :], S[i+1:, :]))] and
    [thf = (-2 * S[i, :]) * torch.matmul(theta, S_without_i)].
    The row [S[i, :]] is read before the product is formed; both factors have
    [S.shape[1]] entries. *)
Definition thf_of (S : matrix) (theta : vector) (i : nat) : result vector :=
  let S_without_i := remove_i S i in
  Si ← get_row S i;
  m ← matmul_vm (shape1 S) theta S_without_i;
  Ok (vmul (vscale (-2) Si) m).

(** Not yet divided by the normalization constant. *)
Definition correlations_theta (S : matrix) (theta : vector) (i : nat)
  : result vector :=
  thf ← thf_of S theta i;
  Si ← get_row S i;
  let S1_S := vmul (vneg (vscale (-2) Si)) (exp <$> vneg thf) in
  Ok (vdiv (einsum_r_jr S1_S S) (INR (shape1 S))).

(** [(4 * torch.exp(-thf) * S) @ S.T / S.shape[1]]: the weights multiply
    every row of [S]. *)
Definition correlations4_theta (S : matrix) (theta : vector) (i : nat)
  : result matrix :=
  thf ← thf_of S theta i;
  let w := vscale 4 (exp <$> vneg thf) in
  Ok (mdiv (matmul_T (vmul w <$> S) S) (INR (shape1 S))).

(** [torch.logsumexp(-thf, dim=0) - torch.log(torch.tensor(thf.numel()))] *)
Definition log_norm_theta (S : matrix) (theta : vector) (i : nat) : result R :=
  thf ← thf_of S theta i;
  Ok (logsumexp (vneg thf) - ln (INR (length thf))).

Definition K_nodiag (Ks : matrix) (i : nat) : matrix :=
  let Ks_no_row := remove_i Ks i in
  (λ r, remove_i r i) <$> Ks_no_row.

(** [torch.linalg.lstsq(M, b).solution] for a 1-D right-hand side, which
    must have as many entries as [M] has rows. *)
Definition linalg_lstsq (M : matrix) (b : vector) : prog vector :=
  if decide (length b = length M) then Lstsq M b Ret else Throw RuntimeError.

Definition solve_linear_theta (Da Da_th : vector) (Ks_th : matrix) (i : nat)
  : prog vector :=
  let Dai := remove_i Da i in
  let Dai_th := remove_i Da_th i in
  let Ks_no_diag_th := K_nodiag Ks_th i in
  rhs_th ← lift (vbroadcast Rminus Dai Dai_th);
  let I := eye (shape1 Ks_no_diag_th) in
  let alpha := 1e-4 * trace Ks_no_diag_th / INR (length Ks_no_diag_th) in
  M ← lift (mbroadcast Rplus Ks_no_diag_th (mscale alpha I));
  linalg_lstsq M rhs_th.

(** Returns [(sig_N1, sig_MTUR, theta, Da)]. *)
Definition get_EP_Newton (S : matrix) (i : nat)
  : prog (R * R * vector * vector) :=
  Da ← lift (correlations S i);
  let Ks := correlations4 S i in
  let Ks := mzip Rminus Ks (einsum_j_k Da Da) in
  theta ← solve_linear_theta Da (vneg Da) Ks i;
  let Dai := remove_i Da i in
  lnZ ← lift (log_norm_theta S theta i);
  sig_MTUR ← lift (matmul_vv theta Dai);
  let Dai := remove_i Da i in
  prod ← lift (vbroadcast Rmult theta Dai);
  let sig_N1 := vsum prod - lnZ in
  Ret (sig_N1, sig_MTUR, theta, Da).

(** Returns [(sig_N2, theta_lin2)]. *)
Definition get_EP_Newton2 (S : matrix) (theta_lin Da : vector) (i : nat)
  : prog (R * vector) :=
  Da_th ← lift (correlations_theta S theta_lin i);
  Ks_th ← lift (correlations4_theta S theta_lin i);
  lnZ ← lift (log_norm_theta S theta_lin i);
  let Z := exp lnZ in
  let Da_th := vdiv Da_th Z in
  let Ks_th := mzip Rminus (mdiv Ks_th Z) (einsum_j_k Da_th Da_th) in
  theta_lin2 ← solve_linear_theta Da Da_th Ks_th i;
  theta ← lift (vbroadcast Rplus theta_lin theta_lin2);
  let Dai := remove_i Da i in
  t_min ← lift (vmin theta);
  prod ← lift (vbroadcast Rmult theta Dai);
  lnZ2 ← lift (log_norm_theta S theta i);
  Ret (vsum prod - lnZ2, theta_lin2).

End Multipartite2.

(* ================================================================== *)
(** * methods_EP_multipartite.py: the first version *)
(* ================================================================== *)

Module Multipartite.

(** [K_nodiag] and [remove_i] are the same text in both modules. *)
Definition remove_i {A : Type} (l : list A) (i : nat) : list A :=
  Multipartite2.remove_i l i.
Definition K_nodiag (Ks : matrix) (i : nat) : matrix :=
  Multipartite2.K_nodiag Ks i.

(** [torch.sum((J[i, :] - J[:, i]) * Da) / 2] *)
Definition exp_EP_spin_model (Da : vector) (J : matrix) (i : nat) : result R :=
  Ji ← get_row J i;
  J_i ← get_col J i;
  d ← vbroadcast Rminus Ji J_i;
  prod ← vbroadcast Rmult d Da;
  Ok (vsum prod / 2).

(** [v[i] = x] and [K[i, :] = 0], [K[:, i] = 0]: an index out of range
    raises. *)
Definition setitem (v : vector) (i : nat) (x : R) : result vector :=
  if decide (i < length v)%nat then Ok (<[i := x]> v) else Raise IndexError.
Definition zero_row (K : matrix) (i : nat) : result matrix :=
  if decide (i < length K)%nat
  then Ok (alter (λ r, replicate (length r) 0) i K)
  else Raise IndexError.
Definition zero_col (K : matrix) (i : nat) : result matrix :=
  if decide (i < shape1 K)%nat
  then Ok ((λ r, <[i := 0]> r) <$> K)
  else Raise IndexError.

(** The number of repetitions [T] is an argument of the first version. *)
Definition correlations (S : matrix) (T : R) (i : nat) : result vector :=
  Si ← get_row S i;
  let Da := vdiv (einsum_r_jr (vscale (-2) Si) S) T in
  setitem Da i 0.

Definition correlations4 (S : matrix) (T : R) (i : nat) : result matrix :=
  let K := mdiv (matmul_T (mscale 4 S) S) T in
  K ← zero_row K i;
  zero_col K i.

(** [torch.linalg.solve(M, b)]: [M] must be square and [b] as long as [M]
    has rows, otherwise a [RuntimeError] that the retry loop does not catch;
    a singular [M] raises [_LinAlgError], which it does catch. *)
Definition linalg_solve {A : Type} (M : matrix) (b : vector)
    (k : option vector → prog A) : prog A :=
  if decide (length M = shape1 M ∧ length b = length M)
  then Solve M b k else Throw RuntimeError.

(** The [while True] loop around [torch.linalg.solve], unrolled [fuel]
    times; [None] when the loop is still running after [fuel] attempts. *)
Fixpoint solve_retry (fuel : nat) (Ks_no_diag_th : matrix) (rhs_th : vector)
    (I : matrix) (epsilon : R) : prog (option vector) :=
  match fuel with
  | O => Ret None
  | S fuel' =>
      M ← lift (mbroadcast Rplus Ks_no_diag_th (mscale epsilon I));
      linalg_solve M rhs_th (λ r,
        match r with
        | Some dtheta => Ret (Some dtheta)
        | None => solve_retry fuel' Ks_no_diag_th rhs_th I (epsilon * 10)
        end)
  end.

Definition solve_linear_theta (fuel : nat) (Da Da_th : vector)
    (Ks_th : matrix) (i : nat) : prog (option vector) :=
  let Dai := remove_i Da i in
  let Dai_th := remove_i Da_th i in
  let Ks_no_diag_th := K_nodiag Ks_th i in
  rhs_th ← lift (vbroadcast Rminus Dai Dai_th);
  let epsilon := 1e-6 in
  let I := eye (shape1 Ks_no_diag_th) in
  solve_retry fuel Ks_no_diag_th rhs_th I epsilon.

(** The reweighted statistics of the first version: [thf] is computed by the
    same two lines as in the revised module, the average is over the
    argument [T], and the self-entries are overwritten by zero. *)
Definition correlations_theta (S : matrix) (T : R) (theta : vector) (i : nat)
  : result vector :=
  thf ← Multipartite2.thf_of S theta i;
  Si ← get_row S i;
  let S1_S := vmul (vneg (vscale (-2) Si)) (exp <$> vneg thf) in
  let Da := vdiv (einsum_r_jr S1_S S) T in
  setitem Da i 0.

Definition correlations4_theta (S : matrix) (T : R) (theta : vector) (i : nat)
  : result matrix :=
  thf ← Multipartite2.thf_of S theta i;
  let w := vscale 4 (exp <$> vneg thf) in
  let K := mdiv (matmul_T (vmul w <$> S) S) T in
  K ← zero_row K i;
  zero_col K i.

(** [Z = torch.sum(torch.exp(-thf)) / T + noF / T] with
    [noF = T - nflips] and [nflips = S.shape[1]]. *)
Definition norm_theta (S : matrix) (T : R) (theta : vector) (i : nat)
  : result R :=
  let nflips := INR (shape1 S) in
  let noF := T - nflips in
  thf ← Multipartite2.thf_of S theta i;
  Ok (vsum (exp <$> vneg thf) / T + noF / T).

(** Returns [(sig_N1, sig_MTUR, theta, Da)], or [None] while the retry loop
    of the solver is still running after [fuel] attempts.  [torch.sum] of the
    0-D tensor [torch.log(Z)] is that number. *)
Definition get_EP_Newton (fuel : nat) (S : matrix) (T : R) (i : nat)
  : prog (option (R * R * vector * vector)) :=
  let N := INR (length S) in
  Da ← lift (correlations S T i);
  Ks ← lift (correlations4 S T i);
  let Ks := mzip Rminus Ks (mdiv (einsum_j_k Da Da) N) in
  r ← solve_linear_theta fuel Da (vneg Da) Ks i;
  match r with
  | None => Ret None
  | Some theta =>
      let Dai := remove_i Da i in
      prod ← lift (vbroadcast Rmult theta Dai);
      let sig_MTUR := vsum prod in
      let Dai := remove_i Da i in
      prod ← lift (vbroadcast Rmult theta Dai);
      Z ← lift (norm_theta S T theta i);
      let sig_N1 := vsum prod - ln Z in
      Ret (Some (sig_N1, sig_MTUR, theta, Da))
  end.

(** Returns [(sig_N2, theta_lin2)], or [None] as above. *)
Definition get_EP_Newton2 (fuel : nat) (S : matrix) (T : R)
    (theta_lin Da : vector) (i : nat) : prog (option (R * vector)) :=
  let N := INR (length S) in
  Da_th ← lift (correlations_theta S T theta_lin i);
  Ks_th ← lift (correlations4_theta S T theta_lin i);
  Z ← lift (norm_theta S T theta_lin i);
  let Da_th := vdiv Da_th Z in
  let Ks_th := mzip Rminus (mdiv Ks_th Z) (mdiv (einsum_j_k Da_th Da_th) N) in
  r ← solve_linear_theta fuel Da Da_th Ks_th i;
  match r with
  | None => Ret None
  | Some theta_lin2 =>
      theta ← lift (vbroadcast Rplus theta_lin theta_lin2);
      let Dai := remove_i Da i in
      prod ← lift (vbroadcast Rmult theta Dai);
      Z ← lift (norm_theta S T theta i);
      let sig_N2 := vsum prod - ln Z in
      Ret (Some (sig_N2, theta_lin2))
  end.

End Multipartite.

(* ================================================================== *)
(** * methods_EP_parallel.py: the maximum-entropy global fit *)
(* ================================================================== *)

Module Parallel.

(** [class Result]: the attributes [fun] and [x]. *)
Record Result : Type := { res_fun : R; res_x : vector }.

(** The keyword arguments [minimize2] gives to [torch.optim.LBFGS]. *)
Record lbfgs_args : Type := {
  lr : R;
  max_iter : nat;
  history_size : nat;
  tolerance_change : R;
  line_search_fn : option string
}.

(** The optimizer that [minimize2] constructs: the tolerance test and the
    call of [torch.optim.LBFGS].  [tol] is [None] or a number; the name of
    the line search is passed through unread. *)
Definition minimize2_lbfgs (max_iter : nat) (tol : option R)
    (line_search : option string) : lbfgs_args :=
  let tol :=
    match tol with
    | None => 1e-6
    | Some t => if Rge_dec t 1e-6 then 1e-6 else t
    end in
  {| lr := 0.1; max_iter := max_iter; history_size := 1;
     tolerance_change := tol; line_search_fn := line_search |}.

(** The dictionary that [get_torchmin_args] returns. *)
Record torchmin_args : Type := {
  arg_x0 : vector;
  arg_method : string;
  arg_tol : R;
  arg_max_iter : nat
}.

Definition get_torchmin_args (S : matrix) (tol_per_param : option R)
  : torchmin_args :=
  let tol_per_param := default 1e-4 tol_per_param in
  let N := length S in
  {| arg_x0 := replicate (N - 1) 0; arg_method := "l-bfgs";
     arg_tol := tol_per_param / INR N; arg_max_iter := 50 |}.

Section Minimize.

(** [lbfgs.step(closure)] is torch's: from the optimizer's arguments, the
    loss that the closure computes and the initial [x], the value it leaves
    in [x]; an exception of the closure comes out of [step].  The gradient
    that [loss.backward()] stores is determined by the loss; the optional
    callback only observes the iterates. *)
Variable lbfgs_step : lbfgs_args → (vector → result R) → vector → result vector.

Definition minimize2 (f : vector → result R) (x0 : vector) (max_iter : nat)
    (tol : option R) (line_search : option string) (lambda_ : R)
  : result Result :=
  let lbfgs := minimize2_lbfgs max_iter tol line_search in
  let closure := λ x : vector,
    objective ← f x;
    let reg_term := lambda_ * sqrt (norm2 x) ^ 2 in
    Ok (objective + reg_term) in
  x ← lbfgs_step lbfgs closure x0;
  cur_obj ← f x;
  Ok {| res_fun := cur_obj; res_x := x |}.

End Minimize.

(** A tensor of rank one or two, for a function that reads the rank. *)
Inductive tensor : Type :=
| Tensor1 (v : vector)
| Tensor2 (M : matrix).

(** The positions where [~torch.eye(N, dtype=torch.bool)] is true, and
    [torch.triu_indices(N, N, offset=1)], both in row-major order. *)
Definition offdiag_indices (N : nat) : list (nat * nat) :=
  j ← seq 0 N; (λ k, (j, k)) <$> filter (λ k, k ≠ j) (seq 0 N).
Definition triu_indices (N : nat) : list (nat * nat) :=
  j ← seq 0 N; (λ k, (j, k)) <$> seq (S j) (N - S j).

(** [N, _ = theta.shape] needs a tensor of rank two. *)
Definition expand_theta (theta : tensor) : result matrix :=
  match theta with
  | Tensor1 _ => Raise ValueError
  | Tensor2 M =>
      let N := length M in
      let full_theta := zeros N N in
      index_put full_theta (offdiag_indices N) (mjoin M)
  end.

(** The local variable [th] of [forward]: a zero matrix whose entries above
    the diagonal are then filled from [theta]. *)
Definition forward_th (theta : vector) (N : nat) : result matrix :=
  let th := zeros N N in
  index_put th (triu_indices N) theta.

(** [MaxEntObjective.forward] *)
Definition forward (theta : vector) (S S1 : matrix) : result R :=
  let N := length S in
  let rep := shape1 S in
  th ← forward_th theta N;
  let thS := matmul rep (mzip Rminus th (transpose th)) S in
  prod ← mbroadcast Rmult S1 thS;
  let thf_odd := sum_axis0 (shape1 prod) prod in
  thf_min ← vmin thf_odd;
  let sig :=
    (vmean thf_odd + thf_min
     - ln (vmean (exp <$> ((λ x, - x + thf_min) <$> thf_odd)))) / INR N in
  Ok sig.


End Parallel.

(* ================================================================== *)
(** * Predicates of the specification *)
(* ================================================================== *)

(** [K = K^T] for an [N] by [N] matrix. *)
Definition symmetric (N : nat) (K : matrix) : Prop :=
  ∀ j k, (j < N)%nat → (k < N)%nat → entry K j k = entry K k j.

(** [J = -J^T] for an [N] by [N] matrix. *)
Definition antisymmetric (N : nat) (J : matrix) : Prop :=
  ∀ j k, (j < N)%nat → (k < N)%nat → entry J j k = - entry J k j.

(** Every entry is [1] or [-1]. *)
Definition pm1_valued (M : matrix) : Prop :=
  Forall (Forall (λ x, x = 1 ∨ x = -1)) M.

(** Two lists of the same length that agree at every index but [i]; two
    matrices with the same rows that agree at every entry outside row [i] and
    column [i]. *)
Definition agree_except {A : Type} (i : nat) (a b : list A) : Prop :=
  length a = length b ∧ ∀ j, j ≠ i → a !! j = b !! j.
Definition magree_except (i : nat) (K K' : matrix) : Prop :=
  length K = length K' ∧
  ∀ j r r', j ≠ i → K !! j = Some r → K' !! j = Some r' → agree_except i r r'.

(** The index, in the original tensor, of entry [j] of the tensor with
    entry [i] removed. *)
Definition skip (i j : nat) : nat := if decide (j < i)%nat then j else S j.

(** [x] solves [M x = b] in the least-squares sense, for [n] unknowns; and
    it has the least norm among the vectors that do. *)
Definition residual (M : matrix) (b x : vector) : R :=
  norm2 (zip_with Rminus ((λ row, dot row x) <$> M) b).
Definition lstsq_solution (n : nat) (M : matrix) (b x : vector) : Prop :=
  length x = n ∧ ∀ y : vector, length y = n → residual M b x <= residual M b y.
Definition min_norm_solution (n : nat) (M : matrix) (b x : vector) : Prop :=
  lstsq_solution n M b x ∧ ∀ y, lstsq_solution n M b y → norm2 x <= norm2 y.

(** A back end for systems of one equation in one unknown, [m * x = y]: the
    least-squares solver returns the solution, or the least-norm minimiser
    [0] when [m = 0]; the direct solver fails on the singular [m = 0].  The
    examples below run the estimators against it. *)
Definition lstsq_1x1 (M : matrix) (b : vector) : vector :=
  match M, b with
  | [[m]], [y] => if Req_dec_T m 0 then [0] else [y / m]
  | _, _ => replicate (shape1 M) 0
  end.
Definition solve_1x1 (M : matrix) (b : vector) : option vector :=
  match M, b with
  | [[m]], [y] => if Req_dec_T m 0 then None else Some [y / m]
  | _, _ => None
  end.
Definition scalar_backend : backend := Backend lstsq_1x1 solve_1x1.

(** Unfolding of the tensor operations on explicit tensors. *)
Ltac tensor_compute :=
  unfold Multipartite2.solve_linear_theta, Multipartite2.linalg_lstsq,
    Multipartite2.K_nodiag, Multipartite2.remove_i, Multipartite2.correlations,
    Multipartite2.correlations_theta, Multipartite2.log_norm_theta,
    Multipartite2.thf_of, Multipartite2.exp_EP_spin_model,
    Multipartite.exp_EP_spin_model, scalar_backend, be_lstsq, lstsq_1x1,
    get_row, get_col, matmul_vv, matmul_vm, vbroadcast, mbroadcast, bdim, bidx,
    einsum_r_jr, einsum_j_k, logsumexp, eye, trace, mtab, vtab, mscale, mdiv,
    mzip, vscale, vdiv, vneg, vmul, dot, vsum, entry, vnth, skip, shape1;
  csimpl.

Ltac is_matrix_explicit := split; [reflexivity | repeat constructor].

(* ================================================================== *)
(** * Lemmas on the tensor operations *)
(* ================================================================== *)

Section Tensor_lemmas.

Lemma length_vtab n f : length (vtab n f) = n.
Proof. unfold vtab. by rewrite length_fmap, length_seq. Qed.

Lemma lookup_vtab n f k : (k < n)%nat → vtab n f !! k = Some (f k).
Proof.
  intros Hk. unfold vtab. rewrite list_lookup_fmap.
  by rewrite (lookup_seq_lt 0 n k Hk).
Qed.

Lemma vnth_vtab n f k : (k < n)%nat → vnth (vtab n f) k = f k.
Proof. intros Hk. unfold vnth. by rewrite lookup_vtab. Qed.

Lemma length_mtab n m f : length (mtab n m f) = n.
Proof. unfold mtab. by rewrite length_fmap, length_seq. Qed.

Lemma lookup_mtab n m f j :
  (j < n)%nat → mtab n m f !! j = Some (vtab m (f j)).
Proof.
  intros Hj. unfold mtab. rewrite list_lookup_fmap.
  by rewrite (lookup_seq_lt 0 n j Hj).
Qed.

Lemma entry_mtab n m f j k :
  (j < n)%nat → (k < m)%nat → entry (mtab n m f) j k = f j k.
Proof.
  intros Hj Hk. unfold entry. rewrite lookup_mtab by done. simpl.
  by apply vnth_vtab.
Qed.

Lemma is_matrix_mtab n m f : is_matrix n m (mtab n m f).
Proof.
  split; [apply length_mtab|]. unfold mtab.
  apply Forall_fmap, Forall_forall. intros j _. apply length_vtab.
Qed.

Lemma is_matrix_lookup n m (M : matrix) j r :
  is_matrix n m M → M !! j = Some r → length r = m.
Proof. intros [_ HM] Hj. by eapply (Forall_lookup_1 _ M j r) in HM. Qed.

Lemma is_matrix_shape1 n m (M : matrix) :
  is_matrix n m M → (0 < n)%nat → shape1 M = m.
Proof.
  intros [Hn HM] Hpos. unfold shape1. destruct M as [|r M]; simpl in *; [lia|].
  by inversion HM.
Qed.

(** Two lists of reals of the same length with the same entries are equal. *)
Lemma vector_ext (a b : vector) :
  length a = length b →
  (∀ k, (k < length a)%nat → vnth a k = vnth b k) → a = b.
Proof.
  intros Hlen Hent. apply list_eq_same_length with (length a); [done..|].
  intros k x y Hk Hx Hy. specialize (Hent k Hk). unfold vnth in Hent.
  rewrite Hx, Hy in Hent. done.
Qed.

Lemma matrix_ext n m (A B : matrix) :
  is_matrix n m A → is_matrix n m B →
  (∀ j k, (j < n)%nat → (k < m)%nat → entry A j k = entry B j k) → A = B.
Proof.
  intros HA HB Hent. destruct HA as [HnA HmA], HB as [HnB HmB].
  apply list_eq_same_length with n; [done..|].
  intros j ra rb Hj Hra Hrb.
  assert (length ra = m) by by eapply (Forall_lookup_1 _ A j ra) in HmA.
  assert (length rb = m) by by eapply (Forall_lookup_1 _ B j rb) in HmB.
  apply vector_ext; [congruence|]. intros k Hk.
  specialize (Hent j k Hj). unfold entry in Hent. rewrite Hra, Hrb in Hent.
  simpl in Hent. apply Hent. lia.
Qed.

Lemma vnth_lookup (v : vector) k x : v !! k = Some x → vnth v k = x.
Proof. intros H. unfold vnth. by rewrite H. Qed.

Lemma lookup_vnth (v : vector) k : (k < length v)%nat → v !! k = Some (vnth v k).
Proof.
  intros Hk. destruct (lookup_lt_is_Some_2 v k Hk) as [x Hx].
  by rewrite (vnth_lookup _ _ _ Hx).
Qed.

Lemma vnth_zip_with f (a b : vector) k :
  (k < length a)%nat → (k < length b)%nat →
  vnth (zip_with f a b) k = f (vnth a k) (vnth b k).
Proof.
  intros Ha Hb. apply vnth_lookup. rewrite lookup_zip_with.
  rewrite (lookup_vnth a k Ha), (lookup_vnth b k Hb). done.
Qed.

Lemma vnth_fmap (f : R → R) (a : vector) k :
  (k < length a)%nat → vnth (f <$> a) k = f (vnth a k).
Proof.
  intros Ha. apply vnth_lookup. rewrite list_lookup_fmap, (lookup_vnth a k Ha). done.
Qed.

Lemma bidx_lt n k : (k < n)%nat → bidx n k = k.
Proof. intros Hk. unfold bidx. case_decide; lia. Qed.

Lemma bdim_same n : bdim n n = Some n.
Proof. unfold bdim. by rewrite decide_True. Qed.

Lemma vbroadcast_same f (a b : vector) :
  length a = length b → vbroadcast f a b = Ok (zip_with f a b).
Proof.
  intros Hlen. unfold vbroadcast. rewrite <- Hlen, bdim_same. f_equal.
  apply vector_ext.
  - rewrite length_vtab, length_zip_with. lia.
  - rewrite length_vtab. intros k Hk.
    rewrite vnth_vtab, vnth_zip_with, bidx_lt by lia. done.
Qed.

Lemma entry_lookup (M : matrix) j r k : M !! j = Some r → entry M j k = vnth r k.
Proof. intros H. unfold entry. by rewrite H. Qed.

Lemma entry_mzip f n m (A B : matrix) j k :
  is_matrix n m A → is_matrix n m B → (j < n)%nat → (k < m)%nat →
  entry (mzip f A B) j k = f (entry A j k) (entry B j k).
Proof.
  intros HA HB Hj Hk.
  destruct (lookup_lt_is_Some_2 A j) as [ra Hra]; [destruct HA; lia|].
  destruct (lookup_lt_is_Some_2 B j) as [rb Hrb]; [destruct HB; lia|].
  pose proof (is_matrix_lookup _ _ _ _ _ HA Hra).
  pose proof (is_matrix_lookup _ _ _ _ _ HB Hrb).
  rewrite (entry_lookup A j ra), (entry_lookup B j rb) by done.
  rewrite (entry_lookup _ j (zip_with f ra rb)).
  - apply vnth_zip_with; lia.
  - unfold mzip. rewrite lookup_zip_with, Hra, Hrb. done.
Qed.

Lemma is_matrix_mzip f n m (A B : matrix) :
  is_matrix n m A → is_matrix n m B → is_matrix n m (mzip f A B).
Proof.
  intros [HnA HmA] [HnB HmB]. split.
  - unfold mzip. rewrite length_zip_with. lia.
  - apply Forall_lookup. intros j r Hr. unfold mzip in Hr.
    rewrite lookup_zip_with in Hr.
    destruct (A !! j) as [ra|] eqn:Hra; [|done].
    destruct (B !! j) as [rb|] eqn:Hrb; [|done]. simpl in Hr. simplify_eq.
    rewrite length_zip_with.
    eapply (Forall_lookup_1 _ A j ra) in HmA; [|done].
    eapply (Forall_lookup_1 _ B j rb) in HmB; [|done]. simpl in *. lia.
Qed.

Lemma mbroadcast_same f n m (A B : matrix) :
  is_matrix n m A → is_matrix n m B → mbroadcast f A B = Ok (mzip f A B).
Proof.
  intros HA HB. unfold mbroadcast.
  destruct (decide (n = 0%nat)) as [->|Hn].
  - destruct HA as [HA _], HB as [HB _].
    apply length_zero_iff_nil in HA, HB. subst. reflexivity.
  - rewrite (is_matrix_shape1 n m A), (is_matrix_shape1 n m B) by (done || lia).
    destruct HA as [HnA HmA], HB as [HnB HmB]. rewrite HnA, HnB, !bdim_same.
    f_equal. apply (matrix_ext n m).
    + apply is_matrix_mtab.
    + by apply is_matrix_mzip.
    + intros j k Hj Hk. rewrite entry_mtab by done.
      rewrite !bidx_lt by done. symmetry. by apply (entry_mzip f n m).
Qed.

End Tensor_lemmas.

Section Removal_lemmas.
Import Multipartite2.

Lemma remove_i_lookup {A} (l : list A) i j :
  remove_i l i !! j = if decide (j < i)%nat then l !! j else l !! S j.
Proof.
  unfold remove_i. destruct (decide (i < length l)%nat) as [Hi|Hi].
  - case_decide.
    + rewrite lookup_app_l by (rewrite length_take; lia).
      rewrite lookup_take. by case_decide.
    + rewrite lookup_app_r by (rewrite length_take; lia).
      rewrite length_take, lookup_drop. f_equal. lia.
  - rewrite take_ge, drop_ge by lia. rewrite app_nil_r.
    case_decide; [done|]. rewrite !lookup_ge_None_2; [done|lia..].
Qed.

Lemma length_remove_i {A} (l : list A) i :
  (i < length l)%nat → length (remove_i l i) = (length l - 1)%nat.
Proof.
  intros Hi. unfold remove_i. rewrite length_app, length_take, length_drop. lia.
Qed.

Lemma length_remove_i_ge {A} (l : list A) i :
  (length l ≤ i)%nat → remove_i l i = l.
Proof.
  intros Hi. unfold remove_i. rewrite take_ge, drop_ge by lia. apply app_nil_r.
Qed.

End Removal_lemmas.

(* ================================================================== *)
(** * Lemmas on index removal and on the linear solve *)
(* ================================================================== *)

Section Solver_lemmas.
Import Multipartite2.

Lemma remove_i_agree {A} i (a b : list A) :
  agree_except i a b → remove_i a i = remove_i b i.
Proof.
  intros [_ Hag]. apply list_eq. intros j. rewrite !remove_i_lookup.
  case_decide; apply Hag; lia.
Qed.

Lemma K_nodiag_agree i (K K' : matrix) :
  magree_except i K K' → K_nodiag K i = K_nodiag K' i.
Proof.
  intros [Hlen Hag]. apply list_eq. intros j. unfold K_nodiag.
  rewrite !list_lookup_fmap, !remove_i_lookup.
  set (j' := if decide (j < i)%nat then j else S j).
  assert (Hj' : j' ≠ i) by (unfold j'; case_decide; lia).
  assert (Heq : (if decide (j < i)%nat then K !! j else K !! S j) = K !! j')
    by (unfold j'; by case_decide).
  assert (Heq' : (if decide (j < i)%nat then K' !! j else K' !! S j) = K' !! j')
    by (unfold j'; by case_decide).
  rewrite Heq, Heq'.
  destruct (K !! j') as [r|] eqn:Hr.
  - destruct (lookup_lt_is_Some_2 K' j') as [r' Hr'].
    { rewrite <- Hlen. by eapply lookup_lt_Some. }
    rewrite Hr'. simpl. f_equal. apply remove_i_agree. by eapply Hag.
  - apply lookup_ge_None_1 in Hr. rewrite lookup_ge_None_2 by lia. done.
Qed.

Lemma solve_linear_theta_agree i (Da Da' Da_th Da_th' : vector) (Ks Ks' : matrix) :
  agree_except i Da Da' → agree_except i Da_th Da_th' → magree_except i Ks Ks' →
  solve_linear_theta Da Da_th Ks i = solve_linear_theta Da' Da_th' Ks' i.
Proof.
  intros HDa HDa_th HKs. unfold solve_linear_theta.
  by rewrite (remove_i_agree i Da Da'), (remove_i_agree i Da_th Da_th'),
    (K_nodiag_agree i Ks Ks').
Qed.

Lemma agree_except_insert (a : vector) i x : agree_except i a (<[i := x]> a).
Proof.
  split; [by rewrite length_insert|]. intros j Hj.
  by rewrite list_lookup_insert_ne.
Qed.

Lemma dot_sym_diff (a b : vector) :
  vsum (zip_with Rmult (zip_with Rminus a (vneg a)) b) = 2 * vsum (zip_with Rmult a b).
Proof.
  revert b. induction a as [|x a IH]; intros [|y b]; simpl; try lra.
  rewrite IH. lra.
Qed.


Lemma length_remove_i_gen {A} (l : list A) i :
  length (remove_i l i) = if decide (i < length l)%nat then (length l - 1)%nat else length l.
Proof.
  case_decide; [by apply length_remove_i|]. rewrite length_remove_i_ge; [done|lia].
Qed.

Lemma is_matrix_K_nodiag N (Ks : matrix) i :
  is_matrix N N Ks →
  is_matrix (if decide (i < N)%nat then (N - 1)%nat else N)
            (if decide (i < N)%nat then (N - 1)%nat else N) (K_nodiag Ks i).
Proof.
  intros [Hn Hm]. split.
  - unfold K_nodiag. rewrite length_fmap, length_remove_i_gen, Hn. done.
  - unfold K_nodiag. apply Forall_fmap, Forall_lookup. intros j r Hr. simpl.
    rewrite remove_i_lookup in Hr.
    assert (length r = N).
    { case_decide; by eapply (Forall_lookup_1 _ Ks _ r) in Hm. }
    rewrite length_remove_i_gen. by rewrite H.
Qed.

Lemma shape1_square n (M : matrix) : is_matrix n n M → shape1 M = n.
Proof.
  intros HM. destruct (decide (n = 0%nat)) as [->|Hn].
  - destruct HM as [HM _]. apply length_zero_iff_nil in HM. by subst.
  - apply (is_matrix_shape1 n n); [done|lia].
Qed.

Lemma is_matrix_mscale n m c (M : matrix) : is_matrix n m M → is_matrix n m (mscale c M).
Proof.
  intros [Hn Hm]. split.
  - unfold mscale. by rewrite length_fmap.
  - unfold mscale. apply Forall_fmap. eapply Forall_impl; [done|].
    intros r Hr. simpl. unfold vscale. by rewrite length_fmap.
Qed.

Lemma entry_mscale n m c (M : matrix) j k :
  is_matrix n m M → (j < n)%nat → (k < m)%nat →
  entry (mscale c M) j k = c * entry M j k.
Proof.
  intros HM Hj Hk.
  destruct (lookup_lt_is_Some_2 M j) as [r Hr]; [destruct HM; lia|].
  pose proof (is_matrix_lookup _ _ _ _ _ HM Hr).
  rewrite (entry_lookup M j r k Hr), (entry_lookup _ j (vscale c r)).
  - unfold vscale. apply vnth_fmap. lia.
  - unfold mscale. by rewrite list_lookup_fmap, Hr.
Qed.

Lemma solve_linear_theta_unfold N (Da Da_th : vector) (Ks : matrix) i :
  length Da = N → length Da_th = N → is_matrix N N Ks →
  let K := K_nodiag Ks i in
  let alpha := 1e-4 * trace K / INR (length K) in
  solve_linear_theta Da Da_th Ks i
  = Lstsq (mzip Rplus K (mscale alpha (eye (length K))))
          (zip_with Rminus (remove_i Da i) (remove_i Da_th i)) Ret.
Proof.
  intros HDa HDa_th HKs K alpha.
  pose proof (is_matrix_K_nodiag N Ks i HKs) as HK. fold K in HK.
  set (n := if decide (i < N)%nat then (N - 1)%nat else N) in HK.
  assert (HlenK : length K = n) by apply HK.
  assert (Hlen1 : length (remove_i Da i) = n)
    by (rewrite length_remove_i_gen, HDa; done).
  assert (Hlen2 : length (remove_i Da_th i) = n)
    by (rewrite length_remove_i_gen, HDa_th; done).
  unfold solve_linear_theta. fold K.
  rewrite vbroadcast_same by congruence. simpl.
  rewrite (shape1_square n K HK). fold alpha. rewrite HlenK.
  rewrite (mbroadcast_same Rplus n n); [|done|apply is_matrix_mscale, is_matrix_mtab].
  simpl. unfold linalg_lstsq. rewrite decide_True; [done|].
  unfold mzip. rewrite !length_zip_with. unfold mscale, eye.
  rewrite length_fmap, length_mtab. lia.
Qed.

Lemma remove_i_vtab (a : vector) i :
  (i < length a)%nat →
  remove_i a i = vtab (length a - 1) (λ j, vnth a (skip i j)).
Proof.
  intros Hi. apply vector_ext.
  - by rewrite length_remove_i, length_vtab.
  - rewrite length_remove_i by done. intros k Hk.
    rewrite vnth_vtab by done. unfold vnth at 1. rewrite remove_i_lookup.
    unfold skip, vnth. by case_decide.
Qed.

Lemma entry_K_nodiag (Ks : matrix) i j k :
  entry (K_nodiag Ks i) j k = entry Ks (skip i j) (skip i k).
Proof.
  unfold entry, K_nodiag. rewrite list_lookup_fmap, remove_i_lookup.
  assert (Heq : (if decide (j < i)%nat then Ks !! j else Ks !! S j) = Ks !! skip i j)
    by (unfold skip; by case_decide).
  rewrite Heq. destruct (Ks !! skip i j) as [r|]; simpl.
  - unfold vnth. rewrite remove_i_lookup. unfold skip.
    destruct (decide (k < i)%nat); done.
  - unfold vnth. done.
Qed.

Lemma K_nodiag_mtab N (Ks : matrix) i :
  is_matrix N N Ks → (i < N)%nat →
  K_nodiag Ks i = mtab (N - 1) (N - 1) (λ j k, entry Ks (skip i j) (skip i k)).
Proof.
  intros HKs Hi. pose proof (is_matrix_K_nodiag N Ks i HKs) as HK.
  rewrite decide_True in HK by done.
  apply (matrix_ext (N - 1) (N - 1)); [done|apply is_matrix_mtab|].
  intros j k Hj Hk. rewrite entry_mtab by done. apply entry_K_nodiag.
Qed.

Lemma trace_diag n (M : matrix) :
  length M = n → trace M = vsum (vtab n (λ j, entry M j j)).
Proof.
  intros Hn. unfold trace. f_equal. apply list_eq. intros j.
  rewrite list_lookup_imap. unfold vtab. rewrite list_lookup_fmap.
  destruct (decide (j < n)%nat) as [Hj|Hj].
  - rewrite (lookup_seq_lt 0 n j Hj). simpl.
    destruct (lookup_lt_is_Some_2 M j) as [r Hr]; [lia|].
    rewrite Hr. simpl. by rewrite (entry_lookup M j r j Hr).
  - rewrite lookup_ge_None_2 by lia. rewrite lookup_ge_None_2; [done|].
    rewrite length_seq. lia.
Qed.

Lemma vtab_ext n f g : (∀ k, (k < n)%nat → f k = g k) → vtab n f = vtab n g.
Proof.
  intros H. apply vector_ext; [by rewrite !length_vtab|].
  rewrite length_vtab. intros k Hk. rewrite !vnth_vtab by done. auto.
Qed.

Lemma mtab_ext n m f g :
  (∀ j k, (j < n)%nat → (k < m)%nat → f j k = g j k) → mtab n m f = mtab n m g.
Proof.
  intros H. apply (matrix_ext n m); [apply is_matrix_mtab..|].
  intros j k Hj Hk. rewrite !entry_mtab by done. auto.
Qed.

Lemma mzip_mtab h n m f g :
  mzip h (mtab n m f) (mtab n m g) = mtab n m (λ j k, h (f j k) (g j k)).
Proof.
  apply (matrix_ext n m); [apply is_matrix_mzip; apply is_matrix_mtab|apply is_matrix_mtab|].
  intros j k Hj Hk. rewrite (entry_mzip h n m) by (done || apply is_matrix_mtab).
  by rewrite !entry_mtab.
Qed.

Lemma mscale_mtab c n m f : mscale c (mtab n m f) = mtab n m (λ j k, c * f j k).
Proof.
  apply (matrix_ext n m); [apply is_matrix_mscale, is_matrix_mtab|apply is_matrix_mtab|].
  intros j k Hj Hk. rewrite (entry_mscale n m) by (done || apply is_matrix_mtab).
  by rewrite !entry_mtab.
Qed.

Lemma zip_with_vtab h n f g :
  zip_with h (vtab n f) (vtab n g) = vtab n (λ k, h (f k) (g k)).
Proof.
  apply vector_ext.
  - rewrite length_zip_with, !length_vtab. lia.
  - rewrite length_zip_with, !length_vtab. intros k Hk.
    rewrite vnth_zip_with by (rewrite length_vtab; lia).
    rewrite !vnth_vtab by lia. done.
Qed.

(** The system that [solve_linear_theta] hands to the least-squares solver,
    entry by entry. *)
Lemma solve_linear_theta_system N (Da Da_th : vector) (Ks : matrix) i :
  (i < N)%nat → length Da = N → length Da_th = N → is_matrix N N Ks →
  let n := (N - 1)%nat in
  let alpha :=
    1e-4 * vsum (vtab n (λ j, entry Ks (skip i j) (skip i j))) / INR n in
  let M := mtab n n (λ j k,
      entry Ks (skip i j) (skip i k) + (if decide (j = k) then alpha else 0)) in
  let rhs := vtab n (λ j, vnth Da (skip i j) - vnth Da_th (skip i j)) in
  solve_linear_theta Da Da_th Ks i = Lstsq M rhs Ret.
Proof.
  intros Hi HDa HDa_th HKs n alpha M rhs.
  rewrite (solve_linear_theta_unfold N) by done. simpl.
  rewrite (K_nodiag_mtab N) by done. fold n.
  rewrite length_mtab.
  rewrite (trace_diag n) by apply length_mtab.
  rewrite (vtab_ext n _ (λ j, entry Ks (skip i j) (skip i j)))
    by (intros k Hk; by rewrite entry_mtab).
  fold alpha. f_equal.
  - unfold eye. rewrite mscale_mtab, mzip_mtab. apply mtab_ext. intros j k Hj Hk.
    f_equal. case_decide; lra.
  - rewrite !remove_i_vtab by lia. rewrite HDa, HDa_th. fold n.
    apply zip_with_vtab.
Qed.

Lemma trace_K_nodiag N (Ks : matrix) i :
  is_matrix N N Ks → (i < N)%nat →
  trace (K_nodiag Ks i)
  = vsum (vtab (N - 1) (λ j, entry Ks (skip i j) (skip i j))).
Proof.
  intros HKs Hi. rewrite (K_nodiag_mtab N) by done.
  rewrite (trace_diag (N - 1)) by apply length_mtab. f_equal.
  apply vtab_ext. intros k Hk. by rewrite entry_mtab.
Qed.

Lemma is_matrix_eye n : is_matrix n n (eye n).
Proof. apply is_matrix_mtab. Qed.

Lemma solve_retry_failing (B : backend) n (K : matrix) (rhs : vector) :
  is_matrix n n K → length rhs = n →
  (∀ M b, be_solve B M b = None) →
  ∀ fuel epsilon,
    run B (Multipartite.solve_retry fuel K rhs (eye n) epsilon) = Ok None
    ∧ length (calls B (Multipartite.solve_retry fuel K rhs (eye n) epsilon)) = fuel.
Proof.
  intros HK Hrhs Hfail. induction fuel as [|fuel IH]; intros epsilon; [done|].
  simpl.
  rewrite (mbroadcast_same Rplus n n); [|done|apply is_matrix_mscale, is_matrix_eye].
  simpl. unfold Multipartite.linalg_solve.
  assert (Hsq : is_matrix n n (mzip Rplus K (mscale epsilon (eye n)))).
  { apply is_matrix_mzip; [done|apply is_matrix_mscale, is_matrix_eye]. }
  rewrite decide_True.
  2:{ rewrite (shape1_square n) by done. destruct Hsq as [-> _]. done. }
  simpl. rewrite Hfail. destruct (IH (epsilon * 10)) as [-> ->]. done.
Qed.

(** With a direct solver that keeps failing, the first version makes as many
    attempts as it is given fuel for and has not returned after any of them. *)
Lemma first_version_retries_without_bound
    (B : backend) (N : nat) (Da Da_th : vector) (Ks_th : matrix) (i : nat) :
  length Da = N → length Da_th = N → is_matrix N N Ks_th →
  (∀ M b, be_solve B M b = None) →
  ∀ fuel,
    run B (Multipartite.solve_linear_theta fuel Da Da_th Ks_th i) = Ok None
    ∧ length (calls B (Multipartite.solve_linear_theta fuel Da Da_th Ks_th i)) = fuel.
Proof.
  intros HDa HDa_th HKs Hfail fuel.
  pose proof (is_matrix_K_nodiag N Ks_th i HKs) as HK.
  set (n := if decide (i < N)%nat then (N - 1)%nat else N) in HK.
  unfold Multipartite.solve_linear_theta, Multipartite.remove_i, Multipartite.K_nodiag.
  rewrite vbroadcast_same.
  2:{ rewrite !length_remove_i_gen, HDa, HDa_th. done. }
  simpl. rewrite (shape1_square n) by done.
  apply solve_retry_failing; [done| |done].
  rewrite length_zip_with, !length_remove_i_gen, HDa, HDa_th. fold n. lia.
Qed.

(** The first version's correlations are the revised ones with the
    self-entries overwritten by zero. *)
Lemma correlations_first_version (S : matrix) (i : nat) :
  Multipartite.correlations S (INR (shape1 S)) i
  = (Da ← Multipartite2.correlations S i; Multipartite.setitem Da i 0).
Proof.
  unfold Multipartite.correlations, Multipartite2.correlations.
  by destruct (get_row S i).
Qed.

Lemma correlations4_first_version (S : matrix) (i : nat) :
  Multipartite.correlations4 S (INR (shape1 S)) i
  = (K ← Multipartite.zero_row (Multipartite2.correlations4 S i) i;
     Multipartite.zero_col K i).
Proof. reflexivity. Qed.

Lemma setitem_agree (v v' : vector) i x :
  Multipartite.setitem v i x = Ok v' → agree_except i v v'.
Proof.
  unfold Multipartite.setitem. case_decide; [|done]. intros [= <-].
  apply agree_except_insert.
Qed.

Lemma zeroing_agree (K K1 K2 : matrix) i :
  Multipartite.zero_row K i = Ok K1 → Multipartite.zero_col K1 i = Ok K2 →
  magree_except i K K2.
Proof.
  unfold Multipartite.zero_row, Multipartite.zero_col.
  case_decide; [|done]. intros [= <-]. case_decide; [|done]. intros [= <-].
  split; [by rewrite length_fmap, length_alter|].
  intros j r r' Hj Hr Hr'.
  rewrite list_lookup_fmap, list_lookup_alter_ne, Hr in Hr' by done.
  simpl in Hr'. simplify_eq. apply agree_except_insert.
Qed.

Lemma agree_except_fmap {A C} (f : A → C) i (a b : list A) :
  agree_except i a b → agree_except i (f <$> a) (f <$> b).
Proof.
  intros [Hlen Hag]. split; [by rewrite !length_fmap|].
  intros j Hj. by rewrite !list_lookup_fmap, Hag.
Qed.

Lemma agree_except_zip_with {A C D} (f : A → C → D) i (a a' : list A) (c c' : list C) :
  agree_except i a a' → agree_except i c c' →
  agree_except i (zip_with f a c) (zip_with f a' c').
Proof.
  intros [Hla Ha] [Hlc Hc]. split; [rewrite !length_zip_with; lia|].
  intros j Hj. by rewrite !lookup_zip_with, Ha, Hc.
Qed.

Lemma magree_except_mzip f i (A A' C C' : matrix) :
  magree_except i A A' → magree_except i C C' →
  magree_except i (mzip f A C) (mzip f A' C').
Proof.
  intros [HlA HA] [HlC HC]. split; [unfold mzip; rewrite !length_zip_with; lia|].
  intros j r r' Hj Hr Hr'. unfold mzip in Hr, Hr'. rewrite lookup_zip_with in Hr, Hr'.
  destruct (A !! j) as [ra|] eqn:Hra; [|done].
  destruct (C !! j) as [rc|] eqn:Hrc; [|done].
  destruct (A' !! j) as [ra'|] eqn:Hra'; [|done].
  destruct (C' !! j) as [rc'|] eqn:Hrc'; [|done].
  simpl in Hr, Hr'. simplify_eq. apply agree_except_zip_with; eauto.
Qed.

Lemma magree_except_einsum i (a a' b b' : vector) :
  agree_except i a a' → agree_except i b b' →
  magree_except i (einsum_j_k a b) (einsum_j_k a' b').
Proof.
  intros [Hla Ha] Hb. split; [unfold einsum_j_k; by rewrite !length_fmap|].
  intros j r r' Hj Hr Hr'. unfold einsum_j_k in Hr, Hr'.
  rewrite list_lookup_fmap in Hr, Hr'. rewrite <- Ha in Hr' by done.
  destruct (a !! j) as [x|]; [|done]. simpl in Hr, Hr'. simplify_eq.
  by apply agree_except_fmap.
Qed.

(** The parameter vector of the one-step estimate is the same whether the
    covariance and the right-hand side are formed from the first version's
    zeroed statistics or from the revised version's unzeroed ones. *)
Lemma zeroed_statistics_same_theta (B : backend) (S : matrix) (i : nat)
    (Da1 Da2 : vector) (K1 : matrix) :
  Multipartite.correlations S (INR (shape1 S)) i = Ok Da1 →
  Multipartite.correlations4 S (INR (shape1 S)) i = Ok K1 →
  Multipartite2.correlations S i = Ok Da2 →
  run B (Multipartite2.solve_linear_theta Da1 (vneg Da1)
           (mzip Rminus K1 (einsum_j_k Da1 Da1)) i)
  = run B (Multipartite2.solve_linear_theta Da2 (vneg Da2)
             (mzip Rminus (Multipartite2.correlations4 S i)
                (einsum_j_k Da2 Da2)) i).
Proof.
  intros HDa1 HK1 HDa2. rewrite correlations_first_version, HDa2 in HDa1.
  simpl in HDa1. apply setitem_agree in HDa1.
  rewrite correlations4_first_version in HK1.
  destruct (Multipartite.zero_row _ i) as [K'|] eqn:Hrow; [|done]. simpl in HK1.
  pose proof (zeroing_agree _ _ _ _ Hrow HK1) as HK.
  f_equal. symmetry. apply solve_linear_theta_agree; [done|by apply agree_except_fmap|].
  apply magree_except_mzip; [done|]. by apply magree_except_einsum.
Qed.

End Solver_lemmas.

(* ================================================================== *)
(** * Lemmas on least-squares solutions *)
(* ================================================================== *)

Section Least_squares_lemmas.

Lemma norm2_nonneg (v : vector) : 0 <= norm2 v.
Proof.
  unfold norm2, vsum. induction v as [|x v IH]; csimpl; [lra|].
  pose proof (Rle_0_sqr x) as Hx. unfold Rsqr in Hx. lra.
Qed.

Lemma lstsq_1x1_solution m y : lstsq_solution 1 [[m]] [y] (lstsq_1x1 [[m]] [y]).
Proof.
  unfold lstsq_1x1. destruct (Req_dec_T m 0) as [->|Hm].
  - split; [done|]. intros [|t [|? ?]] Hy; simpl in Hy; try lia.
    unfold residual, norm2, dot, vmul, vsum. simpl. lra.
  - split; [done|]. intros yv _. 
    assert (Hz : residual [[m]] [y] [y / m] = 0).
    { unfold residual, norm2, dot, vmul, vsum. simpl. field_simplify; [lra|done]. }
    rewrite Hz. apply norm2_nonneg.
Qed.

Lemma norm2_zero_inv (v : vector) : norm2 v <= 0 → v = replicate (length v) 0.
Proof.
  unfold norm2, vsum. induction v as [|x v IH]; csimpl; [done|]. intros H.
  pose proof (norm2_nonneg v) as Hv. unfold norm2, vsum in Hv.
  pose proof (Rle_0_sqr x) as Hx. unfold Rsqr in Hx.
  assert (Hx0 : x * x = 0) by lra.
  apply Rmult_integral in Hx0. f_equal; [lra|]. apply IH. lra.
Qed.

Lemma norm2_replicate_0 n : norm2 (replicate n 0) = 0.
Proof. unfold norm2, vsum. induction n as [|n IH]; csimpl; [done|]. rewrite IH. lra. Qed.

Lemma dot_replicate_0_r (a : vector) n : dot a (replicate n 0) = 0.
Proof.
  unfold dot, vmul, vsum. revert n. induction a as [|x a IH]; intros [|n]; csimpl; try done.
  rewrite IH. lra.
Qed.

Lemma dot_replicate_0_l (a : vector) n : dot (replicate n 0) a = 0.
Proof.
  unfold dot, vmul, vsum. revert n. induction a as [|x a IH]; intros [|n]; csimpl; try done.
  rewrite IH. lra.
Qed.

Lemma residual_zero (M : matrix) n : residual M (replicate (length M) 0) (replicate n 0) = 0.
Proof.
  unfold residual. induction M as [|r M IH]; csimpl; [done|].
  unfold norm2, vsum in *. csimpl. rewrite IH, dot_replicate_0_r. lra.
Qed.

(** For a zero right-hand side the least-norm least-squares solution is the
    zero vector. *)
Lemma min_norm_solution_zero n (M : matrix) x :
  min_norm_solution n M (replicate (length M) 0) x → x = replicate n 0.
Proof.
  intros [[Hlen Hres] Hmin].
  assert (Hz : lstsq_solution n M (replicate (length M) 0) (replicate n 0)).
  { split; [by rewrite length_replicate|]. intros y _. rewrite residual_zero.
    apply norm2_nonneg. }
  specialize (Hmin _ Hz). rewrite norm2_replicate_0 in Hmin.
  rewrite <- Hlen. by apply norm2_zero_inv.
Qed.

End Least_squares_lemmas.

(* ================================================================== *)
(** * Lemmas on running programs and on the estimators *)
(* ================================================================== *)

Section Estimator_lemmas.
Import Multipartite2.

Lemma run_bind {A C} (B : backend) (p : prog A) (f : A → prog C) :
  run B (p ≫= f) = run B p ≫= (λ a, run B (f a)).
Proof. induction p as [a|e|M b k IH|M b k IH]; simpl; auto. Qed.

Lemma run_lift {A} (B : backend) (r : result A) : run B (lift r) = r.
Proof. by destruct r. Qed.

Lemma get_row_is_matrix n m (S : matrix) i :
  is_matrix n m S → (i < n)%nat →
  ∃ Si, get_row S i = Ok Si ∧ S !! i = Some Si ∧ length Si = m.
Proof.
  intros HS Hi. destruct (lookup_lt_is_Some_2 S i) as [Si HSi]; [destruct HS; lia|].
  exists Si. unfold get_row. rewrite HSi. repeat split.
  by eapply is_matrix_lookup.
Qed.

Lemma correlations_ok n m (S : matrix) i :
  is_matrix n m S → (i < n)%nat →
  ∃ Da, correlations S i = Ok Da ∧ length Da = n.
Proof.
  intros HS Hi. destruct (get_row_is_matrix n m S i HS Hi) as (Si & Hrow & _ & _).
  unfold correlations. rewrite Hrow. simpl. eexists; split; [done|].
  unfold vdiv, einsum_r_jr. rewrite !length_fmap. apply HS.
Qed.

Lemma is_matrix_fmap2 n m (A : matrix) (f : vector → vector) k :
  is_matrix n m A → (∀ r, length r = m → length (f r) = k) → is_matrix n k (f <$> A).
Proof.
  intros [Hn Hm] Hf. split; [by rewrite length_fmap|].
  apply Forall_fmap. eapply Forall_impl; [done|]. intros r Hr. simpl. auto.
Qed.

Lemma is_matrix_matmul_T n k (A C : matrix) :
  length A = n → length C = k → is_matrix n k (matmul_T A C).
Proof.
  intros HA HC. split.
  - unfold matmul_T. by rewrite length_fmap.
  - unfold matmul_T. apply Forall_fmap, Forall_forall. intros r _. simpl.
    by rewrite length_fmap.
Qed.

Lemma is_matrix_mdiv n m c (M : matrix) : is_matrix n m M → is_matrix n m (mdiv M c).
Proof.
  intros HM. unfold mdiv. apply (is_matrix_fmap2 n m); [done|].
  intros r Hr. unfold vdiv. by rewrite length_fmap.
Qed.

Lemma is_matrix_correlations4 n m (S : matrix) i :
  is_matrix n m S → is_matrix n n (correlations4 S i).
Proof.
  intros [Hn Hm]. unfold correlations4. apply is_matrix_mdiv.
  apply (is_matrix_matmul_T n n); [|done]. unfold mscale. by rewrite length_fmap.
Qed.

Lemma is_matrix_einsum_j_k (a b : vector) :
  is_matrix (length a) (length b) (einsum_j_k a b).
Proof.
  split.
  - unfold einsum_j_k. by rewrite length_fmap.
  - unfold einsum_j_k. apply Forall_fmap, Forall_forall. intros x _. simpl.
    by rewrite length_fmap.
Qed.

Lemma thf_of_ok n m (S : matrix) (theta : vector) i :
  is_matrix n m S → (i < n)%nat → length theta = (n - 1)%nat →
  ∃ Si, get_row S i = Ok Si ∧ length Si = m ∧
    thf_of S theta i
    = Ok (vmul (vscale (-2) Si)
               (vtab m (λ r, dot theta ((λ row, vnth row r) <$> remove_i S i)))).
Proof.
  intros HS Hi Hth. destruct (get_row_is_matrix n m S i HS Hi) as (Si & Hrow & _ & HlenSi).
  exists Si. split; [done|]. split; [done|].
  unfold thf_of. rewrite Hrow. simpl. unfold matmul_vm.
  rewrite decide_True.
  2:{ rewrite length_remove_i; destruct HS; lia. }
  simpl. rewrite (is_matrix_shape1 n m) by (done || lia). done.
Qed.

Lemma length_thf_of n m (S : matrix) (theta thf : vector) i :
  is_matrix n m S → (i < n)%nat → length theta = (n - 1)%nat →
  thf_of S theta i = Ok thf → length thf = m.
Proof.
  intros HS Hi Hth Hthf. destruct (thf_of_ok n m S theta i HS Hi Hth) as (Si & _ & HSi & Heq).
  rewrite Heq in Hthf. simplify_eq. unfold vmul, vscale.
  rewrite length_zip_with, length_fmap, length_vtab. lia.
Qed.

Lemma log_norm_theta_ok n m (S : matrix) (theta : vector) i :
  is_matrix n m S → (i < n)%nat → length theta = (n - 1)%nat →
  ∃ lnZ, log_norm_theta S theta i = Ok lnZ.
Proof.
  intros HS Hi Hth. destruct (thf_of_ok n m S theta i HS Hi Hth) as (Si & _ & _ & Heq).
  unfold log_norm_theta. rewrite Heq. simpl. eauto.
Qed.

Lemma vtab_const n c : vtab n (λ _, c) = replicate n c.
Proof.
  apply vector_ext; [by rewrite length_vtab, length_replicate|].
  rewrite length_vtab. intros k Hk. rewrite vnth_vtab by done.
  symmetry. apply vnth_lookup. by apply lookup_replicate_2.
Qed.

Lemma vmul_replicate_0_r (a : vector) n :
  length a = n → vmul a (replicate n 0) = replicate n 0.
Proof.
  intros <-. unfold vmul. induction a as [|x a IH]; csimpl; [done|].
  rewrite IH. f_equal. lra.
Qed.

Lemma vsum_replicate n c : vsum (replicate n c) = INR n * c.
Proof.
  unfold vsum. induction n as [|n IH]; [simpl; lra|].
  rewrite S_INR. csimpl. rewrite IH. lra.
Qed.

Lemma thf_of_zero n m (S : matrix) i :
  is_matrix n m S → (i < n)%nat →
  thf_of S (replicate (n - 1) 0) i = Ok (replicate m 0).
Proof.
  intros HS Hi.
  destruct (thf_of_ok n m S (replicate (n - 1) 0) i HS Hi) as (Si & _ & HlenSi & ->);
    [by rewrite length_replicate|].
  f_equal. rewrite (vtab_ext m _ (λ _, 0)).
  2:{ intros k _. apply dot_replicate_0_l. }
  rewrite vtab_const. apply vmul_replicate_0_r. unfold vscale. by rewrite length_fmap.
Qed.

Lemma correlations_theta_ok n m (S : matrix) (theta : vector) i :
  is_matrix n m S → (i < n)%nat → length theta = (n - 1)%nat →
  ∃ Da_th, correlations_theta S theta i = Ok Da_th ∧ length Da_th = n.
Proof.
  intros HS Hi Hth. destruct (thf_of_ok n m S theta i HS Hi Hth) as (Si & Hrow & _ & Heq).
  unfold correlations_theta. rewrite Heq. simpl. rewrite Hrow. simpl.
  eexists; split; [done|]. unfold vdiv, einsum_r_jr. rewrite !length_fmap. apply HS.
Qed.

Lemma correlations4_theta_ok n m (S : matrix) (theta : vector) i :
  is_matrix n m S → (i < n)%nat → length theta = (n - 1)%nat →
  ∃ Ks_th, correlations4_theta S theta i = Ok Ks_th ∧ is_matrix n n Ks_th.
Proof.
  intros HS Hi Hth. destruct (thf_of_ok n m S theta i HS Hi Hth) as (Si & Hrow & _ & Heq).
  unfold correlations4_theta. rewrite Heq. simpl.
  eexists; split; [done|]. apply is_matrix_mdiv.
  apply (is_matrix_matmul_T n n); [rewrite length_fmap|]; apply HS.
Qed.

Lemma zip_with_minus_self (a : vector) : zip_with Rminus a a = replicate (length a) 0.
Proof. induction a as [|x a IH]; csimpl; [done|]. rewrite IH. f_equal. lra. Qed.

Lemma zip_with_plus_zero (a : vector) :
  zip_with Rplus a (replicate (length a) 0) = a.
Proof. induction a as [|x a IH]; csimpl; [done|]. rewrite IH. f_equal. lra. Qed.

Lemma vmin_ok (v : vector) : (1 ≤ length v)%nat → ∃ x, vmin v = Ok x.
Proof. destruct v; simpl; [lia|eauto]. Qed.

End Estimator_lemmas.

(* ================================================================== *)
(** * Lemmas on the maximum-entropy objective *)
(* ================================================================== *)

Section MaxEnt_lemmas.
Import Parallel.

Lemma length_triu_row_sum a n :
  (2 * length (j ← seq a n; (λ k, (j, k)) <$> seq (S j) ((a + n) - S j)) = n * (n - 1))%nat.
Proof.
  revert a. induction n as [|n IH]; intros a; [done|].
  simpl seq. rewrite bind_cons, length_app, length_fmap, length_seq.
  replace (a + S n)%nat with (S a + n)%nat by lia.
  specialize (IH (S a)). nia.
Qed.

Lemma length_triu_indices N :
  length (triu_indices N) = (N * (N - 1) / 2)%nat.
Proof.
  pose proof (length_triu_row_sum 0 N) as H. cbn [Nat.add] in H.
  unfold triu_indices. apply Nat.div_unique_exact; lia.
Qed.

Lemma is_matrix_zeros n m : is_matrix n m (zeros n m).
Proof.
  split; [apply length_replicate|]. apply Forall_replicate, length_replicate.
Qed.

Lemma entry_zeros n m j k : entry (zeros n m) j k = 0.
Proof.
  unfold entry, zeros, vnth. destruct (replicate n (replicate m 0) !! j) as [r|] eqn:Hr; [|done].
  apply lookup_replicate_1 in Hr as [-> _]. simpl.
  destruct (replicate m 0 !! k) as [x|] eqn:Hx; [|done].
  by apply lookup_replicate_1 in Hx as [-> _].
Qed.

Lemma zeros_mtab n m : zeros n m = mtab n m (λ _ _, 0).
Proof.
  apply (matrix_ext n m); [apply is_matrix_zeros|apply is_matrix_mtab|].
  intros j k Hj Hk. by rewrite entry_zeros, entry_mtab.
Qed.

Lemma set_entry_zeros n m p : set_entry (zeros n m) p 0 = zeros n m.
Proof.
  unfold set_entry, zeros. apply list_eq. intros j.
  rewrite list_lookup_alter. case_decide; [|done]. subst j.
  destruct (decide (p.1 < n)%nat) as [Hp|Hp].
  - rewrite lookup_replicate_2 by done. simpl. by rewrite insert_replicate.
  - by rewrite (proj1 (lookup_replicate_None _ _ _)) by lia.
Qed.

Lemma index_put_zeros n m idx k :
  k = length idx → index_put (zeros n m) idx (replicate k 0) = Ok (zeros n m).
Proof.
  intros ->. unfold index_put. rewrite length_replicate, decide_True by done. f_equal.
  induction idx as [|p idx IH]; [done|]. csimpl. by rewrite set_entry_zeros.
Qed.

Lemma transpose_zeros n : transpose (zeros n n) = zeros n n.
Proof.
  unfold transpose. rewrite (shape1_square n) by apply is_matrix_zeros.
  destruct (is_matrix_zeros n n) as [-> _]. rewrite (zeros_mtab n n).
  apply mtab_ext. intros j k Hj Hk. by rewrite entry_mtab.
Qed.

Lemma mzip_zeros_r f n m (A : matrix) :
  is_matrix n m A → (∀ x, f x 0 = 0) → mzip f A (zeros n m) = zeros n m.
Proof.
  intros HA Hf. apply (matrix_ext n m);
    [apply is_matrix_mzip; [done|apply is_matrix_zeros]|apply is_matrix_zeros|].
  intros j k Hj Hk. rewrite (entry_mzip f n m) by (done || apply is_matrix_zeros).
  rewrite zeros_mtab, entry_mtab by done. apply Hf.
Qed.

Lemma mzip_zeros f n m : f 0 0 = 0 → mzip f (zeros n m) (zeros n m) = zeros n m.
Proof.
  intros Hf. apply (matrix_ext n m);
    [apply is_matrix_mzip; apply is_matrix_zeros|apply is_matrix_zeros|].
  intros j k Hj Hk. rewrite (entry_mzip f n m) by (done || apply is_matrix_zeros).
  by rewrite entry_zeros.
Qed.

Lemma matmul_zeros n T (S : matrix) :
  matmul T (zeros n (length S)) S = zeros n T.
Proof.
  unfold matmul, zeros. rewrite fmap_replicate. f_equal.
  rewrite (vtab_ext T _ (λ _, 0)); [apply vtab_const|].
  intros k _. apply dot_replicate_0_l.
Qed.

Lemma shape1_zeros n m : (0 < n)%nat → shape1 (zeros n m) = m.
Proof. intros Hn. apply (is_matrix_shape1 n m); [apply is_matrix_zeros|done]. Qed.

Lemma sum_axis0_zeros n T : sum_axis0 T (zeros n T) = replicate T 0.
Proof.
  unfold sum_axis0. rewrite (vtab_ext T _ (λ _, 0)); [apply vtab_const|].
  intros k Hk. unfold zeros. rewrite fmap_replicate.
  rewrite (vnth_lookup (replicate T 0) k 0) by by apply lookup_replicate_2.
  rewrite vsum_replicate. lra.
Qed.

Lemma vmin_replicate n c : (1 ≤ n)%nat → vmin (replicate n c) = Ok c.
Proof.
  destruct n as [|n]; [lia|]. intros _. simpl. f_equal.
  induction n as [|n IH]; [done|]. simpl. rewrite IH. apply Rmin_left. lra.
Qed.

Lemma vmean_replicate n c : (1 ≤ n)%nat → vmean (replicate n c) = c.
Proof.
  intros Hn. unfold vmean. rewrite vsum_replicate, length_replicate.
  assert (INR n ≠ 0) by (apply not_0_INR; lia). by field.
Qed.

(** The objective at [theta = 0] is [0], whatever the companion matrix. *)
Lemma forward_zero_theta (N T : nat) (S S1 : matrix) :
  (1 ≤ N)%nat → (1 ≤ T)%nat → is_matrix N T S → is_matrix N T S1 →
  forward (replicate (N * (N - 1) / 2) 0) S S1 = Ok 0.
Proof.
  intros HN HT HS HS1. unfold forward, forward_th.
  destruct HS as [HlenS HrowsS].
  rewrite HlenS, index_put_zeros by (by rewrite length_triu_indices). simpl.
  rewrite transpose_zeros, mzip_zeros by lra.
  rewrite <- HlenS at 2. rewrite matmul_zeros.
  rewrite (is_matrix_shape1 N T) by (done || lia).
  rewrite (mbroadcast_same Rmult N T) by (done || apply is_matrix_zeros). simpl.
  rewrite mzip_zeros_r by (done || (intros; lra)).
  rewrite shape1_zeros, sum_axis0_zeros by lia.
  rewrite vmin_replicate by done. simpl. f_equal.
  rewrite !fmap_replicate, !vmean_replicate by done.
  replace (- 0 + 0) with 0 by lra. rewrite exp_0, ln_1. 
  unfold Rdiv. lra.
Qed.

Lemma is_matrix_set_entry n m (M : matrix) p v :
  is_matrix n m M → is_matrix n m (set_entry M p v).
Proof.
  intros [Hn Hm]. split.
  - unfold set_entry. by rewrite length_alter.
  - apply Forall_lookup. intros j r Hr. unfold set_entry in Hr.
    rewrite list_lookup_alter in Hr. case_decide.
    + destruct (M !! p.1) as [r0|] eqn:Hr0; simpl in Hr; [|done]. simplify_eq.
      rewrite length_insert. by eapply (Forall_lookup_1 _ M _ r0) in Hm.
    + by eapply (Forall_lookup_1 _ M j r) in Hm.
Qed.

Lemma entry_set_entry n m (M : matrix) p v j k :
  is_matrix n m M → (p.1 < n)%nat → (p.2 < m)%nat →
  entry (set_entry M p v) j k = if decide (p = (j, k)) then v else entry M j k.
Proof.
  intros HM Hp1 Hp2. destruct p as [pj pk]. simpl in *.
  unfold entry, set_entry. simpl. rewrite list_lookup_alter.
  destruct (lookup_lt_is_Some_2 M pj) as [r Hr]; [destruct HM; lia|].
  pose proof (is_matrix_lookup _ _ _ _ _ HM Hr) as Hlenr.
  destruct (decide (pj = j)) as [->|Hj].
  - rewrite Hr. simpl. unfold vnth. rewrite list_lookup_insert.
    destruct (decide (pk = k)) as [->|Hk].
    + rewrite (decide_True (P := k = k ∧ _)) by (split; [done|lia]).
      by rewrite decide_True.
    + rewrite (decide_False (P := pk = k ∧ _)) by (intros [? ?]; done).
      rewrite decide_False; [done|]. intros ?; simplify_eq.
  - rewrite decide_False; [done|]. intros ?; simplify_eq.
Qed.

(** Writing values at distinct positions, one after the other: a position
    of the list reads the value written there, any other entry is kept. *)
Lemma foldl_set_entry n m (l : list ((nat * nat) * R)) (M : matrix) :
  is_matrix n m M →
  Forall (λ pv, (pv.1.1 < n)%nat ∧ (pv.1.2 < m)%nat) l →
  NoDup (l.*1) →
  let M' := foldl (λ M' pv, set_entry M' pv.1 pv.2) M l in
  is_matrix n m M'
  ∧ (∀ j k v, ((j, k), v) ∈ l → entry M' j k = v)
  ∧ (∀ j k, (j, k) ∉ l.*1 → entry M' j k = entry M j k).
Proof.
  intros HM. induction l as [|[q v] l IH] using rev_ind; intros Hrange Hnd.
  - simpl. split; [done|]. split; [|done]. intros j k v Hin. by apply elem_of_nil in Hin.
  - rewrite foldl_app. simpl.
    apply Forall_app in Hrange as [Hrange Hq]. apply Forall_inv in Hq. simpl in Hq.
    rewrite fmap_app in Hnd. apply NoDup_app in Hnd as (Hnd & Hq' & _).
    destruct (IH Hrange Hnd) as (HM' & Hin' & Hout').
    split; [by apply is_matrix_set_entry|]. split.
    + intros j k w Hin. rewrite (entry_set_entry n m) by (done || apply Hq).
      apply elem_of_app in Hin as [Hin|Hin].
      * rewrite decide_False; [by apply Hin'|]. intros ->.
        apply (Hq' (j, k)); [|simpl; by apply list_elem_of_singleton].
        apply list_elem_of_fmap. by exists ((j, k), w).
      * apply list_elem_of_singleton in Hin. simplify_eq. by rewrite decide_True.
    + intros j k Hnotin. rewrite (entry_set_entry n m) by (done || apply Hq).
      rewrite fmap_app in Hnotin. rewrite decide_False.
      * apply Hout'. intros ?. apply Hnotin, elem_of_app. by left.
      * intros ->. apply Hnotin, elem_of_app. right. simpl. by apply list_elem_of_singleton.
Qed.

Lemma elem_of_triu_indices N j k :
  (j, k) ∈ triu_indices N ↔ (j < k)%nat ∧ (k < N)%nat.
Proof.
  unfold triu_indices. rewrite list_elem_of_bind. split.
  - intros (j' & Hin & Hj'). apply list_elem_of_fmap in Hin as (k' & Heq & Hk').
    simplify_eq. apply elem_of_seq in Hk'. apply elem_of_seq in Hj'. lia.
  - intros [Hjk Hk]. exists j. split.
    + apply list_elem_of_fmap. exists k. split; [done|]. apply elem_of_seq. lia.
    + apply elem_of_seq. lia.
Qed.

Lemma NoDup_triu_indices N : NoDup (triu_indices N).
Proof.
  unfold triu_indices. apply NoDup_bind.
  - intros j1 j2 [j k] _ _ H1 H2.
    apply list_elem_of_fmap in H1 as (k1 & Heq1 & _).
    apply list_elem_of_fmap in H2 as (k2 & Heq2 & _). by simplify_eq.
  - intros j _. apply NoDup_fmap; [|apply NoDup_seq]. by intros k1 k2 [= ->].
  - apply NoDup_seq.
Qed.

Lemma entry_transpose n (M : matrix) j k :
  is_matrix n n M → (j < n)%nat → (k < n)%nat → entry (transpose M) j k = entry M k j.
Proof.
  intros HM Hj Hk. unfold transpose. rewrite (shape1_square n) by done.
  destruct HM as [-> _]. by rewrite entry_mtab.
Qed.

Lemma is_matrix_transpose n (M : matrix) : is_matrix n n M → is_matrix n n (transpose M).
Proof.
  intros HM. unfold transpose. rewrite (shape1_square n) by done.
  destruct HM as [-> _]. apply is_matrix_mtab.
Qed.

(** [th - th.T] is antisymmetric for every square [th]. *)
Lemma antisymmetric_minus_transpose n (th : matrix) :
  is_matrix n n th → antisymmetric n (mzip Rminus th (transpose th)).
Proof.
  intros Hth j k Hj Hk.
  rewrite !(entry_mzip Rminus n n) by (done || by apply is_matrix_transpose).
  rewrite !(entry_transpose n) by done. lra.
Qed.

(** The matrix [th] of [forward]: entry [(j, k)] above the diagonal holds the
    value of [theta] at the position of [(j, k)] in the row-major list of
    such pairs, every other entry is zero, and [th - th.T] is antisymmetric. *)
Lemma forward_th_upper_triangular (N : nat) (theta : vector) :
  length theta = (N * (N - 1) / 2)%nat →
  ∃ th,
    forward_th theta N = Ok th
    ∧ is_matrix N N th
    ∧ (∀ p j k, triu_indices N !! p = Some (j, k) → entry th j k = vnth theta p)
    ∧ (∀ j k, ¬ ((j < k)%nat ∧ (k < N)%nat) → entry th j k = 0)
    ∧ antisymmetric N (mzip Rminus th (transpose th)).
Proof.
  intros Hlen. rewrite <- length_triu_indices in Hlen.
  unfold forward_th, index_put. rewrite decide_True by done.
  eexists. split; [done|].
  assert (Hfst : (zip (triu_indices N) theta).*1 = triu_indices N)
    by (apply fst_zip; lia).
  destruct (foldl_set_entry N N (zip (triu_indices N) theta) (zeros N N))
    as (Hshape & Hin & Hout).
  - apply is_matrix_zeros.
  - apply Forall_forall. intros [[j k] v] Hjk. simpl.
    assert ((j, k) ∈ triu_indices N) as Hmem.
    { rewrite <- Hfst. apply list_elem_of_fmap. by exists ((j, k), v). }
    apply elem_of_triu_indices in Hmem. lia.
  - rewrite Hfst. apply NoDup_triu_indices.
  - split; [done|]. split; [|split].
    + intros p j k Hp. apply Hin. apply list_elem_of_lookup. exists p.
      rewrite lookup_zip_with, Hp. simpl.
      rewrite (lookup_vnth theta p); [done|].
      rewrite Hlen. by eapply lookup_lt_Some.
    + intros j k Hjk. rewrite Hout; [apply entry_zeros|].
      rewrite Hfst. by rewrite elem_of_triu_indices.
    + by apply antisymmetric_minus_transpose.
Qed.

Lemma bind_join_fmap {A C} (f : A → list C) (l : list A) :
  l ≫= f = mjoin (f <$> l).
Proof. induction l as [|a l IH]; csimpl; [done|]. by rewrite IH. Qed.

Lemma filter_Forall_id {A} (P : A → Prop) `{∀ x, Decision (P x)} (l : list A) :
  Forall P l → filter P l = l.
Proof.
  induction 1 as [|x l Hx _ IH]; [done|]. by rewrite filter_cons_True, IH.
Qed.

(** The off-diagonal columns of row [j], in increasing order. *)
Lemma filter_ne_seq (N j : nat) :
  (j < N)%nat → filter (λ k, k ≠ j) (seq 0 N) = skip j <$> seq 0 (N - 1).
Proof.
  intros Hj.
  replace N with (j + S (N - S j))%nat at 1 by lia.
  replace (N - 1)%nat with (j + (N - S j))%nat by lia.
  rewrite !seq_app, fmap_app, filter_app. simpl seq.
  rewrite filter_cons_False by (intros H; lia).
  rewrite !filter_Forall_id.
  - f_equal.
    + symmetry. rewrite <- (list_fmap_id (seq 0 j)) at 2.
      apply Forall_fmap_ext, Forall_seq. intros k Hk. unfold skip.
      rewrite decide_True; [done|lia].
    + rewrite <- fmap_S_seq. apply Forall_fmap_ext, Forall_seq. intros k Hk.
      unfold skip. rewrite decide_False; [done|lia].
  - apply Forall_seq. intros k Hk. lia.
  - apply Forall_seq. intros k Hk. lia.
Qed.

Lemma offdiag_indices_join (N : nat) :
  offdiag_indices N
  = mjoin ((λ j, (λ p, (j, skip j p)) <$> seq 0 (N - 1)) <$> seq 0 N).
Proof.
  unfold offdiag_indices. rewrite bind_join_fmap. f_equal.
  apply Forall_fmap_ext, Forall_seq. intros j Hj.
  rewrite filter_ne_seq by lia. by rewrite <- list_fmap_compose.
Qed.

Lemma lookup_offdiag_indices (N j p : nat) :
  (j < N)%nat → (p < N - 1)%nat →
  offdiag_indices N !! (j * (N - 1) + p)%nat = Some (j, skip j p).
Proof.
  intros Hj Hp. rewrite offdiag_indices_join.
  apply (join_lookup_Some_same_length' (N - 1)); [|done|].
  - apply Forall_fmap, Forall_seq. intros j' _. simpl.
    by rewrite length_fmap, length_seq.
  - eexists. rewrite list_lookup_fmap, (lookup_seq_lt 0 N j Hj). simpl.
    split; [done|]. by rewrite list_lookup_fmap, (lookup_seq_lt 0 (N - 1) p Hp).
Qed.

Lemma elem_of_offdiag_indices (N j k : nat) :
  (j, k) ∈ offdiag_indices N ↔ (j < N)%nat ∧ (k < N)%nat ∧ j ≠ k.
Proof.
  unfold offdiag_indices. rewrite list_elem_of_bind. split.
  - intros (j' & Hin & Hj'). apply list_elem_of_fmap in Hin as (k' & Heq & Hk').
    simplify_eq. apply list_elem_of_filter in Hk' as [Hne Hk'].
    apply elem_of_seq in Hk'. apply elem_of_seq in Hj'. lia.
  - intros (Hj & Hk & Hne). exists j. split.
    + apply list_elem_of_fmap. exists k. split; [done|].
      apply list_elem_of_filter. split; [lia|]. apply elem_of_seq. lia.
    + apply elem_of_seq. lia.
Qed.

Lemma NoDup_offdiag_indices N : NoDup (offdiag_indices N).
Proof.
  unfold offdiag_indices. apply NoDup_bind.
  - intros j1 j2 [j k] _ _ H1 H2.
    apply list_elem_of_fmap in H1 as (k1 & Heq1 & _).
    apply list_elem_of_fmap in H2 as (k2 & Heq2 & _). by simplify_eq.
  - intros j _. apply NoDup_fmap; [by intros k1 k2 [= ->]|].
    apply NoDup_filter, NoDup_seq.
  - apply NoDup_seq.
Qed.

Lemma length_offdiag_indices N : length (offdiag_indices N) = (N * (N - 1))%nat.
Proof.
  rewrite offdiag_indices_join, length_join, <- list_fmap_compose.
  rewrite (sum_list_fmap_same (N - 1)).
  - by rewrite length_seq.
  - apply Forall_seq. intros j _. simpl. by rewrite length_fmap, length_seq.
Qed.

Lemma length_join_matrix n m (M : matrix) :
  is_matrix n m M → length (mjoin M) = (n * m)%nat.
Proof.
  intros [Hn Hm]. rewrite length_join, (sum_list_fmap_same m) by done. by rewrite Hn.
Qed.

(** X25.  What [expand_theta] does on the N by (N-1) tensor it accepts: row [j]
    of the input fills the off-diagonal entries of row [j] of the result from
    left to right, and the diagonal stays zero. *)
Lemma expand_theta_fills_rows (N : nat) (M : matrix) :
  is_matrix N (N - 1) M →
  ∃ full_theta,
    expand_theta (Tensor2 M) = Ok full_theta
    ∧ is_matrix N N full_theta
    ∧ (∀ j p, (j < N)%nat → (p < N - 1)%nat →
              entry full_theta j (skip j p) = entry M j p)
    ∧ (∀ j, entry full_theta j j = 0).
Proof.
  intros HM. pose proof HM as [HlenM HrowsM].
  unfold expand_theta, index_put. rewrite HlenM.
  rewrite decide_True
    by (by rewrite (length_join_matrix N (N - 1)), length_offdiag_indices).
  eexists. split; [done|].
  assert (Hlen : length (offdiag_indices N) = length (mjoin M))
    by (by rewrite (length_join_matrix N (N - 1)), length_offdiag_indices).
  assert (Hfst : (zip (offdiag_indices N) (mjoin M)).*1 = offdiag_indices N)
    by (apply fst_zip; lia).
  destruct (foldl_set_entry N N (zip (offdiag_indices N) (mjoin M)) (zeros N N))
    as (Hshape & Hin & Hout).
  - apply is_matrix_zeros.
  - apply Forall_forall. intros [[j k] v] Hjk. simpl.
    assert ((j, k) ∈ offdiag_indices N) as Hmem.
    { rewrite <- Hfst. apply list_elem_of_fmap. by exists ((j, k), v). }
    apply elem_of_offdiag_indices in Hmem. lia.
  - rewrite Hfst. apply NoDup_offdiag_indices.
  - split; [done|]. split.
    + intros j p Hj Hp. apply Hin. apply list_elem_of_lookup.
      exists (j * (N - 1) + p)%nat.
      rewrite lookup_zip_with, lookup_offdiag_indices by done. simpl.
      destruct (lookup_lt_is_Some_2 M j) as [r Hr]; [lia|].
      pose proof (is_matrix_lookup _ _ _ _ _ HM Hr) as Hlenr.
      assert (Hjoin : mjoin M !! (j * (N - 1) + p)%nat = Some (vnth r p)).
      { apply (join_lookup_Some_same_length' (N - 1)); [done..|].
        exists r. split; [done|]. apply lookup_vnth. lia. }
      rewrite Hjoin. simpl. by rewrite (entry_lookup M j r p Hr).
    + intros j. rewrite Hout; [apply entry_zeros|].
      rewrite Hfst, elem_of_offdiag_indices. lia.
Qed.

End MaxEnt_lemmas.

(* ================================================================== *)
(** * The properties stated by the specification *)
(* ================================================================== *)

(** ** C1 *)

(** C1 (the code departs from the specification).  Specified: the full
    matrix built from a compressed vector of length N(N-1)/2, by
    [expand_theta] or by the objective's own builder, is antisymmetric.  The builder of [forward] does
    that ([forward_th_upper_triangular] above).  [expand_theta] does not: on a
    1-D vector, the compressed form its docstring names, the unpacking of the
    shape raises; on the N by (N-1) tensor it accepts, the values fill every
    off-diagonal entry in row-major order ([expand_theta_fills_rows] above),
    and the result is not antisymmetric. *)
Theorem expand_theta_not_antisymmetric :
  Parallel.expand_theta (Parallel.Tensor1 [1]) = Raise ValueError
  ∧ Parallel.expand_theta (Parallel.Tensor2 [[1]; [2]]) = Ok [[0; 1]; [2; 0]]
  ∧ ¬ antisymmetric 2 [[0; 1]; [2; 0]].
Proof.
  split; [reflexivity|]. split; [reflexivity|].
  intros H. specialize (H 0%nat 1%nat). unfold entry, vnth in H. simpl in H.
  assert (1 = - 2) by (apply H; lia). lra.
Qed.

(** ** C2 *)

(** C2.  For vectors [Da], [Da_th] of length N, an N by N matrix [Ks_th] and
    an index [i < N], [solve_linear_theta] removes entry [i] of the vectors
    and row and column [i] of the matrix, and returns what the least-squares
    solver returns for the system [(Ks_th_nodiag + alpha I) dtheta = rhs],
    with [rhs = Da_i - Da_th_i] and
    [alpha = 1e-4 * trace(Ks_th_nodiag) / (N - 1)]: when the solver's answer
    to that system is a least-squares solution, the result is that solution,
    a vector of length N - 1. *)
Theorem solve_linear_theta_least_squares
    (B : backend) (N : nat) (Da Da_th : vector) (Ks_th : matrix) (i : nat) :
  (i < N)%nat → length Da = N → length Da_th = N → is_matrix N N Ks_th →
  let n := (N - 1)%nat in
  let alpha := 1e-4 * trace (Multipartite2.K_nodiag Ks_th i) / INR n in
  let M := mtab n n (λ j k,
      entry Ks_th (skip i j) (skip i k) + (if decide (j = k) then alpha else 0)) in
  let rhs := vtab n (λ j, vnth Da (skip i j) - vnth Da_th (skip i j)) in
  lstsq_solution n M rhs (be_lstsq B M rhs) →
  Multipartite2.remove_i Da i = vtab n (λ j, vnth Da (skip i j))
  ∧ Multipartite2.remove_i Da_th i = vtab n (λ j, vnth Da_th (skip i j))
  ∧ Multipartite2.K_nodiag Ks_th i
    = mtab n n (λ j k, entry Ks_th (skip i j) (skip i k))
  ∧ ∃ dtheta,
      run B (Multipartite2.solve_linear_theta Da Da_th Ks_th i) = Ok dtheta
      ∧ dtheta = be_lstsq B M rhs
      ∧ length dtheta = n
      ∧ lstsq_solution n M rhs dtheta.
Proof.
  intros Hi HDa HDa_th HKs n alpha M rhs Hsol.
  split; [|split; [|split]].
  - rewrite remove_i_vtab by lia. by rewrite HDa.
  - rewrite remove_i_vtab by lia. by rewrite HDa_th.
  - by apply K_nodiag_mtab.
  - exists (be_lstsq B M rhs).
    rewrite (solve_linear_theta_system N) by done. simpl.
    assert (Hal : 1e-4 * vsum (vtab (N - 1) (λ j, entry Ks_th (skip i j) (skip i j)))
                  / INR (N - 1) = alpha).
    { unfold alpha, n. by rewrite (trace_K_nodiag N). }
    rewrite Hal. fold n M rhs. repeat split; try done; apply Hsol.
Qed.

Lemma solve_linear_theta_least_squares_witness :
  (0 < 2)%nat ∧ length [0; 3] = 2%nat ∧ is_matrix 2 2 [[0; 0]; [0; 2]]
  ∧ run scalar_backend
      (Multipartite2.solve_linear_theta [0; 3] [0; 1] [[0; 0]; [0; 2]] 0)
    = Ok [(3 - 1) / (2 + 1e-4 * (2 + 0) / 1)].
Proof.
  assert (Hm : is_matrix 2 2 [[0; 0]; [0; 2]]) by is_matrix_explicit.
  split; [lia|]. split; [reflexivity|]. split; [exact Hm|].
  destruct (solve_linear_theta_least_squares scalar_backend 2
              [0; 3] [0; 1] [[0; 0]; [0; 2]] 0)
    as (_ & _ & _ & dtheta & Hrun & Heq & _);
    [lia|reflexivity|reflexivity|exact Hm|apply lstsq_1x1_solution|].
  rewrite Hrun, Heq. f_equal. tensor_compute.
  destruct (Req_dec_T _ _) as [H0|H0]; [exfalso; lra|reflexivity].
Defined.

(** ** C3 *)

(** C3.  For an N by T sample matrix [S] and an index [i < N], with a solver
    that returns one unknown per column of the system, [get_EP_Newton]
    returns [(sig_N1, sig_MTUR, theta, Da)] where [Da] is [correlations S i],
    [sig_MTUR] is the dot product of [theta] with [Da] without entry [i], and
    [sig_N1] is that dot product minus [log_norm_theta S theta i]; so
    [sig_N1 = sig_MTUR - log_norm_theta S theta i]. *)
Theorem get_EP_Newton_estimates (B : backend) (N T : nat) (S : matrix) (i : nat) :
  (i < N)%nat → is_matrix N T S →
  (∀ M b, is_matrix (N - 1) (N - 1) M → length b = (N - 1)%nat →
          length (be_lstsq B M b) = (N - 1)%nat) →
  ∃ sig_N1 sig_MTUR theta Da lnZ,
    run B (Multipartite2.get_EP_Newton S i) = Ok (sig_N1, sig_MTUR, theta, Da)
    ∧ Multipartite2.correlations S i = Ok Da
    ∧ Multipartite2.log_norm_theta S theta i = Ok lnZ
    ∧ sig_MTUR = dot theta (Multipartite2.remove_i Da i)
    ∧ sig_N1 = dot theta (Multipartite2.remove_i Da i) - lnZ
    ∧ sig_N1 = sig_MTUR - lnZ.
Proof.
  intros Hi HS Hlen.
  destruct (correlations_ok N T S i HS Hi) as (Da & HDa & HlenDa).
  set (Ks := mzip Rminus (Multipartite2.correlations4 S i) (einsum_j_k Da Da)).
  assert (HKs : is_matrix N N Ks).
  { apply is_matrix_mzip; [by eapply is_matrix_correlations4|].
    pose proof (is_matrix_einsum_j_k Da Da) as H. by rewrite HlenDa in H. }
  assert (HlenN : length (vneg Da) = N) by (unfold vneg; by rewrite length_fmap).
  pose proof (solve_linear_theta_unfold N Da (vneg Da) Ks i HlenDa HlenN HKs)
    as Hsolve.
  simpl in Hsolve.
  pose proof (is_matrix_K_nodiag N Ks i HKs) as HK.
  rewrite decide_True in HK by done.
  set (K := Multipartite2.K_nodiag Ks i) in *.
  set (M := mzip Rplus K
              (mscale (1e-4 * trace K / INR (length K)) (eye (length K)))) in *.
  set (rhs := zip_with Rminus (Multipartite2.remove_i Da i)
                (Multipartite2.remove_i (vneg Da) i)) in *.
  set (theta := be_lstsq B M rhs).
  assert (HlenK : length K = (N - 1)%nat) by apply HK.
  assert (Hlenth : length theta = (N - 1)%nat).
  { apply Hlen.
    - unfold M. rewrite HlenK.
      apply is_matrix_mzip; [done|apply is_matrix_mscale, is_matrix_eye].
    - unfold rhs. rewrite length_zip_with, !length_remove_i by lia. lia. }
  destruct (log_norm_theta_ok N T S theta i HS Hi Hlenth) as (lnZ & HlnZ).
  assert (HlenDai : length (Multipartite2.remove_i Da i) = (N - 1)%nat)
    by (rewrite length_remove_i; lia).
  exists (dot theta (Multipartite2.remove_i Da i) - lnZ),
    (dot theta (Multipartite2.remove_i Da i)), theta, Da, lnZ.
  split; [|repeat split; try done; lra].
  unfold Multipartite2.get_EP_Newton. rewrite run_bind, run_lift, HDa. simpl.
  fold Ks. rewrite run_bind, Hsolve. simpl. fold theta.
  rewrite run_bind, run_lift, HlnZ. simpl.
  unfold matmul_vv. rewrite decide_True by lia. simpl.
  rewrite vbroadcast_same by lia. simpl. done.
Qed.

Lemma length_lstsq_1x1 (M : matrix) (b : vector) :
  is_matrix 1 1 M → length b = 1%nat → length (lstsq_1x1 M b) = 1%nat.
Proof.
  intros [HM Hrows] Hb.
  destruct M as [|[|m [|? ?]] [|? ?]]; simpl in HM; try lia;
    try (apply Forall_inv in Hrows; simpl in Hrows; lia).
  destruct b as [|y [|? ?]]; simpl in Hb; try lia.
  unfold lstsq_1x1. by destruct (Req_dec_T m 0).
Qed.

Lemma get_EP_Newton_estimates_witness :
  (0 < 2)%nat ∧ is_matrix 2 3 [[1; 1; -1]; [1; -1; -1]]
  ∧ ∃ sig_N1 sig_MTUR theta Da lnZ,
      run scalar_backend
        (Multipartite2.get_EP_Newton [[1; 1; -1]; [1; -1; -1]] 0)
      = Ok (sig_N1, sig_MTUR, theta, Da)
      ∧ Multipartite2.correlations [[1; 1; -1]; [1; -1; -1]] 0 = Ok Da
      ∧ Multipartite2.log_norm_theta [[1; 1; -1]; [1; -1; -1]] theta 0 = Ok lnZ
      ∧ sig_MTUR = dot theta (Multipartite2.remove_i Da 0)
      ∧ sig_N1 = dot theta (Multipartite2.remove_i Da 0) - lnZ
      ∧ sig_N1 = sig_MTUR - lnZ.
Proof.
  assert (Hm : is_matrix 2 3 [[1; 1; -1]; [1; -1; -1]]) by is_matrix_explicit.
  split; [lia|]. split; [exact Hm|].
  apply (get_EP_Newton_estimates scalar_backend 2 3); [lia|exact Hm|].
  intros M b. apply length_lstsq_1x1.
Defined.

(** ** C4 *)

(** C4 (as specified, the property fails).  With N = 2, T = 2 and S1 = -S
    the objective at theta = 0 is 0, not log(T)/N = log(2)/2. *)
Lemma forward_zero_theta_is_not_log_T_over_N :
  Parallel.forward [0] [[1; -1]; [1; 1]] [[-1; 1]; [-1; -1]] = Ok 0
  ∧ Ok 0 ≠ Ok (ln (INR 2) / INR 2).
Proof.
  split.
  - apply (forward_zero_theta 2 2); [lia|lia|is_matrix_explicit..].
  - intros [= H]. pose proof ln_lt_2 as Hln.
    replace (1 + 1) with 2 in H by lra. lra.
Qed.

(** C4 (amended).  For N >= 2, T >= 1 and a +/-1-valued N by T sample matrix
    [S] with companion [S1 = -S], the unregularized objective at theta = 0,
    the zero vector of length N(N-1)/2, is 0: the mean inside the logarithm
    already divides by T, so no log(T)/N term is left. *)
Theorem forward_zero_field_null (N T : nat) (S : matrix) :
  (2 ≤ N)%nat → (1 ≤ T)%nat → is_matrix N T S → pm1_valued S →
  Parallel.forward (replicate (N * (N - 1) / 2) 0) S (mneg S) = Ok 0.
Proof.
  intros HN HT HS _. apply (forward_zero_theta N T); [lia|done|done|].
  unfold mneg. apply (is_matrix_fmap2 N T); [done|].
  intros r Hr. unfold vneg. by rewrite length_fmap.
Qed.

Lemma forward_zero_field_null_witness :
  (2 ≤ 2)%nat ∧ (1 ≤ 2)%nat ∧ is_matrix 2 2 [[1; -1]; [1; 1]]
  ∧ pm1_valued [[1; -1]; [1; 1]]
  ∧ Parallel.forward [0] [[1; -1]; [1; 1]] (mneg [[1; -1]; [1; 1]]) = Ok 0.
Proof.
  assert (Hm : is_matrix 2 2 [[1; -1]; [1; 1]]) by is_matrix_explicit.
  assert (Hpm : pm1_valued [[1; -1]; [1; 1]]).
  { repeat constructor; (by left) || (by right). }
  split; [lia|]. split; [lia|]. split; [exact Hm|]. split; [exact Hpm|].
  apply (forward_zero_field_null 2 2); [lia|lia|exact Hm|exact Hpm].
Defined.

(** ** C5 *)

(** What [minimize2] passes as [tolerance_change]: never more than 1e-6;
    [None] and every tolerance from 1e-6 upwards become 1e-6; a tolerance
    below 1e-6 is passed unchanged. *)
Lemma minimize2_tolerance_at_most (mi : nat) (tol : option R) ls :
  Parallel.tolerance_change (Parallel.minimize2_lbfgs mi tol ls) <= 1e-6.
Proof.
  unfold Parallel.minimize2_lbfgs. simpl. destruct tol as [t|]; [|lra].
  destruct (Rge_dec t 1e-6); lra.
Qed.

Lemma minimize2_tolerance_clamped (mi : nat) (tol : option R) ls :
  (∀ t, tol = Some t → 1e-6 <= t) →
  Parallel.tolerance_change (Parallel.minimize2_lbfgs mi tol ls) = 1e-6.
Proof.
  intros Htol. unfold Parallel.minimize2_lbfgs. simpl. destruct tol as [t|]; [|done].
  specialize (Htol t eq_refl). destruct (Rge_dec t 1e-6); lra.
Qed.

Lemma minimize2_tolerance_kept (mi : nat) (t : R) ls :
  t < 1e-6 → Parallel.tolerance_change (Parallel.minimize2_lbfgs mi (Some t) ls) = t.
Proof.
  intros Ht. unfold Parallel.minimize2_lbfgs. simpl. destruct (Rge_dec t 1e-6); lra.
Qed.

(** C5 (the code departs from the specification).  Specified: the tolerance
    passed to the optimizer is never below the floor 1e-6.  The comment in the code
    announces a minimum tolerance, but the test [tol >= 1e-6] only replaces
    the tolerances that are already at or above 1e-6: a requested 1e-9 is
    passed to the optimizer as it is. *)
Theorem minimize2_passes_tolerance_below_floor :
  Parallel.tolerance_change
    (Parallel.minimize2_lbfgs 20 (Some 1e-9) (Some "strong_wolfe"%string)) = 1e-9
  ∧ 1e-9 < 1e-6.
Proof. split; [apply minimize2_tolerance_kept|]; lra. Qed.

(** With the default [tol_per_param] the entry point [get_torch] asks for
    the tolerance 1e-4 / N, which is below 1e-6 as soon as there are more than
    a hundred spins, and reaches the optimizer unchanged. *)
Lemma get_torch_tolerance_many_spins (S : matrix) ls :
  (100 < length S)%nat →
  let args := Parallel.get_torchmin_args S None in
  Parallel.tolerance_change
    (Parallel.minimize2_lbfgs (Parallel.arg_max_iter args)
       (Some (Parallel.arg_tol args)) ls)
  = 1e-4 / INR (length S)
  ∧ 1e-4 / INR (length S) < 1e-6.
Proof.
  intros HN args. unfold args.
  assert (HN' : 100 < INR (length S)).
  { replace 100 with (INR 100) by (simpl; lra). by apply lt_INR. }
  assert (Hlt : 1e-4 / INR (length S) < 1e-6).
  { apply Rmult_lt_reg_r with (INR (length S)); [lra|].
    unfold Rdiv. rewrite Rmult_assoc, Rinv_l by lra. lra. }
  split; [|done].
  change (1e-4 / INR (length S))
    with (Parallel.arg_tol (Parallel.get_torchmin_args S None)) in Hlt |- *.
  by apply minimize2_tolerance_kept.
Qed.

(** An optimizer that stops at once and reports the tolerance it was given:
    run through [minimize2], it reports the requested 1e-9. *)
Example minimize2_optimizer_receives_requested_tolerance :
  Parallel.minimize2 (λ args _ _, Ok [Parallel.tolerance_change args])
    (λ x, Ok (vnth x 0)) [0] 20 (Some 1e-9) (Some "strong_wolfe"%string) 0.01
  = Ok {| Parallel.res_fun := 1e-9; Parallel.res_x := [1e-9] |}.
Proof.
  unfold Parallel.minimize2. rewrite minimize2_tolerance_kept by lra. reflexivity.
Qed.


(** ** C6 *)

(** C6.  For vectors of length N and an N by N curvature matrix, singular
    or not, the revised [solve_linear_theta] makes exactly one call of the
    back end, a least-squares solve of the regularized system, and returns
    its answer: it does not raise and it does not retry.  (The first
    version's retry loop is [Multipartite.solve_retry]; see
    [first_version_retries_without_bound].) *)
Theorem solve_linear_theta_single_solve
    (B : backend) (N : nat) (Da Da_th : vector) (Ks_th : matrix) (i : nat) :
  length Da = N → length Da_th = N → is_matrix N N Ks_th →
  let K := Multipartite2.K_nodiag Ks_th i in
  let alpha := 1e-4 * trace K / INR (length K) in
  let M := mzip Rplus K (mscale alpha (eye (length K))) in
  let rhs := zip_with Rminus (Multipartite2.remove_i Da i)
               (Multipartite2.remove_i Da_th i) in
  calls B (Multipartite2.solve_linear_theta Da Da_th Ks_th i) = [CallLstsq M rhs]
  ∧ run B (Multipartite2.solve_linear_theta Da Da_th Ks_th i)
    = Ok (be_lstsq B M rhs).
Proof.
  intros HDa HDa_th HKs K alpha M rhs.
  rewrite (solve_linear_theta_unfold N) by done. simpl. done.
Qed.

Lemma solve_linear_theta_single_solve_witness :
  length [0; 1] = 2%nat ∧ length [0; 0] = 2%nat
  ∧ is_matrix 2 2 [[0; 0]; [0; 0]]
  ∧ calls scalar_backend
      (Multipartite2.solve_linear_theta [0; 1] [0; 0] [[0; 0]; [0; 0]] 0)
    = [CallLstsq [[0 + 1e-4 * (0 + 0) / 1 * 1]] [1 - 0]]
  ∧ run scalar_backend
      (Multipartite2.solve_linear_theta [0; 1] [0; 0] [[0; 0]; [0; 0]] 0)
    = Ok [0].
Proof.
  assert (Hm : is_matrix 2 2 [[0; 0]; [0; 0]]) by is_matrix_explicit.
  split; [reflexivity|]. split; [reflexivity|]. split; [exact Hm|].
  destruct (solve_linear_theta_single_solve scalar_backend 2
              [0; 1] [0; 0] [[0; 0]; [0; 0]] 0) as [Hcalls Hrun];
    [reflexivity|reflexivity|exact Hm|].
  split.
  - rewrite Hcalls. reflexivity.
  - rewrite Hrun. f_equal. tensor_compute.
    destruct (Req_dec_T _ _) as [H0|H0]; [reflexivity|exfalso; lra].
Defined.

(** ** C7 *)

Lemma lstsq_1x1_zero_rhs (M : matrix) :
  is_matrix 1 1 M → min_norm_solution 1 M [0] (lstsq_1x1 M [0]).
Proof.
  intros [HM Hrows].
  destruct M as [|[|m [|? ?]] [|? ?]]; simpl in HM; try lia;
    try (apply Forall_inv in Hrows; simpl in Hrows; lia).
  assert (Hx : lstsq_1x1 [[m]] [0] = [0]).
  { unfold lstsq_1x1. destruct (Req_dec_T m 0); [done|]. f_equal.
    unfold Rdiv. lra. }
  split; [apply lstsq_1x1_solution|].
  intros y _. rewrite Hx. change [0] with (replicate 1 0).
  rewrite norm2_replicate_0. apply norm2_nonneg.
Qed.

(** C7.  Let N >= 2, [S] an N by T sample matrix, [i < N], [theta_lin] of
    length N - 1 and [Da] of length N, and let the solver return the
    least-norm least-squares solution.  If the reweighted correlations under
    [theta_lin], divided by the normalization constant, equal [Da] at every
    entry but [i] (so the right-hand side of the linear solve is zero), then
    [get_EP_Newton2] returns [delta_theta = 0] and
    [sig_N2 = theta_lin . Da_{-i} - log_norm_theta S theta_lin i]. *)
Theorem get_EP_Newton2_fixed_point
    (B : backend) (N T : nat) (S : matrix) (theta_lin Da : vector) (i : nat) :
  (2 ≤ N)%nat → (i < N)%nat → is_matrix N T S →
  length theta_lin = (N - 1)%nat → length Da = N →
  (∀ M, is_matrix (N - 1) (N - 1) M →
        min_norm_solution (N - 1) M (replicate (N - 1) 0)
          (be_lstsq B M (replicate (N - 1) 0))) →
  (∀ Da_th lnZ,
      Multipartite2.correlations_theta S theta_lin i = Ok Da_th →
      Multipartite2.log_norm_theta S theta_lin i = Ok lnZ →
      Multipartite2.remove_i (vdiv Da_th (exp lnZ)) i
      = Multipartite2.remove_i Da i) →
  ∃ lnZ,
    Multipartite2.log_norm_theta S theta_lin i = Ok lnZ
    ∧ run B (Multipartite2.get_EP_Newton2 S theta_lin Da i)
      = Ok (dot theta_lin (Multipartite2.remove_i Da i) - lnZ,
            replicate (N - 1) 0).
Proof.
  intros HN Hi HS Hth HDa Hsolver Hfix.
  destruct (correlations_theta_ok N T S theta_lin i HS Hi Hth)
    as (Da_th & HDa_th & HlenDa_th).
  destruct (correlations4_theta_ok N T S theta_lin i HS Hi Hth)
    as (Ks_th & HKs_th & HKs).
  destruct (log_norm_theta_ok N T S theta_lin i HS Hi Hth) as (lnZ & HlnZ).
  specialize (Hfix Da_th lnZ HDa_th HlnZ).
  exists lnZ. split; [done|].
  set (Da_th' := vdiv Da_th (exp lnZ)) in *.
  set (Ks_th' := mzip Rminus (mdiv Ks_th (exp lnZ)) (einsum_j_k Da_th' Da_th')).
  assert (HlenDa_th' : length Da_th' = N)
    by (unfold Da_th', vdiv; by rewrite length_fmap).
  assert (HKs' : is_matrix N N Ks_th').
  { apply is_matrix_mzip; [by apply is_matrix_mdiv|].
    pose proof (is_matrix_einsum_j_k Da_th' Da_th') as H.
    by rewrite HlenDa_th' in H. }
  pose proof (solve_linear_theta_unfold N Da Da_th' Ks_th' i HDa HlenDa_th' HKs')
    as Hsolve.
  simpl in Hsolve.
  pose proof (is_matrix_K_nodiag N Ks_th' i HKs') as HK.
  rewrite decide_True in HK by done.
  set (K := Multipartite2.K_nodiag Ks_th' i) in *.
  set (M := mzip Rplus K
              (mscale (1e-4 * trace K / INR (length K)) (eye (length K)))) in *.
  assert (HlenK : length K = (N - 1)%nat) by apply HK.
  assert (HM : is_matrix (N - 1) (N - 1) M).
  { unfold M. rewrite HlenK.
    apply is_matrix_mzip; [done|apply is_matrix_mscale, is_matrix_eye]. }
  assert (HlenDai : length (Multipartite2.remove_i Da i) = (N - 1)%nat)
    by (rewrite length_remove_i; lia).
  rewrite Hfix, zip_with_minus_self, HlenDai in Hsolve.
  assert (Hzero : be_lstsq B M (replicate (N - 1) 0) = replicate (N - 1) 0).
  { apply (min_norm_solution_zero (N - 1) M).
    destruct HM as [HMlen ?]. rewrite HMlen. by apply Hsolver. }
  unfold Multipartite2.get_EP_Newton2.
  rewrite run_bind, run_lift, HDa_th. simpl.
  rewrite run_bind, run_lift, HKs_th. simpl.
  rewrite run_bind, run_lift, HlnZ. simpl.
  fold Da_th' Ks_th'. rewrite run_bind, Hsolve. simpl. rewrite Hzero.
  rewrite vbroadcast_same by (rewrite length_replicate; lia). simpl.
  rewrite <- Hth, zip_with_plus_zero.
  destruct (vmin_ok theta_lin) as [t_min Hmin]; [lia|]. rewrite Hmin. simpl.
  rewrite vbroadcast_same by lia. simpl. rewrite HlnZ. simpl. done.
Qed.

Lemma get_EP_Newton2_fixed_point_witness :
  (2 ≤ 2)%nat ∧ (0 < 2)%nat ∧ is_matrix 2 1 [[1]; [1]]
  ∧ ∃ lnZ,
      Multipartite2.log_norm_theta [[1]; [1]] [0] 0 = Ok lnZ
      ∧ run scalar_backend (Multipartite2.get_EP_Newton2 [[1]; [1]] [0] [5; 2] 0)
        = Ok (dot [0] (Multipartite2.remove_i [5; 2] 0) - lnZ, [0]).
Proof.
  assert (Hm : is_matrix 2 1 [[1]; [1]]) by is_matrix_explicit.
  split; [lia|]. split; [lia|]. split; [exact Hm|].
  apply (get_EP_Newton2_fixed_point scalar_backend 2 1 [[1]; [1]] [0] [5; 2] 0);
    [lia|lia|exact Hm|reflexivity|reflexivity|exact lstsq_1x1_zero_rhs|].
  intros Da_th lnZ HDa_th HlnZ.
  unfold Multipartite2.correlations_theta in HDa_th.
  unfold Multipartite2.log_norm_theta in HlnZ.
  assert (Hthf : Multipartite2.thf_of [[1]; [1]] [0] 0 = Ok [0])
    by (apply (thf_of_zero 2 1 [[1]; [1]] 0 Hm); lia).
  rewrite Hthf in HDa_th, HlnZ. simpl in HDa_th, HlnZ. injection HDa_th as <-. injection HlnZ as <-.
  tensor_compute. f_equal. rewrite Ropp_0, exp_0.
  replace (1 + 0) with 1 by lra. rewrite ln_1.
  replace (0 - 0) with 0 by lra. rewrite exp_0. lra.
Defined.

(** With a single spin the parameter vector is empty and [theta.min()]
    raises: [get_EP_Newton2] needs N >= 2. *)
Lemma get_EP_Newton2_single_spin_raises (B : backend) (s c : R) :
  be_lstsq B [] [] = [] →
  run B (Multipartite2.get_EP_Newton2 [[s]] [] [c] 0) = Raise RuntimeError.
Proof.
  intros HB. unfold Multipartite2.get_EP_Newton2.
  rewrite run_bind, run_lift. simpl.
  rewrite run_bind, run_lift. simpl. unfold mtab, vtab. csimpl.
  rewrite HB. reflexivity.
Qed.

(** ** C8 *)

(** C8.  The result of [solve_linear_theta Da Da_th Ks_th i] does not depend
    on the self-entries: two inputs that agree everywhere except at
    [Da[i]], [Da_th[i]] and row and column [i] of [Ks_th] give the same
    [dtheta], whatever the solver.  The first version's zeroing of these
    entries is such a pair ([zeroed_statistics_same_theta] above). *)
Theorem solve_linear_theta_ignores_self_entries
    (B : backend) (i : nat) (Da Da' Da_th Da_th' : vector) (Ks Ks' : matrix) :
  agree_except i Da Da' → agree_except i Da_th Da_th' →
  magree_except i Ks Ks' →
  run B (Multipartite2.solve_linear_theta Da Da_th Ks i)
  = run B (Multipartite2.solve_linear_theta Da' Da_th' Ks' i).
Proof.
  intros HDa HDa_th HKs.
  by rewrite (solve_linear_theta_agree i Da Da' Da_th Da_th' Ks Ks').
Qed.

Lemma solve_linear_theta_ignores_self_entries_witness :
  agree_except 0 [5; 3] [0; 3] ∧ agree_except 0 [7; 1] [0; 1]
  ∧ magree_except 0 [[9; 8]; [6; 2]] [[0; 0]; [0; 2]]
  ∧ run scalar_backend
      (Multipartite2.solve_linear_theta [5; 3] [7; 1] [[9; 8]; [6; 2]] 0)
    = run scalar_backend
        (Multipartite2.solve_linear_theta [0; 3] [0; 1] [[0; 0]; [0; 2]] 0).
Proof.
  assert (H1 : agree_except 0 [5; 3] [0; 3]) by apply (agree_except_insert [5; 3] 0 0).
  assert (H2 : agree_except 0 [7; 1] [0; 1]) by apply (agree_except_insert [7; 1] 0 0).
  assert (H3 : magree_except 0 [[9; 8]; [6; 2]] [[0; 0]; [0; 2]]).
  { split; [reflexivity|]. intros [|[|j]] r r' Hj Hr Hr'; [lia| |done].
    injection Hr as <-. injection Hr' as <-.
    apply (agree_except_insert [6; 2] 0 0). }
  split; [exact H1|]. split; [exact H2|]. split; [exact H3|].
  apply (solve_linear_theta_ignores_self_entries scalar_backend 0);
    [exact H1|exact H2|exact H3].
Defined.

(** ** C9 *)

(** C9.  For an N by T sample matrix with T >= 1 and an index [i < N],
    [log_norm_theta] at the zero parameter vector is exactly 0: [thf] is
    zero, the sum of the T exponentials is T, and log(T) - log(T) = 0. *)
Theorem log_norm_theta_zero (N T : nat) (S : matrix) (i : nat) :
  (1 ≤ T)%nat → (i < N)%nat → is_matrix N T S →
  Multipartite2.log_norm_theta S (replicate (N - 1) 0) i = Ok 0.
Proof.
  intros HT Hi HS. unfold Multipartite2.log_norm_theta.
  rewrite (thf_of_zero N T) by done. simpl. f_equal.
  unfold logsumexp, vneg.
  rewrite !fmap_replicate, vsum_replicate, length_replicate.
  rewrite Ropp_0, exp_0, Rmult_1_r. lra.
Qed.

Lemma log_norm_theta_zero_witness :
  (1 ≤ 2)%nat ∧ (0 < 2)%nat ∧ is_matrix 2 2 [[1; -1]; [1; 1]]
  ∧ Multipartite2.log_norm_theta [[1; -1]; [1; 1]] [0] 0 = Ok 0.
Proof.
  assert (Hm : is_matrix 2 2 [[1; -1]; [1; 1]]) by is_matrix_explicit.
  split; [lia|]. split; [lia|]. split; [exact Hm|].
  apply (log_norm_theta_zero 2 2); [lia|lia|exact Hm].
Defined.

(** ** C10 *)

(** C10.  For an antisymmetric N by N matrix [J], a vector [Da] of length N
    and [i < N], the two versions of [exp_EP_spin_model] return the same
    number: [sum((J[i, :] - J[:, i]) * Da) / 2] equals [J[i, :] @ Da]. *)
Theorem exp_EP_spin_model_versions_agree
    (N : nat) (J : matrix) (Da : vector) (i : nat) :
  is_matrix N N J → antisymmetric N J → length Da = N → (i < N)%nat →
  Multipartite.exp_EP_spin_model Da J i = Multipartite2.exp_EP_spin_model Da J i
  ∧ ∃ Ji, get_row J i = Ok Ji
          ∧ Multipartite2.exp_EP_spin_model Da J i = Ok (dot Ji Da).
Proof.
  intros HJ Hanti HDa Hi.
  destruct (lookup_lt_is_Some_2 J i) as [Ji HJi]; [destruct HJ; lia|].
  pose proof (is_matrix_lookup _ _ _ _ _ HJ HJi) as HlenJi.
  assert (Hrow : get_row J i = Ok Ji) by (unfold get_row; by rewrite HJi).
  assert (Hcol : get_col J i = Ok (vneg Ji)).
  { unfold get_col. rewrite (is_matrix_shape1 N N J) by (done || lia).
    rewrite decide_True by done. f_equal. apply vector_ext.
    - unfold vneg. rewrite !length_fmap. destruct HJ; lia.
    - rewrite length_fmap. intros k Hk. destruct HJ as [HJn HJm].
      rewrite HJn in Hk.
      destruct (lookup_lt_is_Some_2 J k) as [Jk HJk]; [lia|].
      unfold vneg. rewrite vnth_fmap by lia.
      rewrite (vnth_lookup ((λ r, vnth r i) <$> J) k (vnth Jk i)).
      2:{ by rewrite list_lookup_fmap, HJk. }
      specialize (Hanti k i Hk Hi).
      by rewrite (entry_lookup J k Jk), (entry_lookup J i Ji) in Hanti. }
  unfold Multipartite.exp_EP_spin_model, Multipartite2.exp_EP_spin_model.
  rewrite Hrow, Hcol. simpl.
  rewrite vbroadcast_same by (unfold vneg; by rewrite length_fmap). simpl.
  rewrite vbroadcast_same.
  2:{ rewrite length_zip_with. unfold vneg. rewrite length_fmap. lia. }
  simpl. unfold matmul_vv. rewrite decide_True by lia.
  split.
  - f_equal. rewrite dot_sym_diff. unfold dot, vmul. lra.
  - by exists Ji.
Qed.

Lemma exp_EP_spin_model_versions_agree_witness :
  is_matrix 2 2 [[0; 3]; [-3; 0]] ∧ antisymmetric 2 [[0; 3]; [-3; 0]]
  ∧ (0 < 2)%nat
  ∧ Multipartite.exp_EP_spin_model [1; 2] [[0; 3]; [-3; 0]] 0
    = Multipartite2.exp_EP_spin_model [1; 2] [[0; 3]; [-3; 0]] 0
  ∧ Multipartite2.exp_EP_spin_model [1; 2] [[0; 3]; [-3; 0]] 0
    = Ok (0 * 1 + (3 * 2 + 0)).
Proof.
  assert (Hm : is_matrix 2 2 [[0; 3]; [-3; 0]]) by is_matrix_explicit.
  assert (Ha : antisymmetric 2 [[0; 3]; [-3; 0]]).
  { intros [|[|j]] [|[|k]] Hj Hk; try lia; unfold entry, vnth; simpl; lra. }
  split; [exact Hm|]. split; [exact Ha|]. split; [lia|].
  destruct (exp_EP_spin_model_versions_agree 2 [[0; 3]; [-3; 0]] [1; 2] 0)
    as [Heq _]; [exact Hm|exact Ha|reflexivity|lia|].
  split; [exact Heq|reflexivity].
Defined.

(* ================================================================== *)
(** * Further properties of the three modules *)
(* ================================================================== *)

Section Revised_estimator.
Import Multipartite2.

(** ** The fourth-order statistics are symmetric *)

Lemma dot_comm (a b : vector) : dot a b = dot b a.
Proof.
  unfold dot, vmul, vsum. revert b.
  induction a as [|x a IH]; intros [|y b]; csimpl; try done. rewrite IH. lra.
Qed.

Lemma dot_vscale_l c (a b : vector) : dot (vscale c a) b = c * dot a b.
Proof.
  unfold dot, vmul, vsum, vscale. revert b.
  induction a as [|x a IH]; intros [|y b]; csimpl; try lra. rewrite IH. lra.
Qed.

Lemma dot_vmul_swap (w a b : vector) : dot (vmul w a) b = dot (vmul w b) a.
Proof.
  unfold dot, vmul, vsum. revert a b.
  induction w as [|x w IH]; intros [|y a] [|z b]; csimpl; try done.
  rewrite IH. lra.
Qed.

Lemma entry_matmul_T (A C : matrix) j k ra rc :
  A !! j = Some ra → C !! k = Some rc → entry (matmul_T A C) j k = dot ra rc.
Proof.
  intros Ha Hc. unfold matmul_T.
  rewrite (entry_lookup _ j (dot ra <$> C)) by (by rewrite list_lookup_fmap, Ha).
  apply vnth_lookup. by rewrite list_lookup_fmap, Hc.
Qed.

Lemma entry_mdiv n m (M : matrix) c j k :
  is_matrix n m M → (j < n)%nat → (k < m)%nat →
  entry (mdiv M c) j k = entry M j k / c.
Proof.
  intros HM Hj Hk.
  destruct (lookup_lt_is_Some_2 M j) as [r Hr]; [destruct HM; lia|].
  pose proof (is_matrix_lookup _ _ _ _ _ HM Hr).
  rewrite (entry_lookup M j r k Hr), (entry_lookup _ j (vdiv r c)).
  - unfold vdiv. apply vnth_fmap. lia.
  - unfold mdiv. by rewrite list_lookup_fmap, Hr.
Qed.

Lemma symmetric_matmul_T_weighted (n : nat) (S : matrix) (f : vector → vector) :
  length S = n →
  (∀ a b, dot (f a) b = dot (f b) a) →
  symmetric n (matmul_T (f <$> S) S).
Proof.
  intros Hn Hf j k Hj Hk.
  destruct (lookup_lt_is_Some_2 S j) as [rj Hrj]; [lia|].
  destruct (lookup_lt_is_Some_2 S k) as [rk Hrk]; [lia|].
  rewrite (entry_matmul_T _ _ j k (f rj) rk), (entry_matmul_T _ _ k j (f rk) rj);
    try done; try (by rewrite list_lookup_fmap, ?Hrj, ?Hrk).
Qed.

Lemma symmetric_mdiv n (M : matrix) c :
  is_matrix n n M → symmetric n M → symmetric n (mdiv M c).
Proof.
  intros HM Hs j k Hj Hk. rewrite !(entry_mdiv n n) by done. by rewrite Hs.
Qed.

Lemma correlations4_is_symmetric (N T : nat) (S : matrix) (i : nat) :
  is_matrix N T S →
  is_matrix N N (correlations4 S i) ∧ symmetric N (correlations4 S i).
Proof.
  intros HS. split; [by eapply is_matrix_correlations4|].
  unfold correlations4. apply symmetric_mdiv.
  - apply (is_matrix_matmul_T N N); [unfold mscale; rewrite length_fmap|]; apply HS.
  - apply symmetric_matmul_T_weighted; [apply HS|].
    intros a b. rewrite !dot_vscale_l, (dot_comm a b). done.
Qed.

(** X1.  [correlations4] returns an N by N matrix that is symmetric. *)
Theorem correlations4_symmetric (N T : nat) (S : matrix) (i : nat) :
  is_matrix N T S →
  is_matrix N N (correlations4 S i) ∧ symmetric N (correlations4 S i).
Proof. apply correlations4_is_symmetric. Qed.

Lemma correlations4_symmetric_witness :
  is_matrix 2 2 [[1; -1]; [1; 1]]
  ∧ is_matrix 2 2 (correlations4 [[1; -1]; [1; 1]] 0)
  ∧ symmetric 2 (correlations4 [[1; -1]; [1; 1]] 0).
Proof.
  assert (Hm : is_matrix 2 2 [[1; -1]; [1; 1]]) by is_matrix_explicit.
  split; [exact Hm|]. exact (correlations4_symmetric 2 2 _ 0 Hm).
Defined.

(** X2.  So does [correlations4_theta], for a parameter vector of length N - 1. *)
Theorem correlations4_theta_symmetric (N T : nat) (S : matrix) (theta : vector) (i : nat) :
  is_matrix N T S → (i < N)%nat → length theta = (N - 1)%nat →
  ∃ K, correlations4_theta S theta i = Ok K ∧ is_matrix N N K ∧ symmetric N K.
Proof.
  intros HS Hi Hth.
  destruct (thf_of_ok N T S theta i HS Hi Hth) as (Si & _ & _ & Heq).
  unfold correlations4_theta. rewrite Heq. simpl. eexists. split; [done|].
  assert (Hm : is_matrix N N (matmul_T
     (vmul (vscale 4 (exp <$> vneg (vmul (vscale (-2) Si)
        (vtab T (λ r, dot theta ((λ row, vnth row r) <$> remove_i S i))))))
      <$> S) S)).
  { apply (is_matrix_matmul_T N N); [rewrite length_fmap|]; apply HS. }
  split; [by apply is_matrix_mdiv|].
  apply symmetric_mdiv; [done|].
  apply symmetric_matmul_T_weighted; [apply HS|]. intros a b. apply dot_vmul_swap.
Qed.

Lemma correlations4_theta_symmetric_witness :
  is_matrix 2 2 [[1; -1]; [1; 1]] ∧ (0 < 2)%nat ∧ length [3] = (2 - 1)%nat
  ∧ ∃ K, correlations4_theta [[1; -1]; [1; 1]] [3] 0 = Ok K
         ∧ is_matrix 2 2 K ∧ symmetric 2 K.
Proof.
  assert (Hm : is_matrix 2 2 [[1; -1]; [1; 1]]) by is_matrix_explicit.
  split; [exact Hm|]. split; [lia|]. split; [reflexivity|].
  apply (correlations4_theta_symmetric 2 2); [exact Hm|lia|reflexivity].
Defined.

(** ** A flip of every spin changes no statistic *)

Lemma result_bind_ext {A C} (m : result A) (f g : A → result C) :
  (∀ a, f a = g a) → m ≫= f = m ≫= g.
Proof. intros H. destruct m; simpl; auto. Qed.

Lemma shape1_mneg (S : matrix) : shape1 (mneg S) = shape1 S.
Proof. destruct S as [|r S]; [done|]. unfold shape1, mneg, vneg. simpl. by rewrite length_fmap. Qed.

Lemma get_row_mneg (S : matrix) i :
  get_row (mneg S) i = (Si ← get_row S i; Ok (vneg Si)).
Proof.
  unfold get_row, mneg. rewrite list_lookup_fmap. by destruct (S !! i).
Qed.

Lemma remove_i_fmap {A C} (f : A → C) (l : list A) i :
  remove_i (f <$> l) i = f <$> remove_i l i.
Proof. unfold remove_i. by rewrite fmap_app, fmap_take, fmap_drop. Qed.

Lemma dot_vneg_r (a b : vector) : dot a (vneg b) = - dot a b.
Proof.
  unfold dot, vmul, vsum, vneg. revert b.
  induction a as [|x a IH]; intros [|y b]; csimpl; try lra. rewrite IH. lra.
Qed.

Lemma dot_vneg_l (a b : vector) : dot (vneg a) b = - dot a b.
Proof. by rewrite dot_comm, dot_vneg_r, dot_comm. Qed.

Lemma vscale_vneg c (a : vector) : vscale c (vneg a) = vneg (vscale c a).
Proof.
  unfold vscale, vneg. rewrite <- !list_fmap_compose. apply list_fmap_ext.
  intros _ x _. simpl. lra.
Qed.

Lemma vneg_vneg (a : vector) : vneg (vneg a) = a.
Proof.
  unfold vneg. rewrite <- list_fmap_compose. rewrite <- (list_fmap_id a) at 2.
  apply list_fmap_ext. intros _ x _. simpl. lra.
Qed.

Lemma vmul_vneg_vneg (a b : vector) : vmul (vneg a) (vneg b) = vmul a b.
Proof.
  unfold vmul, vneg. revert b.
  induction a as [|x a IH]; intros [|y b]; csimpl; try done. rewrite IH. f_equal. lra.
Qed.

Lemma vnth_vneg (a : vector) k : vnth (vneg a) k = - vnth a k.
Proof.
  unfold vnth, vneg. rewrite list_lookup_fmap. destruct (a !! k); simpl; lra.
Qed.

Lemma column_mneg (S : matrix) r :
  (λ row, vnth row r) <$> mneg S = vneg ((λ row, vnth row r) <$> S).
Proof.
  unfold mneg. unfold vneg at 2. rewrite <- !list_fmap_compose.
  apply list_fmap_ext. intros _ row _. simpl. apply vnth_vneg.
Qed.

Lemma einsum_r_jr_mneg (a : vector) (S : matrix) :
  einsum_r_jr (vneg a) (mneg S) = einsum_r_jr a S.
Proof.
  unfold einsum_r_jr, mneg. rewrite <- list_fmap_compose.
  apply list_fmap_ext. intros _ row _. simpl.
  rewrite dot_vneg_l, dot_vneg_r. lra.
Qed.

Lemma correlations_mneg (S : matrix) i : correlations (mneg S) i = correlations S i.
Proof.
  unfold correlations. rewrite get_row_mneg, shape1_mneg.
  destruct (get_row S i) as [Si|e]; [|done]. simpl.
  by rewrite vscale_vneg, einsum_r_jr_mneg.
Qed.

Lemma matmul_T_mneg (f : vector → vector) (S : matrix) :
  (∀ a, f (vneg a) = vneg (f a)) →
  matmul_T (f <$> mneg S) (mneg S) = matmul_T (f <$> S) S.
Proof.
  intros Hf. unfold matmul_T, mneg. rewrite <- !list_fmap_compose.
  apply list_fmap_ext. intros _ a _. simpl.
  rewrite <- list_fmap_compose. apply list_fmap_ext. intros _ b _. simpl.
  rewrite Hf, dot_vneg_l, dot_vneg_r. lra.
Qed.

Lemma correlations4_mneg (S : matrix) i :
  correlations4 (mneg S) i = correlations4 S i.
Proof.
  unfold correlations4. rewrite shape1_mneg. unfold mscale.
  rewrite matmul_T_mneg; [done|]. intros a. apply vscale_vneg.
Qed.

Lemma vtab_vneg n f : vtab n (λ r, - f r) = vneg (vtab n f).
Proof. unfold vtab, vneg. by rewrite <- list_fmap_compose. Qed.

Lemma matmul_vm_mneg T (theta : vector) (Sw : matrix) :
  matmul_vm T theta (mneg Sw) = (m ← matmul_vm T theta Sw; Ok (vneg m)).
Proof.
  unfold matmul_vm.
  assert (Hlen : length (mneg Sw) = length Sw) by (unfold mneg; apply length_fmap).
  rewrite Hlen. case_decide; [|done]. simpl. f_equal.
  rewrite <- vtab_vneg. apply vtab_ext. intros r _.
  by rewrite column_mneg, dot_vneg_r.
Qed.

Lemma thf_of_mneg (S : matrix) (theta : vector) i :
  thf_of (mneg S) theta i = thf_of S theta i.
Proof.
  unfold thf_of. rewrite get_row_mneg, shape1_mneg.
  destruct (get_row S i) as [Si|e]; [|done]. simpl.
  assert (Hrm : remove_i (mneg S) i = mneg (remove_i S i))
    by (unfold mneg; apply remove_i_fmap).
  rewrite Hrm, matmul_vm_mneg.
  destruct (matmul_vm (shape1 S) theta (remove_i S i)) as [m|e]; [|done]. simpl.
  by rewrite vscale_vneg, vmul_vneg_vneg.
Qed.

Lemma correlations_theta_mneg (S : matrix) (theta : vector) i :
  correlations_theta (mneg S) theta i = correlations_theta S theta i.
Proof.
  unfold correlations_theta. rewrite thf_of_mneg, shape1_mneg.
  apply result_bind_ext. intros thf. rewrite get_row_mneg.
  destruct (get_row S i) as [Si|e]; [|done]. simpl.
  rewrite vscale_vneg.
  replace (vmul (vneg (vneg (vscale (-2) Si))) (exp <$> vneg thf))
    with (vneg (vmul (vneg (vscale (-2) Si)) (exp <$> vneg thf))).
  - by rewrite einsum_r_jr_mneg.
  - generalize (vneg (vscale (-2) Si)) (exp <$> vneg thf). intros a b.
    unfold vmul, vneg. revert b.
    induction a as [|x a IH]; intros [|y b]; csimpl; try done.
    rewrite IH. f_equal. lra.
Qed.

Lemma correlations4_theta_mneg (S : matrix) (theta : vector) i :
  correlations4_theta (mneg S) theta i = correlations4_theta S theta i.
Proof.
  unfold correlations4_theta. rewrite thf_of_mneg, shape1_mneg.
  apply result_bind_ext. intros thf. simpl. do 2 f_equal.
  apply matmul_T_mneg. intros a. generalize (vscale 4 (exp <$> vneg thf)).
  intros w. unfold vmul, vneg. revert a.
  induction w as [|x w IH]; intros [|y a]; csimpl; try done.
  rewrite IH. f_equal. lra.
Qed.

Lemma log_norm_theta_mneg (S : matrix) (theta : vector) i :
  log_norm_theta (mneg S) theta i = log_norm_theta S theta i.
Proof. unfold log_norm_theta. by rewrite thf_of_mneg. Qed.

(** X3.  Flipping every spin of the sample leaves the one-step estimates, the
    parameters and the correlations as they are. *)
Theorem get_EP_Newton_spin_flip (B : backend) (S : matrix) (i : nat) :
  run B (get_EP_Newton (mneg S) i) = run B (get_EP_Newton S i).
Proof.
  unfold get_EP_Newton. rewrite correlations_mneg, correlations4_mneg.
  rewrite !run_bind. apply result_bind_ext. intros Da. cbv zeta.
  rewrite !run_bind. apply result_bind_ext. intros theta. cbv zeta.
  by rewrite log_norm_theta_mneg.
Qed.

(** X4.  So it does for the Newton-Raphson step. *)
Theorem get_EP_Newton2_spin_flip
    (B : backend) (S : matrix) (theta_lin Da : vector) (i : nat) :
  run B (get_EP_Newton2 (mneg S) theta_lin Da i)
  = run B (get_EP_Newton2 S theta_lin Da i).
Proof.
  unfold get_EP_Newton2.
  rewrite correlations_theta_mneg, correlations4_theta_mneg, log_norm_theta_mneg.
  rewrite !run_bind. apply result_bind_ext. intros Da_th.
  rewrite !run_bind. apply result_bind_ext. intros Ks_th.
  rewrite !run_bind. apply result_bind_ext. intros lnZ. cbv zeta.
  rewrite !run_bind. apply result_bind_ext. intros theta_lin2.
  rewrite !run_bind. apply result_bind_ext. intros theta. cbv zeta.
  rewrite !run_bind. apply result_bind_ext. intros t_min.
  rewrite ?run_bind. apply result_bind_ext. intros prod.
  by rewrite log_norm_theta_mneg.
Qed.

(** ** The statistics at theta = 0 *)

Lemma vmul_replicate_1_r (a : vector) n :
  length a = n → vmul a (replicate n 1) = a.
Proof.
  intros <-. unfold vmul. induction a as [|x a IH]; csimpl; [done|].
  rewrite IH. f_equal. lra.
Qed.

Lemma vdiv_1 (a : vector) : vdiv a 1 = a.
Proof.
  unfold vdiv. rewrite <- (list_fmap_id a) at 2. apply list_fmap_ext.
  intros _ x _. simpl. lra.
Qed.

Lemma mdiv_1 (M : matrix) : mdiv M 1 = M.
Proof.
  unfold mdiv. rewrite <- (list_fmap_id M) at 2. apply list_fmap_ext.
  intros _ r _. simpl. apply vdiv_1.
Qed.

Lemma vdiv_vneg (a : vector) c : vdiv (vneg a) c = vneg (vdiv a c).
Proof.
  unfold vdiv, vneg. rewrite <- !list_fmap_compose. apply list_fmap_ext.
  intros _ x _. simpl. unfold Rdiv. lra.
Qed.

Lemma einsum_r_jr_vneg (a : vector) (S : matrix) :
  einsum_r_jr (vneg a) S = vneg (einsum_r_jr a S).
Proof.
  unfold einsum_r_jr. unfold vneg at 2. rewrite <- list_fmap_compose.
  apply list_fmap_ext. intros _ row _. simpl. apply dot_vneg_l.
Qed.

Lemma einsum_j_k_vneg (a b : vector) :
  einsum_j_k (vneg a) (vneg b) = einsum_j_k a b.
Proof.
  unfold einsum_j_k, vneg. rewrite <- list_fmap_compose.
  apply list_fmap_ext. intros _ x _. simpl.
  rewrite <- list_fmap_compose. apply list_fmap_ext. intros _ y _. simpl. lra.
Qed.

Lemma exp_vneg_zeros n : exp <$> vneg (replicate n 0) = replicate n 1.
Proof. unfold vneg. by rewrite !fmap_replicate, Ropp_0, exp_0. Qed.

Lemma correlations_theta_at_zero (N T : nat) (S : matrix) (i : nat) :
  is_matrix N T S → (i < N)%nat →
  ∃ Da, correlations S i = Ok Da
        ∧ correlations_theta S (replicate (N - 1) 0) i = Ok (vneg Da)
        ∧ correlations4_theta S (replicate (N - 1) 0) i = Ok (correlations4 S i).
Proof.
  intros HS Hi.
  destruct (get_row_is_matrix N T S i HS Hi) as (Si & Hrow & _ & HlenSi).
  exists (vdiv (einsum_r_jr (vscale (-2) Si) S) (INR (shape1 S))).
  split; [unfold correlations; by rewrite Hrow|]. split.
  - unfold correlations_theta. rewrite (thf_of_zero N T) by done. simpl.
    rewrite Hrow. simpl. rewrite exp_vneg_zeros.
    rewrite vmul_replicate_1_r
      by (unfold vneg, vscale; by rewrite !length_fmap).
    by rewrite einsum_r_jr_vneg, vdiv_vneg.
  - unfold correlations4_theta, correlations4.
    rewrite (thf_of_zero N T) by done. simpl. rewrite exp_vneg_zeros.
    do 3 f_equal. unfold mscale. apply Forall_fmap_ext.
    destruct HS as [_ HS]. eapply Forall_impl; [done|]. intros r Hr. simpl in *.
    unfold vscale at 1. rewrite fmap_replicate, Rmult_1_r.
    unfold vmul, vscale. clear -Hr. subst T.
    induction r as [|x r IH]; csimpl; [done|]. by rewrite IH.
Qed.

(** X5.  At [theta = 0] every weight is 1: the reweighted correlations are the
    opposite of the plain ones (which is why the one-step estimate passes
    [-Da] to the solver), and the reweighted fourth-order matrix is the plain
    one. *)
Theorem reweighted_statistics_at_zero (N T : nat) (S : matrix) (i : nat) :
  is_matrix N T S → (i < N)%nat →
  ∃ Da, correlations S i = Ok Da
        ∧ correlations_theta S (replicate (N - 1) 0) i = Ok (vneg Da)
        ∧ correlations4_theta S (replicate (N - 1) 0) i = Ok (correlations4 S i).
Proof. apply correlations_theta_at_zero. Qed.

Lemma reweighted_statistics_at_zero_witness :
  is_matrix 2 2 [[1; -1]; [1; 1]] ∧ (0 < 2)%nat
  ∧ ∃ Da, correlations [[1; -1]; [1; 1]] 0 = Ok Da
          ∧ correlations_theta [[1; -1]; [1; 1]] (replicate (2 - 1) 0) 0
            = Ok (vneg Da)
          ∧ correlations4_theta [[1; -1]; [1; 1]] (replicate (2 - 1) 0) 0
            = Ok (correlations4 [[1; -1]; [1; 1]] 0).
Proof.
  assert (Hm : is_matrix 2 2 [[1; -1]; [1; 1]]) by is_matrix_explicit.
  split; [exact Hm|]. split; [lia|].
  apply (reweighted_statistics_at_zero 2 2); [exact Hm|lia].
Defined.

Lemma log_norm_theta_at_zero (N T : nat) (S : matrix) (i : nat) :
  is_matrix N T S → (i < N)%nat →
  log_norm_theta S (replicate (N - 1) 0) i = Ok 0.
Proof.
  intros HS Hi. unfold log_norm_theta.
  rewrite (thf_of_zero N T) by done. simpl. f_equal.
  unfold logsumexp. rewrite exp_vneg_zeros, length_replicate.
  rewrite vsum_replicate, Rmult_1_r. lra.
Qed.

Lemma zip_with_plus_zero_l (a : vector) :
  zip_with Rplus (replicate (length a) 0) a = a.
Proof. induction a as [|x a IH]; csimpl; [done|]. rewrite IH. f_equal. lra. Qed.

(** X6.  One Newton-Raphson step from [theta = 0] is the one-step estimate. *)
Theorem get_EP_Newton2_from_zero (B : backend) (N T : nat) (S : matrix) (i : nat) :
  (2 ≤ N)%nat → (i < N)%nat → is_matrix N T S →
  (∀ M b, is_matrix (N - 1) (N - 1) M → length b = (N - 1)%nat →
          length (be_lstsq B M b) = (N - 1)%nat) →
  ∃ sig_N1 sig_MTUR theta Da,
    run B (get_EP_Newton S i) = Ok (sig_N1, sig_MTUR, theta, Da)
    ∧ run B (get_EP_Newton2 S (replicate (N - 1) 0) Da i) = Ok (sig_N1, theta).
Proof.
  intros HN Hi HS Hlen.
  destruct (correlations_theta_at_zero N T S i HS Hi) as (Da & HDa & HDa_th & HKs_th).
  assert (HlenDa : length Da = N).
  { destruct (correlations_ok N T S i HS Hi) as (Da' & HDa' & Hl). congruence. }
  set (Ks := mzip Rminus (correlations4 S i) (einsum_j_k Da Da)).
  assert (HKs : is_matrix N N Ks).
  { apply is_matrix_mzip; [by eapply is_matrix_correlations4|].
    pose proof (is_matrix_einsum_j_k Da Da) as H. by rewrite HlenDa in H. }
  assert (HlenN : length (vneg Da) = N) by (unfold vneg; by rewrite length_fmap).
  pose proof (solve_linear_theta_unfold N Da (vneg Da) Ks i HlenDa HlenN HKs)
    as Hsolve.
  simpl in Hsolve.
  pose proof (is_matrix_K_nodiag N Ks i HKs) as HK.
  rewrite decide_True in HK by done.
  set (K := K_nodiag Ks i) in *.
  set (M := mzip Rplus K
              (mscale (1e-4 * trace K / INR (length K)) (eye (length K)))) in *.
  set (rhs := zip_with Rminus (remove_i Da i) (remove_i (vneg Da) i)) in *.
  set (theta := be_lstsq B M rhs).
  assert (HlenK : length K = (N - 1)%nat) by apply HK.
  assert (Hlenth : length theta = (N - 1)%nat).
  { apply Hlen.
    - unfold M. rewrite HlenK.
      apply is_matrix_mzip; [done|apply is_matrix_mscale, is_matrix_eye].
    - unfold rhs. rewrite length_zip_with, !length_remove_i by lia. lia. }
  destruct (log_norm_theta_ok N T S theta i HS Hi Hlenth) as (lnZ & HlnZ).
  assert (HlenDai : length (remove_i Da i) = (N - 1)%nat)
    by (rewrite length_remove_i; lia).
  exists (dot theta (remove_i Da i) - lnZ), (dot theta (remove_i Da i)), theta, Da.
  split.
  - unfold get_EP_Newton. rewrite run_bind, run_lift, HDa. simpl.
    fold Ks. rewrite run_bind, Hsolve. simpl. fold theta.
    rewrite run_bind, run_lift, HlnZ. simpl.
    unfold matmul_vv. rewrite decide_True by lia. simpl.
    rewrite vbroadcast_same by lia. simpl. done.
  - unfold get_EP_Newton2.
    rewrite run_bind, run_lift, HDa_th. simpl.
    rewrite run_bind, run_lift, HKs_th. simpl.
    rewrite run_bind, run_lift, (log_norm_theta_at_zero N T) by done. simpl.
    rewrite exp_0, vdiv_1, mdiv_1, einsum_j_k_vneg. fold Ks.
    rewrite run_bind, Hsolve. simpl. fold theta.
    rewrite vbroadcast_same by (rewrite length_replicate; lia). simpl.
    rewrite <- Hlenth, zip_with_plus_zero_l.
    destruct (vmin_ok theta) as [t_min Hmin]; [lia|]. rewrite Hmin. simpl.
    rewrite vbroadcast_same by lia. simpl. rewrite HlnZ. simpl. done.
Qed.

Lemma get_EP_Newton2_from_zero_witness :
  (2 ≤ 2)%nat ∧ (0 < 2)%nat ∧ is_matrix 2 2 [[1; -1]; [1; 1]]
  ∧ ∃ sig_N1 sig_MTUR theta Da,
      run scalar_backend (get_EP_Newton [[1; -1]; [1; 1]] 0)
      = Ok (sig_N1, sig_MTUR, theta, Da)
      ∧ run scalar_backend
          (get_EP_Newton2 [[1; -1]; [1; 1]] (replicate (2 - 1) 0) Da 0)
        = Ok (sig_N1, theta).
Proof.
  assert (Hm : is_matrix 2 2 [[1; -1]; [1; 1]]) by is_matrix_explicit.
  split; [lia|]. split; [lia|]. split; [exact Hm|].
  apply (get_EP_Newton2_from_zero scalar_backend 2 2); [lia|lia|exact Hm|].
  intros M b. apply length_lstsq_1x1.
Defined.

(** ** Errors, and the call of the solver *)

Lemma calls_lift {A} (B : backend) (r : result A) : calls B (lift r) = [].
Proof. by destruct r. Qed.

Lemma calls_bind {A C} (B : backend) (p : prog A) (f : A → prog C) :
  calls B (p ≫= f)
  = calls B p ++ match run B p with Ok a => calls B (f a) | Raise _ => [] end.
Proof.
  induction p as [a|e|M b k IH|M b k IH]; simpl; try done; by rewrite IH.
Qed.

Lemma calls_lift_bind {A C} (B : backend) (r : result A) (f : A → prog C) :
  calls B (lift r ≫= f) = match r with Ok a => calls B (f a) | Raise _ => [] end.
Proof. by destruct r. Qed.

Lemma thf_of_index_error (S : matrix) (theta : vector) i :
  (length S ≤ i)%nat → thf_of S theta i = Raise IndexError.
Proof.
  intros Hi. unfold thf_of, get_row. by rewrite lookup_ge_None_2.
Qed.

(** X7.  An index past the last spin: both estimators raise [IndexError] before
    the solver is called. *)
Theorem estimators_index_error
    (B : backend) (S : matrix) (theta_lin Da : vector) (i : nat) :
  (length S ≤ i)%nat →
  run B (get_EP_Newton S i) = Raise IndexError
  ∧ calls B (get_EP_Newton S i) = []
  ∧ run B (get_EP_Newton2 S theta_lin Da i) = Raise IndexError
  ∧ calls B (get_EP_Newton2 S theta_lin Da i) = [].
Proof.
  intros Hi.
  assert (Hc : correlations S i = Raise IndexError).
  { unfold correlations, get_row. by rewrite lookup_ge_None_2. }
  assert (Hct : correlations_theta S theta_lin i = Raise IndexError).
  { unfold correlations_theta. by rewrite thf_of_index_error. }
  unfold get_EP_Newton, get_EP_Newton2. rewrite Hc, Hct. done.
Qed.

Lemma estimators_index_error_witness :
  (length ([[1; -1]; [1; 1]]%R : matrix) ≤ 2)%nat
  ∧ run scalar_backend (get_EP_Newton [[1; -1]; [1; 1]] 2) = Raise IndexError
  ∧ calls scalar_backend (get_EP_Newton [[1; -1]; [1; 1]] 2) = []
  ∧ run scalar_backend (get_EP_Newton2 [[1; -1]; [1; 1]] [0] [0; 0] 2)
    = Raise IndexError
  ∧ calls scalar_backend (get_EP_Newton2 [[1; -1]; [1; 1]] [0] [0; 0] 2) = [].
Proof.
  split; [simpl; lia|].
  apply (estimators_index_error scalar_backend [[1; -1]; [1; 1]] [0] [0; 0] 2).
  simpl. lia.
Defined.

Lemma thf_of_shape_error n m (S : matrix) (theta : vector) i :
  is_matrix n m S → (i < n)%nat → length theta ≠ (n - 1)%nat →
  thf_of S theta i = Raise RuntimeError.
Proof.
  intros HS Hi Hth.
  destruct (get_row_is_matrix n m S i HS Hi) as (Si & Hrow & _ & _).
  unfold thf_of. rewrite Hrow. simpl. unfold matmul_vm.
  rewrite decide_False; [done|]. rewrite length_remove_i; destruct HS; lia.
Qed.

(** X8.  A parameter vector of the wrong length: the reweighted statistics raise
    [RuntimeError], and so does the Newton step, before the solver is
    called. *)
Theorem reweighting_shape_error
    (B : backend) (N T : nat) (S : matrix) (theta Da : vector) (i : nat) :
  is_matrix N T S → (i < N)%nat → length theta ≠ (N - 1)%nat →
  correlations_theta S theta i = Raise RuntimeError
  ∧ correlations4_theta S theta i = Raise RuntimeError
  ∧ log_norm_theta S theta i = Raise RuntimeError
  ∧ run B (get_EP_Newton2 S theta Da i) = Raise RuntimeError
  ∧ calls B (get_EP_Newton2 S theta Da i) = [].
Proof.
  intros HS Hi Hth. pose proof (thf_of_shape_error N T S theta i HS Hi Hth) as Hthf.
  assert (Hct : correlations_theta S theta i = Raise RuntimeError)
    by (unfold correlations_theta; by rewrite Hthf).
  repeat split; try done.
  - unfold correlations4_theta. by rewrite Hthf.
  - unfold log_norm_theta. by rewrite Hthf.
  - unfold get_EP_Newton2. by rewrite Hct.
  - unfold get_EP_Newton2. by rewrite Hct.
Qed.

Lemma reweighting_shape_error_witness :
  is_matrix 2 2 [[1; -1]; [1; 1]] ∧ (0 < 2)%nat
  ∧ length ([0; 0] : vector) ≠ (2 - 1)%nat
  ∧ correlations_theta [[1; -1]; [1; 1]] [0; 0] 0 = Raise RuntimeError
  ∧ correlations4_theta [[1; -1]; [1; 1]] [0; 0] 0 = Raise RuntimeError
  ∧ log_norm_theta [[1; -1]; [1; 1]] [0; 0] 0 = Raise RuntimeError
  ∧ run scalar_backend (get_EP_Newton2 [[1; -1]; [1; 1]] [0; 0] [0; 0] 0)
    = Raise RuntimeError
  ∧ calls scalar_backend (get_EP_Newton2 [[1; -1]; [1; 1]] [0; 0] [0; 0] 0) = [].
Proof.
  assert (Hm : is_matrix 2 2 [[1; -1]; [1; 1]]) by is_matrix_explicit.
  assert (Hlen : length ([0; 0] : vector) ≠ (2 - 1)%nat) by (simpl; lia).
  split; [exact Hm|]. split; [lia|]. split; [exact Hlen|].
  apply (reweighting_shape_error scalar_backend 2 2); [exact Hm|lia|exact Hlen].
Defined.

Lemma entry_einsum_j_k (a b : vector) j k :
  (j < length a)%nat → (k < length b)%nat →
  entry (einsum_j_k a b) j k = vnth a j * vnth b k.
Proof.
  intros Hj Hk. unfold einsum_j_k.
  rewrite (entry_lookup _ j (Rmult (vnth a j) <$> b)).
  - by apply vnth_fmap.
  - by rewrite list_lookup_fmap, (lookup_vnth a j Hj).
Qed.

Lemma symmetric_K_nodiag N (Ks : matrix) i :
  (i < N)%nat → symmetric N Ks → symmetric (N - 1) (K_nodiag Ks i).
Proof.
  intros Hi Hs j k Hj Hk. rewrite !entry_K_nodiag. apply Hs; unfold skip; case_decide; lia.
Qed.

Lemma entry_eye n j k :
  (j < n)%nat → (k < n)%nat → entry (eye n) j k = if decide (j = k) then 1 else 0.
Proof. intros Hj Hk. unfold eye. by rewrite entry_mtab. Qed.

Lemma remove_i_vneg (a : vector) i : remove_i (vneg a) i = vneg (remove_i a i).
Proof. unfold vneg. apply remove_i_fmap. Qed.

Lemma zip_with_minus_vneg (a : vector) : zip_with Rminus a (vneg a) = vscale 2 a.
Proof.
  unfold vneg, vscale. induction a as [|x a IH]; csimpl; [done|]. rewrite IH. f_equal. lra.
Qed.

(** X9.  The one call that [get_EP_Newton] makes. *)
Theorem get_EP_Newton_system (B : backend) (N T : nat) (S : matrix) (i : nat) :
  (i < N)%nat → is_matrix N T S →
  ∃ Da M,
    correlations S i = Ok Da
    ∧ (let K := K_nodiag (mzip Rminus (correlations4 S i) (einsum_j_k Da Da)) i in
       M = mzip Rplus K (mscale (1e-4 * trace K / INR (N - 1)) (eye (N - 1))))
    ∧ calls B (get_EP_Newton S i) = [CallLstsq M (vscale 2 (remove_i Da i))]
    ∧ is_matrix (N - 1) (N - 1) M
    ∧ symmetric (N - 1) M.
Proof.
  intros Hi HS.
  destruct (correlations_ok N T S i HS Hi) as (Da & HDa & HlenDa).
  set (Ks := mzip Rminus (correlations4 S i) (einsum_j_k Da Da)).
  destruct (correlations4_is_symmetric N T S i HS) as [HK4 Hsym4].
  assert (HKs : is_matrix N N Ks).
  { apply is_matrix_mzip; [done|].
    pose proof (is_matrix_einsum_j_k Da Da) as H. by rewrite HlenDa in H. }
  assert (HsymKs : symmetric N Ks).
  { intros j k Hj Hk. unfold Ks.
    pose proof (is_matrix_einsum_j_k Da Da) as H. rewrite HlenDa in H.
    rewrite !(entry_mzip Rminus N N) by done.
    rewrite !entry_einsum_j_k by lia. rewrite (Hsym4 j k) by done. lra. }
  assert (HlenN : length (vneg Da) = N) by (unfold vneg; by rewrite length_fmap).
  pose proof (solve_linear_theta_unfold N Da (vneg Da) Ks i HlenDa HlenN HKs)
    as Hsolve.
  simpl in Hsolve.
  pose proof (is_matrix_K_nodiag N Ks i HKs) as HK.
  rewrite decide_True in HK by done.
  set (K := K_nodiag Ks i) in *.
  assert (HlenK : length K = (N - 1)%nat) by apply HK.
  rewrite HlenK in Hsolve.
  set (alpha := 1e-4 * trace K / INR (N - 1)) in *.
  rewrite remove_i_vneg, zip_with_minus_vneg in Hsolve.
  exists Da, (mzip Rplus K (mscale alpha (eye (N - 1)))).
  assert (HaI : is_matrix (N - 1) (N - 1) (mscale alpha (eye (N - 1))))
    by apply is_matrix_mscale, is_matrix_eye.
  split; [done|]. split; [done|]. split; [|split].
  - unfold get_EP_Newton. rewrite calls_lift_bind, HDa. cbv zeta. fold Ks.
    rewrite calls_bind, Hsolve. simpl.
    rewrite calls_lift_bind. destruct (log_norm_theta S _ i); [|done].
    rewrite calls_lift_bind. destruct (matmul_vv _ _); [|done].
    rewrite calls_lift_bind. by destruct (vbroadcast _ _ _).
  - by apply is_matrix_mzip.
  - intros j k Hj Hk. rewrite !(entry_mzip Rplus (N - 1) (N - 1)) by done.
    rewrite !(entry_mscale (N - 1) (N - 1)) by (done || apply is_matrix_eye).
    rewrite !entry_eye by done.
    pose proof (symmetric_K_nodiag N Ks i Hi HsymKs j k Hj Hk) as HsK.
    fold K in HsK. rewrite HsK. do 2 case_decide; try lia; lra.
Qed.

Lemma get_EP_Newton_system_witness :
  (0 < 2)%nat ∧ is_matrix 2 2 [[1; -1]; [1; 1]]
  ∧ ∃ Da M,
      correlations [[1; -1]; [1; 1]] 0 = Ok Da
      ∧ (let K := K_nodiag (mzip Rminus (correlations4 [[1; -1]; [1; 1]] 0)
                              (einsum_j_k Da Da)) 0 in
         M = mzip Rplus K (mscale (1e-4 * trace K / INR (2 - 1)) (eye (2 - 1))))
      ∧ calls scalar_backend (get_EP_Newton [[1; -1]; [1; 1]] 0)
        = [CallLstsq M (vscale 2 (remove_i Da 0))]
      ∧ is_matrix (2 - 1) (2 - 1) M
      ∧ symmetric (2 - 1) M.
Proof.
  assert (Hm : is_matrix 2 2 [[1; -1]; [1; 1]]) by is_matrix_explicit.
  split; [lia|]. split; [exact Hm|].
  apply (get_EP_Newton_system scalar_backend 2 2); [lia|exact Hm].
Defined.

(** ** Spins that are +1 or -1 *)

Lemma dot_pm1_self (a : vector) :
  Forall (λ x, x = 1 ∨ x = -1) a → dot a a = INR (length a).
Proof.
  unfold dot, vmul, vsum. induction 1 as [|x a Hx _ IH]; [done|].
  rewrite length_cons, S_INR. csimpl. rewrite IH. destruct Hx as [-> | ->]; lra.
Qed.

Lemma dot_pm1_bound (a b : vector) :
  Forall (λ x, x = 1 ∨ x = -1) a → Forall (λ x, x = 1 ∨ x = -1) b →
  length a = length b →
  - INR (length a) <= dot a b <= INR (length a).
Proof.
  unfold dot, vmul, vsum. intros Ha. revert b.
  induction Ha as [|x a Hx _ IH]; intros [|y b] Hb Hlen; simpl in Hlen; try lia.
  { simpl. lra. }
  apply Forall_cons in Hb as [Hy Hb]. specialize (IH b Hb ltac:(lia)).
  rewrite length_cons, S_INR. csimpl.
  destruct Hx as [-> | ->], Hy as [-> | ->]; lra.
Qed.

Lemma vsum_nonneg (v : vector) : Forall (λ x, 0 <= x) v → 0 <= vsum v.
Proof. unfold vsum. induction 1 as [|x v Hx _ IH]; csimpl; lra. Qed.

Lemma vsum_vtab_nonneg n f :
  (∀ k, (k < n)%nat → 0 <= f k) → 0 <= vsum (vtab n f).
Proof.
  intros Hf. apply vsum_nonneg. unfold vtab. apply Forall_fmap, Forall_seq.
  intros k Hk. simpl. apply Hf. lia.
Qed.

Lemma vnth_correlations n m (S : matrix) i Si Sj j :
  is_matrix n m S → S !! i = Some Si → S !! j = Some Sj →
  correlations S i = Ok (vdiv (einsum_r_jr (vscale (-2) Si) S) (INR (shape1 S)))
  ∧ vnth (vdiv (einsum_r_jr (vscale (-2) Si) S) (INR (shape1 S))) j
    = -2 * dot Si Sj / INR (shape1 S).
Proof.
  intros HS HSi HSj. split.
  - unfold correlations, get_row. by rewrite HSi.
  - unfold vdiv. rewrite vnth_fmap.
    2:{ unfold einsum_r_jr. rewrite length_fmap. by eapply lookup_lt_Some. }
    f_equal. unfold einsum_r_jr.
    rewrite (vnth_lookup _ j (dot (vscale (-2) Si) Sj))
      by (by rewrite list_lookup_fmap, HSj).
    apply dot_vscale_l.
Qed.

(** X10.  For spins that are +1 or -1: the self-correlation is -2, every
    correlation lies between -2 and 2, the diagonal of the fourth-order
    matrix is 4, and the trace that scales the regularization of the one-step
    estimate is not negative. *)
Theorem pm1_statistics (N T : nat) (S : matrix) (i : nat) :
  (1 ≤ T)%nat → (i < N)%nat → is_matrix N T S → pm1_valued S →
  ∃ Da,
    correlations S i = Ok Da
    ∧ vnth Da i = -2
    ∧ (∀ j, (j < N)%nat → -2 <= vnth Da j <= 2)
    ∧ (∀ j, (j < N)%nat → entry (correlations4 S i) j j = 4)
    ∧ 0 <= trace (K_nodiag
                    (mzip Rminus (correlations4 S i) (einsum_j_k Da Da)) i).
Proof.
  intros HT Hi HS Hpm.
  destruct (lookup_lt_is_Some_2 S i) as [Si HSi]; [destruct HS; lia|].
  assert (HshT : shape1 S = T) by (apply (is_matrix_shape1 N T); [done|lia]).
  assert (HTpos : 0 < INR T) by (apply lt_0_INR; lia).
  assert (Hrow : ∀ j Sj, S !! j = Some Sj →
            length Sj = T ∧ Forall (λ x, x = 1 ∨ x = -1) Sj).
  { intros j Sj HSj. split; [by eapply is_matrix_lookup|].
    by eapply (Forall_lookup_1 _ S j Sj) in Hpm. }
  destruct (Hrow i Si HSi) as [HlenSi HpmSi].
  set (Da := vdiv (einsum_r_jr (vscale (-2) Si) S) (INR (shape1 S))).
  assert (HDa : correlations S i = Ok Da)
    by (unfold correlations, get_row; by rewrite HSi).
  assert (HlenDa : length Da = N).
  { destruct (correlations_ok N T S i HS Hi) as (Da' & HDa' & Hl). congruence. }
  assert (Hval : ∀ j Sj, S !! j = Some Sj → vnth Da j = -2 * dot Si Sj / INR T).
  { intros j Sj HSj. rewrite <- HshT.
    by apply (vnth_correlations N T S i Si Sj j HS HSi HSj). }
  assert (Hbound : ∀ j, (j < N)%nat → -2 <= vnth Da j <= 2).
  { intros j Hj. destruct (lookup_lt_is_Some_2 S j) as [Sj HSj]; [destruct HS; lia|].
    destruct (Hrow j Sj HSj) as [HlenSj HpmSj].
    rewrite (Hval j Sj HSj).
    pose proof (dot_pm1_bound Si Sj HpmSi HpmSj ltac:(congruence)) as Hd.
    rewrite HlenSi in Hd. set (d := dot Si Sj) in *.
    assert (Hq : d = d / INR T * INR T) by (field; lra).
    set (q := d / INR T) in *.
    replace (-2 * d / INR T) with (-2 * q) by (unfold q; field; lra).
    assert (-1 <= q <= 1) by (split; nra). lra. }
  assert (Hdiag : ∀ j, (j < N)%nat → entry (correlations4 S i) j j = 4).
  { intros j Hj. destruct (lookup_lt_is_Some_2 S j) as [Sj HSj]; [destruct HS; lia|].
    destruct (Hrow j Sj HSj) as [HlenSj HpmSj].
    unfold correlations4. rewrite (entry_mdiv N N) by
      (done || (apply (is_matrix_matmul_T N N);
                  [unfold mscale; rewrite length_fmap|]; apply HS)).
    rewrite (entry_matmul_T _ _ j j (vscale 4 Sj) Sj)
      by (done || (unfold mscale; by rewrite list_lookup_fmap, HSj)).
    rewrite dot_vscale_l, dot_pm1_self, HlenSj, HshT by done. field. lra. }
  exists Da. split; [done|]. split; [|split; [done|split; [done|]]].
  - rewrite (Hval i Si HSi), dot_pm1_self, HlenSi by done. field. lra.
  - pose proof (is_matrix_einsum_j_k Da Da) as Hout. rewrite HlenDa in Hout.
    pose proof (is_matrix_correlations4 N T S i HS) as HK4.
    rewrite (trace_K_nodiag N) by (done || by apply is_matrix_mzip).
    apply vsum_vtab_nonneg. intros k Hk.
    assert (Hs : (skip i k < N)%nat) by (unfold skip; case_decide; lia).
    rewrite (entry_mzip Rminus N N) by done.
    rewrite Hdiag, entry_einsum_j_k by lia.
    pose proof (Hbound (skip i k) Hs). nra.
Qed.

Lemma pm1_statistics_witness :
  (1 ≤ 2)%nat ∧ (0 < 2)%nat ∧ is_matrix 2 2 [[1; -1]; [1; 1]]
  ∧ pm1_valued [[1; -1]; [1; 1]]
  ∧ ∃ Da,
      correlations [[1; -1]; [1; 1]] 0 = Ok Da
      ∧ vnth Da 0 = -2
      ∧ (∀ j, (j < 2)%nat → -2 <= vnth Da j <= 2)
      ∧ (∀ j, (j < 2)%nat → entry (correlations4 [[1; -1]; [1; 1]] 0) j j = 4)
      ∧ 0 <= trace (K_nodiag
                      (mzip Rminus (correlations4 [[1; -1]; [1; 1]] 0)
                         (einsum_j_k Da Da)) 0).
Proof.
  assert (Hm : is_matrix 2 2 [[1; -1]; [1; 1]]) by is_matrix_explicit.
  assert (Hpm : pm1_valued [[1; -1]; [1; 1]]).
  { repeat constructor; (by left) || (by right). }
  split; [lia|]. split; [lia|]. split; [exact Hm|]. split; [exact Hpm|].
  apply (pm1_statistics 2 2); [lia|lia|exact Hm|exact Hpm].
Defined.

(** ** Index removal, and the normalization constant *)

(** X11.  [remove_i] undoes the insertion of an entry at position [i], and it
    shortens a list by one when [i] is inside the range. *)
Theorem remove_i_insertion {A : Type} (l : list A) (x : A) (i : nat) :
  (i ≤ length l)%nat →
  remove_i (take i l ++ x :: drop i l) i = l
  ∧ length (remove_i (take i l ++ x :: drop i l) i)
    = (length (take i l ++ x :: drop i l) - 1)%nat.
Proof.
  intros Hi.
  assert (Hrt : remove_i (take i l ++ x :: drop i l) i = l).
  { apply list_eq. intros j. rewrite remove_i_lookup. case_decide.
    - rewrite lookup_app_l by (rewrite length_take; lia).
      rewrite lookup_take. by rewrite decide_True.
    - rewrite lookup_app_r by (rewrite length_take; lia).
      rewrite length_take.
      replace (S j - i `min` length l)%nat with (S (j - i)) by lia.
      simpl. rewrite lookup_drop. f_equal. lia. }
  split; [done|]. rewrite Hrt, length_app, length_take. simpl.
  rewrite length_drop. lia.
Qed.

Lemma remove_i_insertion_witness :
  (1 ≤ length ([10; 20; 30]%R : vector))%nat
  ∧ remove_i (take 1 [10; 20; 30] ++ 7 :: drop 1 [10; 20; 30]) 1 = [10; 20; 30]
  ∧ length (remove_i (take 1 [10; 20; 30] ++ 7 :: drop 1 [10; 20; 30]) 1)
    = (length (take 1 [10; 20; 30] ++ 7 :: drop 1 [10; 20; 30]) - 1)%nat.
Proof.
  split; [simpl; lia|].
  apply (remove_i_insertion [10; 20; 30] 7 1). simpl. lia.
Defined.

Lemma K_nodiag_out_of_range N (Ks : matrix) i :
  is_matrix N N Ks → (N ≤ i)%nat → K_nodiag Ks i = Ks.
Proof.
  intros [Hn Hm] Hi. unfold K_nodiag. rewrite length_remove_i_ge by lia.
  rewrite <- (list_fmap_id Ks) at 2. apply Forall_fmap_ext.
  eapply Forall_impl; [done|]. intros r Hr. simpl in *.
  apply length_remove_i_ge. lia.
Qed.

(** X12.  [K_nodiag] of a symmetric N by N matrix, for [i < N], is a symmetric
    matrix with one row and one column less. *)
Theorem K_nodiag_symmetric (N : nat) (Ks : matrix) (i : nat) :
  is_matrix N N Ks → symmetric N Ks → (i < N)%nat →
  is_matrix (N - 1) (N - 1) (K_nodiag Ks i)
  ∧ symmetric (N - 1) (K_nodiag Ks i).
Proof.
  intros HKs Hs Hi. split; [|by apply symmetric_K_nodiag].
  pose proof (is_matrix_K_nodiag N Ks i HKs) as H. by rewrite decide_True in H.
Qed.

Lemma K_nodiag_symmetric_witness :
  is_matrix 3 3 [[1; 2; 3]; [2; 4; 5]; [3; 5; 6]]
  ∧ symmetric 3 [[1; 2; 3]; [2; 4; 5]; [3; 5; 6]] ∧ (1 < 3)%nat
  ∧ is_matrix (3 - 1) (3 - 1) (K_nodiag [[1; 2; 3]; [2; 4; 5]; [3; 5; 6]] 1)
  ∧ symmetric (3 - 1) (K_nodiag [[1; 2; 3]; [2; 4; 5]; [3; 5; 6]] 1).
Proof.
  assert (Hm : is_matrix 3 3 [[1; 2; 3]; [2; 4; 5]; [3; 5; 6]])
    by is_matrix_explicit.
  assert (Hs : symmetric 3 [[1; 2; 3]; [2; 4; 5]; [3; 5; 6]]).
  { intros j k Hj Hk.
    destruct j as [|[|[|j]]]; [| | |lia];
      (destruct k as [|[|[|k]]]; [| | |lia]); reflexivity. }
  split; [exact Hm|]. split; [exact Hs|]. split; [lia|].
  apply (K_nodiag_symmetric 3); [exact Hm|exact Hs|lia].
Defined.

(** X13.  Slicing does not raise: with an index past the end nothing is removed,
    and [solve_linear_theta] solves the regularized system of all N
    unknowns. *)
Theorem solve_linear_theta_index_past_end
    (B : backend) (N : nat) (Da Da_th : vector) (Ks_th : matrix) (i : nat) :
  (N ≤ i)%nat → length Da = N → length Da_th = N → is_matrix N N Ks_th →
  remove_i Da i = Da
  ∧ K_nodiag Ks_th i = Ks_th
  ∧ calls B (solve_linear_theta Da Da_th Ks_th i)
    = [CallLstsq
         (mzip Rplus Ks_th (mscale (1e-4 * trace Ks_th / INR N) (eye N)))
         (zip_with Rminus Da Da_th)].
Proof.
  intros Hi HDa HDa_th HKs.
  assert (HrDa : remove_i Da i = Da) by (apply length_remove_i_ge; lia).
  assert (HrDa_th : remove_i Da_th i = Da_th) by (apply length_remove_i_ge; lia).
  pose proof (K_nodiag_out_of_range N Ks_th i HKs Hi) as HK.
  split; [done|]. split; [done|].
  rewrite (solve_linear_theta_unfold N) by done. simpl.
  rewrite HrDa, HrDa_th, HK. destruct HKs as [-> _]. done.
Qed.

Lemma solve_linear_theta_index_past_end_witness :
  (1 ≤ 5)%nat ∧ length [3] = 1%nat ∧ length [1] = 1%nat ∧ is_matrix 1 1 [[2]]
  ∧ remove_i [3] 5 = [3]
  ∧ K_nodiag [[2]] 5 = [[2]]
  ∧ calls scalar_backend (solve_linear_theta [3] [1] [[2]] 5)
    = [CallLstsq
         (mzip Rplus [[2]] (mscale (1e-4 * trace [[2]] / INR 1) (eye 1)))
         (zip_with Rminus [3] [1])].
Proof.
  assert (Hm : is_matrix 1 1 [[2]]) by is_matrix_explicit.
  split; [lia|]. split; [reflexivity|]. split; [reflexivity|]. split; [exact Hm|].
  apply (solve_linear_theta_index_past_end scalar_backend 1 [3] [1] [[2]] 5);
    [lia|reflexivity|reflexivity|exact Hm].
Defined.

Lemma vsum_exp_pos (v : vector) :
  (1 ≤ length v)%nat → 0 < vsum (exp <$> v).
Proof.
  unfold vsum. destruct v as [|x v]; simpl; [lia|]. intros _.
  assert (0 <= foldr Rplus 0 (exp <$> v)).
  { induction v as [|y v IH]; csimpl; [lra|]. pose proof (exp_pos y). lra. }
  pose proof (exp_pos x). change (list_fmap R R exp v) with (exp <$> v). lra.
Qed.

(** X14.  The two estimators of the normalization constant agree when the first
    version is given the number of samples: its [Z] is the exponential of the
    revised [log_norm_theta], and it is positive. *)
Theorem norm_theta_exp_log_norm_theta
    (N T : nat) (S : matrix) (theta : vector) (i : nat) :
  (1 ≤ T)%nat → (i < N)%nat → is_matrix N T S → length theta = (N - 1)%nat →
  ∃ Z lnZ,
    Multipartite.norm_theta S (INR T) theta i = Ok Z
    ∧ log_norm_theta S theta i = Ok lnZ
    ∧ Z = exp lnZ
    ∧ 0 < Z.
Proof.
  intros HT Hi HS Hth.
  destruct (thf_of_ok N T S theta i HS Hi Hth) as (Si & _ & HlenSi & Heq).
  set (thf := vmul (vscale (-2) Si)
                (vtab T (λ r, dot theta ((λ row, vnth row r) <$> remove_i S i)))) in *.
  assert (HshT : shape1 S = T) by (apply (is_matrix_shape1 N T); [done|lia]).
  assert (Hlenthf : length thf = T).
  { unfold thf, vmul, vscale. rewrite length_zip_with, length_fmap, length_vtab. lia. }
  assert (HTpos : 0 < INR T) by (apply lt_0_INR; lia).
  assert (Hs : 0 < vsum (exp <$> vneg thf)).
  { apply vsum_exp_pos. unfold vneg. rewrite length_fmap. lia. }
  exists (vsum (exp <$> vneg thf) / INR T),
    (logsumexp (vneg thf) - ln (INR (length thf))).
  split; [|split; [|split]].
  - unfold Multipartite.norm_theta. rewrite Heq, HshT. simpl. f_equal.
    unfold Rdiv. rewrite Rminus_diag. lra.
  - unfold log_norm_theta. by rewrite Heq.
  - unfold logsumexp. rewrite Hlenthf.
    rewrite <- (exp_ln (vsum (exp <$> vneg thf) / INR T)) at 1
      by (by apply Rdiv_lt_0_compat).
    f_equal. unfold Rdiv.
    rewrite ln_mult, ln_Rinv by (done || by apply Rinv_0_lt_compat). lra.
  - by apply Rdiv_lt_0_compat.
Qed.

Lemma norm_theta_exp_log_norm_theta_witness :
  (1 ≤ 2)%nat ∧ (0 < 2)%nat ∧ is_matrix 2 2 [[1; -1]; [1; 1]]
  ∧ length [3] = (2 - 1)%nat
  ∧ ∃ Z lnZ,
      Multipartite.norm_theta [[1; -1]; [1; 1]] (INR 2) [3] 0 = Ok Z
      ∧ log_norm_theta [[1; -1]; [1; 1]] [3] 0 = Ok lnZ
      ∧ Z = exp lnZ
      ∧ 0 < Z.
Proof.
  assert (Hm : is_matrix 2 2 [[1; -1]; [1; 1]]) by is_matrix_explicit.
  split; [lia|]. split; [lia|]. split; [exact Hm|]. split; [reflexivity|].
  apply (norm_theta_exp_log_norm_theta 2 2); [lia|lia|exact Hm|reflexivity].
Defined.

End Revised_estimator.

Section First_version.

(** ** The retry loop of the first version *)

Lemma solve_retry_step (B : backend) n (K : matrix) (rhs : vector) fuel epsilon :
  is_matrix n n K → length rhs = n →
  let M := mzip Rplus K (mscale epsilon (eye n)) in
  run B (Multipartite.solve_retry (S fuel) K rhs (eye n) epsilon)
  = match be_solve B M rhs with
    | Some x => Ok (Some x)
    | None => run B (Multipartite.solve_retry fuel K rhs (eye n) (epsilon * 10))
    end
  ∧ calls B (Multipartite.solve_retry (S fuel) K rhs (eye n) epsilon)
    = CallSolve M rhs
      :: match be_solve B M rhs with
         | Some _ => []
         | None => calls B (Multipartite.solve_retry fuel K rhs (eye n) (epsilon * 10))
         end.
Proof.
  intros HK Hrhs M. simpl.
  rewrite (mbroadcast_same Rplus n n);
    [|done|apply is_matrix_mscale, is_matrix_eye].
  simpl. unfold Multipartite.linalg_solve.
  assert (Hsq : is_matrix n n M).
  { apply is_matrix_mzip; [done|apply is_matrix_mscale, is_matrix_eye]. }
  fold M. rewrite decide_True.
  2:{ rewrite (shape1_square n) by done. destruct Hsq as [-> _]. done. }
  simpl. by destruct (be_solve B M rhs).
Qed.

Lemma retry_calls_shift {A} (F : R → A) epsilon k :
  F epsilon :: ((λ j, F (epsilon * 10 * 10 ^ j)) <$> seq 0 k)
  = (λ j, F (epsilon * 10 ^ j)) <$> seq 0 (S k).
Proof.
  change (seq 0 (S k)) with (0%nat :: seq 1 k). rewrite fmap_cons. f_equal.
  - f_equal. simpl. lra.
  - rewrite <- fmap_S_seq, <- list_fmap_compose. apply list_fmap_ext.
    intros _ j _. simpl. f_equal. lra.
Qed.

Lemma solve_retry_first_success (B : backend) n (K : matrix) (rhs x : vector) k :
  is_matrix n n K → length rhs = n →
  ∀ epsilon,
    (∀ j, (j < k)%nat →
       be_solve B (mzip Rplus K (mscale (epsilon * 10 ^ j) (eye n))) rhs = None) →
    be_solve B (mzip Rplus K (mscale (epsilon * 10 ^ k) (eye n))) rhs = Some x →
    ∀ fuel, (k < fuel)%nat →
      run B (Multipartite.solve_retry fuel K rhs (eye n) epsilon) = Ok (Some x)
      ∧ calls B (Multipartite.solve_retry fuel K rhs (eye n) epsilon)
        = (λ j, CallSolve (mzip Rplus K (mscale (epsilon * 10 ^ j) (eye n))) rhs)
          <$> seq 0 (S k).
Proof.
  intros HK Hrhs. induction k as [|k IH]; intros epsilon Hfail Hok fuel Hfuel;
    (destruct fuel as [|fuel]; [lia|]);
    destruct (solve_retry_step B n K rhs fuel epsilon HK Hrhs) as [Hrun Hcalls];
    rewrite Hrun, Hcalls.
  - replace (epsilon * 10 ^ 0) with epsilon in * by (simpl; lra).
    rewrite Hok. split; [done|].
    change (seq 0 1) with [0%nat]. rewrite fmap_cons, fmap_nil.
    by replace (epsilon * 10 ^ 0) with epsilon by (simpl; lra).
  - assert (Hstep : ∀ j, epsilon * 10 * 10 ^ j = epsilon * 10 ^ S j)
      by (intros j; simpl; lra).
    pose proof (Hfail 0%nat ltac:(lia)) as H0.
    replace (epsilon * 10 ^ 0) with epsilon in H0 by (simpl; lra).
    rewrite H0.
    destruct (IH (epsilon * 10)) with (fuel := fuel) as [Hrun' Hcalls'].
    + intros j Hj. rewrite Hstep. apply Hfail. lia.
    + by rewrite Hstep.
    + lia.
    + split; [done|]. rewrite Hcalls'.
      apply (retry_calls_shift
               (λ e, CallSolve (mzip Rplus K (mscale e (eye n))) rhs)).
Qed.

(** X15.  The retry loop of the first version returns the first solve that
    succeeds: attempt number [j] regularizes with [1e-6 * 10^j], and when the
    attempts before number [k] fail and that one succeeds, its solution is
    returned after [k + 1] calls. *)
Theorem first_version_returns_first_success
    (B : backend) (N : nat) (Da Da_th : vector) (Ks_th : matrix) (i k : nat)
    (x : vector) :
  length Da = N → length Da_th = N → is_matrix N N Ks_th →
  let K := Multipartite.K_nodiag Ks_th i in
  let rhs := zip_with Rminus (Multipartite.remove_i Da i)
               (Multipartite.remove_i Da_th i) in
  let M := λ j : nat, mzip Rplus K (mscale (1e-6 * 10 ^ j) (eye (length K))) in
  (∀ j, (j < k)%nat → be_solve B (M j) rhs = None) →
  be_solve B (M k) rhs = Some x →
  ∀ fuel, (k < fuel)%nat →
    run B (Multipartite.solve_linear_theta fuel Da Da_th Ks_th i) = Ok (Some x)
    ∧ calls B (Multipartite.solve_linear_theta fuel Da Da_th Ks_th i)
      = (λ j, CallSolve (M j) rhs) <$> seq 0 (S k).
Proof.
  intros HDa HDa_th HKs K rhs M Hfail Hok fuel Hfuel.
  pose proof (is_matrix_K_nodiag N Ks_th i HKs) as HK.
  set (n := if decide (i < N)%nat then (N - 1)%nat else N) in HK.
  assert (HlenK : length K = n) by apply HK.
  unfold Multipartite.solve_linear_theta, Multipartite.remove_i,
    Multipartite.K_nodiag.
  rewrite vbroadcast_same.
  2:{ rewrite !length_remove_i_gen, HDa, HDa_th. done. }
  simpl. rewrite (shape1_square n) by done.
  unfold M in *. rewrite HlenK in *.
  apply (solve_retry_first_success B n); try done.
  unfold rhs, Multipartite.remove_i.
  rewrite length_zip_with, !length_remove_i_gen, HDa, HDa_th. fold n. lia.
Qed.

Lemma first_version_returns_first_success_witness :
  length ([0; 3] : vector) = 2%nat ∧ length ([0; 1] : vector) = 2%nat
  ∧ is_matrix 2 2 [[0; 0]; [0; -1e-6]]
  ∧ ∃ x, ∀ fuel, (1 < fuel)%nat →
      run scalar_backend
        (Multipartite.solve_linear_theta fuel [0; 3] [0; 1] [[0; 0]; [0; -1e-6]] 0)
      = Ok (Some x)
      ∧ length (calls scalar_backend
                  (Multipartite.solve_linear_theta fuel [0; 3] [0; 1]
                     [[0; 0]; [0; -1e-6]] 0)) = 2%nat.
Proof.
  assert (Hm : is_matrix 2 2 [[0; 0]; [0; -1e-6]]) by is_matrix_explicit.
  split; [reflexivity|]. split; [reflexivity|]. split; [exact Hm|].
  exists [(3 - 1) / (-1e-6 + 1e-6 * 10 ^ 1 * 1)]. intros fuel Hfuel.
  pose proof (first_version_returns_first_success scalar_backend 2
                [0; 3] [0; 1] [[0; 0]; [0; -1e-6]] 0 1
                [(3 - 1) / (-1e-6 + 1e-6 * 10 ^ 1 * 1)]
                eq_refl eq_refl Hm) as H.
  cbv zeta in H.
  destruct (H) with (fuel := fuel) as [Hrun Hcalls]; [| |exact Hfuel|].
  - intros j Hj. assert (j = 0%nat) as -> by lia.
    tensor_compute. unfold Multipartite.K_nodiag, Multipartite.remove_i, solve_1x1.
    tensor_compute.
    destruct (Req_dec_T _ _) as [H0|H0]; [reflexivity|exfalso; apply H0; lra].
  - tensor_compute. unfold Multipartite.K_nodiag, Multipartite.remove_i, solve_1x1.
    tensor_compute.
    destruct (Req_dec_T _ _) as [H0|H0]; [exfalso; lra|reflexivity].
  - split; [exact Hrun|]. rewrite Hcalls. reflexivity.
Defined.

(** ** The estimates of the first version *)

Lemma matmul_vm_length T (a : vector) (M : matrix) v :
  matmul_vm T a M = Ok v → length a = length M.
Proof. unfold matmul_vm. by case_decide. Qed.

Lemma thf_of_length (S : matrix) (theta : vector) i thf :
  Multipartite2.thf_of S theta i = Ok thf →
  (i < length S)%nat ∧ length theta = (length S - 1)%nat.
Proof.
  unfold Multipartite2.thf_of, get_row.
  destruct (S !! i) as [Si|] eqn:Hrow; [|done]. simpl.
  destruct (matmul_vm _ _ _) as [v|e] eqn:Hmm; [|done]. intros _.
  apply lookup_lt_Some in Hrow. split; [done|].
  apply matmul_vm_length in Hmm. rewrite Hmm.
  apply length_remove_i. done.
Qed.

(** X16.  Whatever the solver, a result [(sig_N1, sig_MTUR, theta, Da)] of the
    first version's [get_EP_Newton] has [Da] equal to [correlations S T i],
    with entry [i] zero, one parameter per other spin, [sig_MTUR] the dot
    product of [theta] with [Da] without entry [i], and
    [sig_N1 = sig_MTUR - ln Z] for [Z = norm_theta S T theta i]. *)
Theorem first_version_get_EP_Newton_result
    (B : backend) (fuel : nat) (S : matrix) (T : R) (i : nat)
    (sig_N1 sig_MTUR : R) (theta Da : vector) :
  run B (Multipartite.get_EP_Newton fuel S T i)
  = Ok (Some (sig_N1, sig_MTUR, theta, Da)) →
  Multipartite.correlations S T i = Ok Da
  ∧ vnth Da i = 0
  ∧ length theta = (length S - 1)%nat
  ∧ sig_MTUR = dot theta (Multipartite.remove_i Da i)
  ∧ ∃ Z, Multipartite.norm_theta S T theta i = Ok Z
         ∧ sig_N1 = sig_MTUR - ln Z.
Proof.
  unfold Multipartite.get_EP_Newton. cbv zeta.
  rewrite run_bind, run_lift.
  destruct (Multipartite.correlations S T i) as [Da'|e] eqn:HDa; [|done]. simpl.
  rewrite run_bind, run_lift.
  destruct (Multipartite.correlations4 S T i) as [Ks|e] eqn:HKs; [|done]. simpl.
  rewrite run_bind.
  destruct (run B (Multipartite.solve_linear_theta _ _ _ _ _)) as [[theta'|]|e];
    [|done..]. simpl.
  rewrite run_bind, run_lift.
  destruct (vbroadcast Rmult theta' _) as [prod|e] eqn:Hprod; [|done]. simpl.
  rewrite run_bind, run_lift.
  destruct (Multipartite.norm_theta S T theta' i) as [Z|e] eqn:HZ; [|done]. simpl.
  intros [= <- <- <- <-].
  assert (Hlen : (i < length S)%nat ∧ length theta' = (length S - 1)%nat).
  { unfold Multipartite.norm_theta in HZ. cbv zeta in HZ.
    destruct (Multipartite2.thf_of S theta' i) as [thf|e] eqn:Hthf; [|done].
    by apply thf_of_length in Hthf. }
  destruct Hlen as [Hi Hth].
  assert (HlenDa : length Da' = length S ∧ vnth Da' i = 0).
  { unfold Multipartite.correlations, get_row in HDa.
    destruct (S !! i) as [Si|]; [|done]. simpl in HDa.
    unfold Multipartite.setitem in HDa. case_decide as Hlt; [|done].
    injection HDa as <-. split.
    - rewrite length_insert. unfold vdiv, einsum_r_jr. by rewrite !length_fmap.
    - apply vnth_lookup. by apply list_lookup_insert_eq. }
  destruct HlenDa as [HlenDa Hzero].
  assert (Hdot : vsum prod = dot theta' (Multipartite.remove_i Da' i)).
  { rewrite vbroadcast_same in Hprod
      by (unfold Multipartite.remove_i; rewrite length_remove_i; lia).
    by injection Hprod as <-. }
  split; [done|]. split; [done|]. split; [done|]. split; [done|].
  exists Z. by rewrite Hdot.
Qed.

Lemma first_version_get_EP_Newton_result_witness :
  ∃ sig_N1 sig_MTUR theta Da,
    run scalar_backend (Multipartite.get_EP_Newton 1 [[1]; [1]] 1 0)
    = Ok (Some (sig_N1, sig_MTUR, theta, Da))
    ∧ Multipartite.correlations [[1]; [1]] 1 0 = Ok Da
    ∧ vnth Da 0 = 0
    ∧ length theta = (length ([[1]; [1]]%R : matrix) - 1)%nat
    ∧ sig_MTUR = dot theta (Multipartite.remove_i Da 0)
    ∧ ∃ Z, Multipartite.norm_theta [[1]; [1]] 1 theta 0 = Ok Z
           ∧ sig_N1 = sig_MTUR - ln Z.
Proof.
  assert (Hrun : ∃ r, run scalar_backend
                        (Multipartite.get_EP_Newton 1 [[1]; [1]] 1 0)
                      = Ok (Some r)).
  { unfold Multipartite.get_EP_Newton, Multipartite.correlations,
      Multipartite.correlations4, Multipartite.setitem, Multipartite.zero_row,
      Multipartite.zero_col, Multipartite.solve_linear_theta,
      Multipartite.solve_retry, Multipartite.linalg_solve,
      Multipartite.norm_theta, Multipartite.K_nodiag, Multipartite.remove_i,
      matmul_T.
    tensor_compute.
    destruct (Req_dec_T _ _) as [H0|H0]; [exfalso; lra|].
    tensor_compute. eexists. reflexivity. }
  destruct Hrun as ([[[sig_N1 sig_MTUR] theta] Da] & Hrun).
  exists sig_N1, sig_MTUR, theta, Da. split; [exact Hrun|].
  exact (first_version_get_EP_Newton_result scalar_backend 1 [[1]; [1]] 1 0
           sig_N1 sig_MTUR theta Da Hrun).
Defined.

(** ** The Newton-Raphson step of the first version, from zero *)

Lemma first_version_statistics_at_zero (N m : nat) (S : matrix) (T : R) (i : nat) :
  is_matrix N m S → (i < N)%nat →
  Multipartite.correlations_theta S T (replicate (N - 1) 0) i
  = (Da ← Multipartite.correlations S T i; Ok (vneg Da))
  ∧ Multipartite.correlations4_theta S T (replicate (N - 1) 0) i
    = Multipartite.correlations4 S T i.
Proof.
  intros HS Hi.
  destruct (get_row_is_matrix N m S i HS Hi) as (Si & Hrow & _ & HlenSi).
  split.
  - unfold Multipartite.correlations_theta, Multipartite.correlations.
    rewrite (thf_of_zero N m) by done. simpl. rewrite Hrow. simpl.
    rewrite exp_vneg_zeros.
    rewrite vmul_replicate_1_r
      by (unfold vneg, vscale; by rewrite !length_fmap).
    rewrite einsum_r_jr_vneg, vdiv_vneg.
    unfold Multipartite.setitem, vneg. rewrite length_fmap.
    case_decide; [|done]. simpl. f_equal.
    by rewrite list_fmap_insert, Ropp_0.
  - unfold Multipartite.correlations4_theta, Multipartite.correlations4.
    rewrite (thf_of_zero N m) by done. simpl. rewrite exp_vneg_zeros.
    assert (Heq : vmul (vscale 4 (replicate m 1)) <$> S = mscale 4 S).
    { unfold mscale. apply Forall_fmap_ext.
      destruct HS as [_ HS]. eapply Forall_impl; [done|]. intros r Hr. simpl in *.
      unfold vscale at 1. rewrite fmap_replicate, Rmult_1_r.
      unfold vmul, vscale. clear -Hr. subst m.
      induction r as [|x r IH]; csimpl; [done|]. by rewrite IH. }
    by rewrite Heq.
Qed.

Lemma norm_theta_at_zero (N m : nat) (S : matrix) (T : R) (i : nat) :
  is_matrix N m S → (i < N)%nat → T ≠ 0 →
  Multipartite.norm_theta S T (replicate (N - 1) 0) i = Ok 1.
Proof.
  intros HS Hi HT. unfold Multipartite.norm_theta.
  rewrite (thf_of_zero N m) by done. simpl. f_equal.
  rewrite exp_vneg_zeros, vsum_replicate.
  rewrite (is_matrix_shape1 N m) by (done || lia). by field.
Qed.

(** X26.  With [theta_lin = 0] the Newton-Raphson step of the first version
    returns the one-step estimate, for every number of repetitions [T] other
    than zero: at [theta = 0] the normalization constant is 1 whatever the
    number of columns. *)
Theorem first_version_get_EP_Newton2_from_zero
    (B : backend) (fuel N m : nat) (S : matrix) (T : R) (i : nat)
    (sig_N1 sig_MTUR : R) (theta Da : vector) :
  is_matrix N m S → (i < N)%nat → T ≠ 0 →
  run B (Multipartite.get_EP_Newton fuel S T i)
  = Ok (Some (sig_N1, sig_MTUR, theta, Da)) →
  Multipartite.norm_theta S T (replicate (N - 1) 0) i = Ok 1
  ∧ run B (Multipartite.get_EP_Newton2 fuel S T (replicate (N - 1) 0) Da i)
    = Ok (Some (sig_N1, theta)).
Proof.
  intros HS Hi HT Hrun.
  pose proof (norm_theta_at_zero N m S T i HS Hi HT) as HZ0.
  split; [done|].
  destruct (first_version_statistics_at_zero N m S T i HS Hi) as [HDa_th HKs_th].
  pose proof HS as [HlenS _].
  revert Hrun. unfold Multipartite.get_EP_Newton, Multipartite.get_EP_Newton2.
  cbv zeta.
  rewrite !(run_bind B (lift _)), !run_lift, HDa_th, HKs_th.
  destruct (Multipartite.correlations S T i) as [Da'|e] eqn:HDa; [|done]. simpl.
  rewrite !(run_bind B (lift _)), !run_lift.
  destruct (Multipartite.correlations4 S T i) as [Ks|e] eqn:HKs; [|done]. simpl.
  rewrite !(run_bind B (lift _)), !run_lift, HZ0. simpl.
  rewrite vdiv_1, mdiv_1, einsum_j_k_vneg.
  rewrite !(run_bind B (Multipartite.solve_linear_theta _ _ _ _ _)).
  destruct (run B (Multipartite.solve_linear_theta fuel Da' _ _ i))
    as [[theta'|]|e] eqn:Hsolve; [|done..]. simpl.
  rewrite run_bind, run_lift.
  destruct (vbroadcast Rmult theta' _) as [prod|e] eqn:Hprod; [|done]. simpl.
  rewrite run_bind, run_lift.
  destruct (Multipartite.norm_theta S T theta' i) as [Z|e] eqn:HZ; [|done]. simpl.
  intros [= <- <- <- <-].
  rewrite Hsolve. simpl.
  assert (Hth : length theta' = (N - 1)%nat).
  { unfold Multipartite.norm_theta in HZ. cbv zeta in HZ.
    destruct (Multipartite2.thf_of S theta' i) as [thf|e] eqn:Hthf; [|done].
    apply thf_of_length in Hthf. lia. }
  rewrite run_bind, run_lift.
  rewrite vbroadcast_same by (by rewrite length_replicate). simpl.
  rewrite <- Hth, zip_with_plus_zero_l.
  rewrite run_bind, run_lift, Hprod. simpl.
  rewrite run_bind, run_lift, HZ. simpl. done.
Qed.

Lemma first_version_get_EP_Newton2_from_zero_witness :
  is_matrix 2 1 [[1]; [1]] ∧ (0 < 2)%nat ∧ 1 ≠ 0
  ∧ ∃ sig_N1 sig_MTUR theta Da,
      run scalar_backend (Multipartite.get_EP_Newton 1 [[1]; [1]] 1 0)
      = Ok (Some (sig_N1, sig_MTUR, theta, Da))
      ∧ Multipartite.norm_theta [[1]; [1]] 1 (replicate (2 - 1) 0) 0 = Ok 1
      ∧ run scalar_backend
          (Multipartite.get_EP_Newton2 1 [[1]; [1]] 1 (replicate (2 - 1) 0) Da 0)
        = Ok (Some (sig_N1, theta)).
Proof.
  assert (Hm : is_matrix 2 1 [[1]; [1]]) by is_matrix_explicit.
  assert (H1 : 1 ≠ 0) by lra.
  split; [exact Hm|]. split; [lia|]. split; [exact H1|].
  assert (Hrun : ∃ r, run scalar_backend
                        (Multipartite.get_EP_Newton 1 [[1]; [1]] 1 0)
                      = Ok (Some r)).
  { unfold Multipartite.get_EP_Newton, Multipartite.correlations,
      Multipartite.correlations4, Multipartite.setitem, Multipartite.zero_row,
      Multipartite.zero_col, Multipartite.solve_linear_theta,
      Multipartite.solve_retry, Multipartite.linalg_solve,
      Multipartite.norm_theta, Multipartite.K_nodiag, Multipartite.remove_i,
      matmul_T.
    tensor_compute.
    destruct (Req_dec_T _ _) as [H0|H0]; [exfalso; lra|].
    tensor_compute. eexists. reflexivity. }
  destruct Hrun as ([[[sig_N1 sig_MTUR] theta] Da] & Hrun).
  exists sig_N1, sig_MTUR, theta, Da. split; [exact Hrun|].
  exact (first_version_get_EP_Newton2_from_zero scalar_backend 1 2 1
           [[1]; [1]] 1 0 sig_N1 sig_MTUR theta Da Hm ltac:(lia) H1 Hrun).
Defined.

End First_version.

Section MaxEnt_fit.
Import Parallel.

(** ** The objective on identical sample matrices *)

Lemma vsum_app (a b : vector) : vsum (a ++ b) = vsum a + vsum b.
Proof. unfold vsum. induction a as [|x a IH]; csimpl; [lra|]. rewrite IH. lra. Qed.

Lemma vtab_S n f : vtab (S n) f = vtab n f ++ [f n].
Proof. unfold vtab. by rewrite seq_S, fmap_app. Qed.

Lemma vsum_vtab_S n f : vsum (vtab (S n) f) = vsum (vtab n f) + f n.
Proof. rewrite vtab_S, vsum_app. unfold vsum. simpl. lra. Qed.

Lemma vsum_vtab_ext n f g :
  (∀ k, (k < n)%nat → f k = g k) → vsum (vtab n f) = vsum (vtab n g).
Proof. intros H. by rewrite (vtab_ext n f g). Qed.

Lemma vsum_vtab_plus n f g :
  vsum (vtab n (λ k, f k + g k)) = vsum (vtab n f) + vsum (vtab n g).
Proof.
  induction n as [|n IH]; [unfold vtab, vsum; simpl; lra|].
  rewrite !vsum_vtab_S, IH. lra.
Qed.

Lemma vsum_vtab_scale n c f :
  vsum (vtab n (λ k, c * f k)) = c * vsum (vtab n f).
Proof.
  induction n as [|n IH]; [unfold vtab, vsum; simpl; lra|].
  rewrite !vsum_vtab_S, IH. lra.
Qed.

Lemma vsum_vtab_opp n f : vsum (vtab n (λ k, - f k)) = - vsum (vtab n f).
Proof.
  induction n as [|n IH]; [unfold vtab, vsum; simpl; lra|].
  rewrite !vsum_vtab_S, IH. lra.
Qed.

Lemma vsum_vtab_zero n : vsum (vtab n (λ _, 0)) = 0.
Proof. rewrite vtab_const, vsum_replicate. lra. Qed.

Lemma vsum_vtab_swap n m (G : nat → nat → R) :
  vsum (vtab n (λ i, vsum (vtab m (λ j, G i j))))
  = vsum (vtab m (λ j, vsum (vtab n (λ i, G i j)))).
Proof.
  induction n as [|n IH].
  - transitivity (vsum (vtab m (λ _, 0))); [by rewrite vsum_vtab_zero|].
    by apply vsum_vtab_ext.
  - rewrite vsum_vtab_S, IH, <- vsum_vtab_plus.
    apply vsum_vtab_ext. intros j _. by rewrite vsum_vtab_S.
Qed.

(** A quadratic form with an antisymmetric matrix vanishes. *)
Lemma quadratic_form_antisymmetric n (D : nat → nat → R) (s : nat → R) :
  (∀ i j, (i < n)%nat → (j < n)%nat → D i j = - D j i) →
  vsum (vtab n (λ i, s i * vsum (vtab n (λ j, D i j * s j)))) = 0.
Proof.
  intros HD.
  set (Q := vsum (vtab n (λ i, s i * vsum (vtab n (λ j, D i j * s j))))).
  assert (H1 : Q = vsum (vtab n (λ i, vsum (vtab n (λ j, s i * (D i j * s j)))))).
  { apply vsum_vtab_ext. intros i _. by rewrite vsum_vtab_scale. }
  assert (H2 : vsum (vtab n (λ i, vsum (vtab n (λ j, s i * (D i j * s j))))) = - Q).
  { rewrite vsum_vtab_swap. unfold Q. rewrite <- vsum_vtab_opp.
    apply vsum_vtab_ext. intros j Hj.
    rewrite <- vsum_vtab_scale, <- vsum_vtab_opp.
    apply vsum_vtab_ext. intros i Hi. rewrite (HD i j) by done. lra. }
  lra.
Qed.

Lemma dot_vtab n (a b : vector) :
  length a = n → length b = n →
  dot a b = vsum (vtab n (λ j, vnth a j * vnth b j)).
Proof.
  intros Ha Hb. unfold dot, vmul. f_equal. apply vector_ext.
  - rewrite length_zip_with, length_vtab. lia.
  - rewrite length_zip_with. intros k Hk.
    rewrite vnth_zip_with, vnth_vtab by lia. done.
Qed.

Lemma column_vtab n (M : matrix) r :
  length M = n → (λ row, vnth row r) <$> M = vtab n (λ j, entry M j r).
Proof.
  intros Hn. apply vector_ext; [by rewrite length_fmap, length_vtab|].
  rewrite length_fmap. intros k Hk. rewrite vnth_vtab by lia.
  destruct (lookup_lt_is_Some_2 M k) as [row Hrow]; [lia|].
  rewrite (entry_lookup M k row r Hrow). apply vnth_lookup.
  by rewrite list_lookup_fmap, Hrow.
Qed.

Lemma is_matrix_matmul n T (A C : matrix) :
  length A = n → is_matrix n T (matmul T A C).
Proof.
  intros Hn. unfold matmul. split; [by rewrite length_fmap|].
  apply Forall_fmap, Forall_forall. intros ra _. simpl. apply length_vtab.
Qed.

Lemma entry_matmul n T (A C : matrix) j r :
  is_matrix n n A → length C = n → (j < n)%nat → (r < T)%nat →
  entry (matmul T A C) j r = vsum (vtab n (λ k, entry A j k * entry C k r)).
Proof.
  intros HA HC Hj Hr.
  destruct (lookup_lt_is_Some_2 A j) as [ra Hra]; [destruct HA; lia|].
  pose proof (is_matrix_lookup _ _ _ _ _ HA Hra) as Hlen.
  unfold matmul.
  rewrite (entry_lookup _ j
             (vtab T (λ r, dot ra ((λ row, vnth row r) <$> C))) r)
    by (by rewrite list_lookup_fmap, Hra).
  rewrite vnth_vtab by done.
  rewrite (dot_vtab n) by (done || by rewrite length_fmap).
  apply vsum_vtab_ext. intros k Hk. f_equal.
  - by rewrite (entry_lookup A j ra k Hra).
  - rewrite (column_vtab n) by done. by rewrite vnth_vtab.
Qed.

Lemma forward_tail_zero (N T : nat) :
  (1 ≤ T)%nat →
  (thf_min ← vmin (replicate T 0);
   Ok ((vmean (replicate T 0) + thf_min
        - ln (vmean (exp <$> ((λ x, - x + thf_min) <$> replicate T 0)))) / INR N))
  = Ok 0.
Proof.
  intros HT. rewrite vmin_replicate by done. simpl. f_equal.
  rewrite !fmap_replicate, !vmean_replicate by done.
  replace (- 0 + 0) with 0 by lra. rewrite exp_0, ln_1. unfold Rdiv. lra.
Qed.

(** X17.  When the two sample matrices are the same, the objective is 0 whatever
    the parameters. *)
Theorem forward_same_samples (N T : nat) (theta : vector) (S : matrix) :
  (1 ≤ N)%nat → (1 ≤ T)%nat → is_matrix N T S →
  length theta = (N * (N - 1) / 2)%nat →
  forward theta S S = Ok 0.
Proof.
  intros HN HT HS Hth.
  destruct (forward_th_upper_triangular N theta Hth) as (th & Hfth & Hshape & _ & _ & Hanti).
  pose proof HS as [HlenS _].
  unfold forward. rewrite HlenS, Hfth. simpl.
  rewrite (is_matrix_shape1 N T S) by (done || lia).
  set (D := mzip Rminus th (transpose th)) in *.
  assert (HD : is_matrix N N D)
    by (apply is_matrix_mzip; [done|by apply is_matrix_transpose]).
  assert (HthS : is_matrix N T (matmul T D S))
    by (apply is_matrix_matmul; apply HD).
  rewrite (mbroadcast_same Rmult N T) by done. simpl.
  assert (Hprod : is_matrix N T (mzip Rmult S (matmul T D S)))
    by (by apply is_matrix_mzip).
  rewrite (is_matrix_shape1 N T _ Hprod) by lia.
  assert (Hzero : sum_axis0 T (mzip Rmult S (matmul T D S)) = replicate T 0).
  { unfold sum_axis0. rewrite <- vtab_const. apply vtab_ext. intros r Hr.
    rewrite (column_vtab N) by apply Hprod.
    rewrite (vsum_vtab_ext N _
               (λ j, entry S j r * vsum (vtab N (λ k, entry D j k * entry S k r)))).
    - by apply quadratic_form_antisymmetric.
    - intros j Hj. rewrite (entry_mzip Rmult N T) by done.
      by rewrite (entry_matmul N T) by done. }
  rewrite Hzero. by apply forward_tail_zero.
Qed.

Lemma forward_same_samples_witness :
  (1 ≤ 2)%nat ∧ (1 ≤ 2)%nat ∧ is_matrix 2 2 [[1; -1]; [1; 1]]
  ∧ length ([3] : vector) = (2 * (2 - 1) / 2)%nat
  ∧ forward [3] [[1; -1]; [1; 1]] [[1; -1]; [1; 1]] = Ok 0.
Proof.
  assert (Hm : is_matrix 2 2 [[1; -1]; [1; 1]]) by is_matrix_explicit.
  split; [lia|]. split; [lia|]. split; [exact Hm|]. split; [reflexivity|].
  apply (forward_same_samples 2 2); [lia|lia|exact Hm|reflexivity].
Defined.

(** ** The stabilized logarithm, and the errors of the objective *)

Lemma vsum_scale c (v : vector) : vsum (Rmult c <$> v) = c * vsum v.
Proof. unfold vsum. induction v as [|x v IH]; csimpl; [lra|]. rewrite IH. lra. Qed.

(** The shift by the minimum inside the exponential cancels. *)
Lemma log_mean_exp_shift (v : vector) (m : R) :
  (1 ≤ length v)%nat →
  m - ln (vmean (exp <$> ((λ x, - x + m) <$> v)))
  = - ln (vmean (exp <$> vneg v)).
Proof.
  intros Hlen.
  assert (Hn : 0 < INR (length v)) by (apply lt_0_INR; lia).
  assert (Hs : 0 < vsum (exp <$> vneg v))
    by (apply vsum_exp_pos; unfold vneg; by rewrite length_fmap).
  assert (Heq : exp <$> ((λ x, - x + m) <$> v) = Rmult (exp m) <$> (exp <$> vneg v)).
  { unfold vneg. rewrite <- !list_fmap_compose. apply list_fmap_ext.
    intros _ x _. simpl. rewrite exp_plus. lra. }
  unfold vmean. rewrite Heq, vsum_scale, !length_fmap.
  unfold vneg. rewrite !length_fmap. fold (vneg v).
  unfold Rdiv. rewrite Rmult_assoc, ln_mult, ln_exp.
  - lra.
  - apply exp_pos.
  - apply Rmult_lt_0_compat; [done|by apply Rinv_0_lt_compat].
Qed.

Lemma vmin_is_Ok (v : vector) : (1 ≤ length v)%nat → ∃ m, vmin v = Ok m.
Proof. destruct v; simpl; [lia|eauto]. Qed.

(** X18.  The value of the objective without the stabilization: the mean of
    [thf_odd] minus the logarithm of the mean of [exp(-thf_odd)], over N. *)
Theorem forward_unstabilized (N T : nat) (theta : vector) (S S1 : matrix) :
  (1 ≤ N)%nat → (1 ≤ T)%nat → is_matrix N T S → is_matrix N T S1 →
  length theta = (N * (N - 1) / 2)%nat →
  ∃ th,
    forward_th theta N = Ok th
    ∧ let thf_odd :=
        sum_axis0 T (mzip Rmult S1 (matmul T (mzip Rminus th (transpose th)) S)) in
      forward theta S S1
      = Ok ((vmean thf_odd - ln (vmean (exp <$> vneg thf_odd))) / INR N).
Proof.
  intros HN HT HS HS1 Hth.
  destruct (forward_th_upper_triangular N theta Hth) as (th & Hfth & Hshape & _).
  exists th. split; [done|]. intros thf_odd.
  pose proof HS as [HlenS _].
  unfold forward. rewrite HlenS, Hfth. simpl.
  rewrite (is_matrix_shape1 N T S) by (done || lia).
  set (D := mzip Rminus th (transpose th)) in *.
  assert (HD : is_matrix N N D)
    by (apply is_matrix_mzip; [done|by apply is_matrix_transpose]).
  assert (HthS : is_matrix N T (matmul T D S))
    by (apply is_matrix_matmul; apply HD).
  rewrite (mbroadcast_same Rmult N T) by done. simpl.
  assert (Hprod : is_matrix N T (mzip Rmult S1 (matmul T D S)))
    by (by apply is_matrix_mzip).
  rewrite (is_matrix_shape1 N T _ Hprod) by lia. fold thf_odd.
  assert (Hlen : length thf_odd = T) by apply length_vtab.
  destruct (vmin_is_Ok thf_odd) as [m Hm]; [lia|]. rewrite Hm. simpl. f_equal.
  pose proof (log_mean_exp_shift thf_odd m ltac:(lia)) as Hshift.
  f_equal. lra.
Qed.

Lemma forward_unstabilized_witness :
  (1 ≤ 2)%nat ∧ (1 ≤ 2)%nat ∧ is_matrix 2 2 [[1; -1]; [1; 1]]
  ∧ is_matrix 2 2 [[-1; 1]; [1; 1]]
  ∧ length ([3] : vector) = (2 * (2 - 1) / 2)%nat
  ∧ ∃ th,
      forward_th [3] 2 = Ok th
      ∧ let thf_odd :=
          sum_axis0 2 (mzip Rmult [[-1; 1]; [1; 1]]
                         (matmul 2 (mzip Rminus th (transpose th))
                            [[1; -1]; [1; 1]])) in
        forward [3] [[1; -1]; [1; 1]] [[-1; 1]; [1; 1]]
        = Ok ((vmean thf_odd - ln (vmean (exp <$> vneg thf_odd))) / INR 2).
Proof.
  assert (Hm : is_matrix 2 2 [[1; -1]; [1; 1]]) by is_matrix_explicit.
  assert (Hm1 : is_matrix 2 2 [[-1; 1]; [1; 1]]) by is_matrix_explicit.
  split; [lia|]. split; [lia|]. split; [exact Hm|]. split; [exact Hm1|].
  split; [reflexivity|].
  apply (forward_unstabilized 2 2); [lia|lia|exact Hm|exact Hm1|reflexivity].
Defined.

(** X19.  With at least one spin and no sample at all, [torch.min] has nothing to
    reduce: [forward] raises. *)
Theorem forward_no_samples (N : nat) (theta : vector) (S S1 : matrix) :
  (1 ≤ N)%nat → is_matrix N 0 S → is_matrix N 0 S1 →
  length theta = (N * (N - 1) / 2)%nat →
  forward theta S S1 = Raise RuntimeError.
Proof.
  intros HN HS HS1 Hth.
  destruct (forward_th_upper_triangular N theta Hth) as (th & Hfth & Hshape & _).
  pose proof HS as [HlenS _].
  unfold forward. rewrite HlenS, Hfth. simpl.
  rewrite (is_matrix_shape1 N 0 S) by (done || lia).
  set (D := mzip Rminus th (transpose th)) in *.
  assert (HthS : is_matrix N 0 (matmul 0 D S)).
  { apply is_matrix_matmul. unfold D, mzip.
    rewrite length_zip_with. unfold transpose.
    rewrite length_mtab, (shape1_square N) by done. destruct Hshape; lia. }
  rewrite (mbroadcast_same Rmult N 0) by done. simpl.
  assert (Hprod : is_matrix N 0 (mzip Rmult S1 (matmul 0 D S)))
    by (by apply is_matrix_mzip).
  by rewrite (is_matrix_shape1 N 0 _ Hprod) by lia.
Qed.

Lemma forward_no_samples_witness :
  (1 ≤ 2)%nat ∧ is_matrix 2 0 [[]; []]
  ∧ length ([3] : vector) = (2 * (2 - 1) / 2)%nat
  ∧ forward [3] [[]; []] [[]; []] = Raise RuntimeError.
Proof.
  assert (Hm : is_matrix 2 0 [[]; []]) by is_matrix_explicit.
  split; [lia|]. split; [exact Hm|]. split; [reflexivity|].
  apply (forward_no_samples 2); [lia|exact Hm|exact Hm|reflexivity].
Defined.

(** X20.  A parameter vector that has neither one entry per pair of spins nor a
    single entry cannot be assigned above the diagonal: [forward] raises
    before it reads the samples. *)
Theorem forward_parameter_shape_error (theta : vector) (S S1 : matrix) :
  length theta ≠ (length S * (length S - 1) / 2)%nat →
  length theta ≠ 1%nat →
  forward theta S S1 = Raise RuntimeError.
Proof.
  intros Hth Hth1.
  unfold forward, forward_th, index_put. rewrite length_triu_indices.
  by rewrite !decide_False.
Qed.

Lemma forward_parameter_shape_error_witness :
  length ([3; 4] : vector)
  ≠ (length ([[1; -1]; [1; 1]]%R : matrix)
     * (length ([[1; -1]; [1; 1]]%R : matrix) - 1) / 2)%nat
  ∧ length ([3; 4] : vector) ≠ 1%nat
  ∧ forward [3; 4] [[1; -1]; [1; 1]] [[-1; 1]; [1; 1]] = Raise RuntimeError.
Proof.
  assert (H1 : length ([3; 4] : vector)
               ≠ (length ([[1; -1]; [1; 1]]%R : matrix)
                  * (length ([[1; -1]; [1; 1]]%R : matrix) - 1) / 2)%nat)
    by (simpl; lia).
  assert (H2 : length ([3; 4] : vector) ≠ 1%nat) by (simpl; lia).
  split; [exact H1|]. split; [exact H2|].
  apply forward_parameter_shape_error; [exact H1|exact H2].
Defined.

(** ** Spin flips, the shape error of expand_theta, and the optimizer call *)

Lemma matmul_mneg T (D S : matrix) : matmul T D (mneg S) = mneg (matmul T D S).
Proof.
  unfold matmul, mneg. rewrite <- list_fmap_compose. apply list_fmap_ext.
  intros _ ra _. simpl. rewrite <- vtab_vneg. apply vtab_ext. intros r Hr.
  fold (mneg S). by rewrite column_mneg, dot_vneg_r.
Qed.

Lemma mzip_mneg_mneg (A C : matrix) :
  mzip Rmult (mneg A) (mneg C) = mzip Rmult A C.
Proof.
  unfold mzip, mneg. revert C. induction A as [|a A IH]; intros [|c C]; csimpl; try done.
  f_equal; [apply vmul_vneg_vneg|apply IH].
Qed.

Lemma is_matrix_mneg n m (M : matrix) : is_matrix n m M → is_matrix n m (mneg M).
Proof.
  intros [Hn Hm]. split; unfold mneg; [by rewrite length_fmap|].
  apply Forall_fmap. eapply Forall_impl; [done|].
  intros r Hr. simpl. unfold vneg. by rewrite length_fmap.
Qed.

(** X21.  Flipping every spin of both sample matrices leaves the objective as it
    is. *)
Theorem forward_spin_flip (N T : nat) (theta : vector) (S S1 : matrix) :
  is_matrix N T S → is_matrix N T S1 →
  length theta = (N * (N - 1) / 2)%nat →
  forward theta (mneg S) (mneg S1) = forward theta S S1.
Proof.
  intros HS HS1 Hth.
  destruct (forward_th_upper_triangular N theta Hth) as (th & Hfth & Hshape & _).
  pose proof HS as [HlenS _].
  unfold forward. rewrite shape1_mneg.
  replace (length (mneg S)) with (length S) by (unfold mneg; by rewrite length_fmap).
  rewrite HlenS, Hfth. simpl.
  set (D := mzip Rminus th (transpose th)).
  assert (HD : is_matrix N N D)
    by (apply is_matrix_mzip; [done|by apply is_matrix_transpose]).
  rewrite matmul_mneg.
  set (T' := shape1 S).
  assert (HS1' : is_matrix N T' S1).
  { destruct (decide (N = 0%nat)) as [->|HN].
    - destruct HS1 as [Hl _]. apply nil_length_inv in Hl. subst S1. by split.
    - unfold T'. by rewrite (is_matrix_shape1 N T S) by (done || lia). }
  assert (HthS : is_matrix N T' (matmul T' D S))
    by (apply is_matrix_matmul; apply HD).
  rewrite (mbroadcast_same Rmult N T') by (by apply is_matrix_mneg).
  rewrite (mbroadcast_same Rmult N T') by done.
  by rewrite mzip_mneg_mneg.
Qed.

Lemma forward_spin_flip_witness :
  is_matrix 2 2 [[1; -1]; [1; 1]] ∧ is_matrix 2 2 [[-1; 1]; [1; 1]]
  ∧ length ([3] : vector) = (2 * (2 - 1) / 2)%nat
  ∧ forward [3] (mneg [[1; -1]; [1; 1]]) (mneg [[-1; 1]; [1; 1]])
    = forward [3] [[1; -1]; [1; 1]] [[-1; 1]; [1; 1]].
Proof.
  assert (Hm : is_matrix 2 2 [[1; -1]; [1; 1]]) by is_matrix_explicit.
  assert (Hm1 : is_matrix 2 2 [[-1; 1]; [1; 1]]) by is_matrix_explicit.
  split; [exact Hm|]. split; [exact Hm1|]. split; [reflexivity|].
  apply (forward_spin_flip 2 2); [exact Hm|exact Hm1|reflexivity].
Defined.

(** X22.  A two-dimensional input with at least two rows whose number of columns
    is not the number of rows minus one does not fit the off-diagonal
    positions: [expand_theta] raises. *)
Theorem expand_theta_shape_error (N c : nat) (M : matrix) :
  (2 ≤ N)%nat → is_matrix N c M → c ≠ (N - 1)%nat →
  expand_theta (Tensor2 M) = Raise RuntimeError.
Proof.
  intros HN HM Hc. pose proof HM as [HlenM _].
  unfold expand_theta, index_put.
  rewrite (length_join_matrix N c) by done.
  rewrite HlenM, length_offdiag_indices.
  rewrite decide_False
    by (intros Heq; apply Nat.mul_cancel_l in Heq; lia).
  rewrite decide_False; [done|].
  intros Heq. apply Nat.eq_mul_1 in Heq. lia.
Qed.

Lemma expand_theta_shape_error_witness :
  (2 ≤ 2)%nat ∧ is_matrix 2 2 [[1; 2]; [3; 4]] ∧ 2%nat ≠ (2 - 1)%nat
  ∧ expand_theta (Tensor2 [[1; 2]; [3; 4]]) = Raise RuntimeError.
Proof.
  assert (Hm : is_matrix 2 2 [[1; 2]; [3; 4]]) by is_matrix_explicit.
  split; [lia|]. split; [exact Hm|]. split; [lia|].
  apply (expand_theta_shape_error 2 2); [lia|exact Hm|lia].
Defined.


(** ** The two builders of the coupling matrix *)

(** X24.  The coupling matrix that [forward] multiplies the samples with,
    [th - th.T]: for a parameter vector with one entry per pair of spins it is
    an antisymmetric N by N matrix; the entry of the [p]-th pair [(j, k)],
    [j < k] in row-major order, is [theta[p]], and the mirrored entry is
    [-theta[p]]. *)
Theorem forward_coupling_matrix (N : nat) (theta : vector) :
  length theta = (N * (N - 1) / 2)%nat →
  ∃ th,
    forward_th theta N = Ok th
    ∧ let J := mzip Rminus th (transpose th) in
      is_matrix N N J
      ∧ antisymmetric N J
      ∧ ∀ p j k, triu_indices N !! p = Some (j, k) →
                 (j < k)%nat ∧ (k < N)%nat
                 ∧ entry J j k = vnth theta p ∧ entry J k j = - vnth theta p.
Proof.
  intros Hlen.
  destruct (forward_th_upper_triangular N theta Hlen)
    as (th & Hfth & Hshape & Hval & Hzero & Hanti).
  exists th. split; [done|]. intros J.
  split; [apply is_matrix_mzip; [done|by apply is_matrix_transpose]|].
  split; [done|].
  intros p j k Hp.
  assert (Hjk : (j < k)%nat ∧ (k < N)%nat)
    by (apply elem_of_triu_indices; by eapply list_elem_of_lookup_2).
  destruct Hjk as [Hjk Hk]. split; [done|]. split; [done|].
  assert (HJ : entry J j k = vnth theta p).
  { unfold J. rewrite (entry_mzip Rminus N N)
      by (done || lia || by apply is_matrix_transpose).
    rewrite (entry_transpose N) by (done || lia).
    rewrite (Hval p j k Hp), (Hzero k j) by lia. lra. }
  split; [done|]. rewrite <- HJ. apply Hanti; lia.
Qed.

Lemma forward_coupling_matrix_witness :
  length ([5; 6; 7] : vector) = (3 * (3 - 1) / 2)%nat
  ∧ ∃ th,
      forward_th [5; 6; 7] 3 = Ok th
      ∧ let J := mzip Rminus th (transpose th) in
        is_matrix 3 3 J
        ∧ antisymmetric 3 J
        ∧ ∀ p j k, triu_indices 3 !! p = Some (j, k) →
                   (j < k)%nat ∧ (k < 3)%nat
                   ∧ entry J j k = vnth [5; 6; 7] p
                   ∧ entry J k j = - vnth [5; 6; 7] p.
Proof.
  split; [reflexivity|]. apply (forward_coupling_matrix 3 [5; 6; 7]). reflexivity.
Defined.

Lemma expand_theta_fills_rows_witness :
  is_matrix 3 (3 - 1) [[1; 2]; [3; 4]; [5; 6]]
  ∧ ∃ full_theta,
      expand_theta (Tensor2 [[1; 2]; [3; 4]; [5; 6]]) = Ok full_theta
      ∧ is_matrix 3 3 full_theta
      ∧ (∀ j p, (j < 3)%nat → (p < 3 - 1)%nat →
                entry full_theta j (skip j p)
                = entry [[1; 2]; [3; 4]; [5; 6]] j p)
      ∧ (∀ j, entry full_theta j j = 0).
Proof.
  assert (Hm : is_matrix 3 (3 - 1) [[1; 2]; [3; 4]; [5; 6]]) by is_matrix_explicit.
  split; [exact Hm|]. exact (expand_theta_fills_rows 3 _ Hm).
Defined.

End MaxEnt_fit.
